(** * SimPro customer / contract reconciliation

    A shallow embedding of [scripts/clean_and_merge_simpro_data.py]: the
    company-name normalizer, the monetary-value parser, and the matcher
    that links contract rows to customers and accumulates their
    aggregates.

    Python strings are embedded over the ASCII range: [str.upper],
    [str.lower], [str.strip], [str.split], [str.isdigit] and the regex
    classes [\w] / [\b] are given their behaviour on ASCII text.  The
    public functions work on [string]; the character-level work is done
    on [list ascii]. *)

From Stdlib Require Import Ascii String List Bool Arith ZArith QArith Lia.
From stdpp Require Import base gmap strings list fin_maps.

Local Open Scope nat_scope.
Local Open Scope bool_scope.

(* ===================================================================== *)
(** ** Python [str] primitives on character lists *)
(* ===================================================================== *)

Module PyStr.

Definition code (c : ascii) : nat := nat_of_ascii c.

Definition in_range (lo hi : nat) (c : ascii) : bool :=
  (lo <=? code c) && (code c <=? hi).

Definition is_upper (c : ascii) : bool := in_range 65 90 c.
Definition is_lower (c : ascii) : bool := in_range 97 122 c.
Definition is_digit (c : ascii) : bool := in_range 48 57 c.

(** [str.isspace] on ASCII: TAB, LF, VT, FF, CR, FS, GS, RS, US, space. *)
Definition is_space (c : ascii) : bool := in_range 9 13 c || in_range 28 32 c.

(** The regex class [\w] on ASCII: letters, digits and underscore. *)
Definition is_word (c : ascii) : bool :=
  is_upper c || is_lower c || is_digit c || Ascii.eqb c "_".

Definition upper_char (c : ascii) : ascii :=
  if is_lower c then ascii_of_nat (code c - 32) else c.

Definition lower_char (c : ascii) : ascii :=
  if is_upper c then ascii_of_nat (code c + 32) else c.

(** [s.upper()] and [s.lower()] *)
Definition upper (s : list ascii) : list ascii := map upper_char s.
Definition lower (s : list ascii) : list ascii := map lower_char s.

(** [s.lstrip()], [s.rstrip()], [s.strip()] *)
Fixpoint lstrip (s : list ascii) : list ascii :=
  match s with
  | c :: t => if is_space c then lstrip t else s
  | [] => []
  end.

Definition rstrip (s : list ascii) : list ascii := rev (lstrip (rev s)).

Definition strip (s : list ascii) : list ascii := rstrip (lstrip s).

(** Cutting at every whitespace character; [s.split()] keeps the
    non-empty pieces, i.e. the maximal runs of non-whitespace. *)
Fixpoint pieces (s : list ascii) : list (list ascii) :=
  match s with
  | [] => [[]]
  | c :: t =>
      if is_space c then [] :: pieces t
      else match pieces t with
           | w :: ws => (c :: w) :: ws
           | [] => [[c]]
           end
  end.

Definition nonempty (w : list ascii) : bool :=
  match w with [] => false | _ :: _ => true end.

Definition split (s : list ascii) : list (list ascii) :=
  filter (fun w => nonempty w = true) (pieces s).

(** [sep.join(ws)] *)
Fixpoint join (sep : list ascii) (ws : list (list ascii)) : list ascii :=
  match ws with
  | [] => []
  | [w] => w
  | w :: ws' => w ++ sep ++ join sep ws'
  end.

(** [s.startswith(p)] *)
Fixpoint starts_with (p s : list ascii) : bool :=
  match p, s with
  | [], _ => true
  | a :: p', b :: s' => Ascii.eqb a b && starts_with p' s'
  | _ :: _, [] => false
  end.

(** [needle in hay] *)
Fixpoint contains (needle hay : list ascii) : bool :=
  starts_with needle hay ||
  match hay with
  | [] => false
  | _ :: t => contains needle t
  end.

(** [s.isdigit()]: non-empty and made of digits only. *)
Definition isdigit (s : list ascii) : bool :=
  nonempty s && forallb is_digit s.

End PyStr.

(* ===================================================================== *)
(** ** The fragment of Python's [re] used by the script *)
(* ===================================================================== *)

Module Re.
Import PyStr.

(** Patterns: literal characters, character classes, the greedy starred
    negated class, the word boundary, the greedy option, alternation
    and concatenation. *)
Inductive regex : Type :=
| Eps
| Chr (c : ascii)
| OneOf (cs : list ascii)
| NoneOfStar (cs : list ascii)
| WordB
| Opt (r : regex)
| Alt (r1 r2 : regex)
| Cat (r1 r2 : regex).

Definition mem (c : ascii) (cs : list ascii) : bool := existsb (Ascii.eqb c) cs.

Definition word_opt (o : option ascii) : bool :=
  match o with Some c => is_word c | None => false end.

(** [\b]: exactly one of the two neighbouring positions holds a word
    character; the two ends of the subject count as non-word. *)
Definition at_boundary (prev : option ascii) (s : list ascii) : bool :=
  xorb (word_opt prev) (word_opt (head s)).

Section Matcher.
Context {R : Type}.

(** [[^cs]*], longest first, giving characters back one at a time. *)
Fixpoint star_none (cs : list ascii) (prev : option ascii) (s : list ascii)
    (k : option ascii -> list ascii -> option R) : option R :=
  match s with
  | x :: t =>
      if mem x cs then k prev s
      else match star_none cs (Some x) t k with
           | Some res => Some res
           | None => k prev s
           end
  | [] => k prev s
  end.

(** Backtracking matcher in continuation-passing style.  [prev] is the
    character just before the current position ([None] at the start of
    the subject), [k] is what remains to be matched. *)
Fixpoint rmatch (r : regex) (prev : option ascii) (s : list ascii)
    (k : option ascii -> list ascii -> option R) : option R :=
  match r with
  | Eps => k prev s
  | Chr c =>
      match s with
      | x :: t => if Ascii.eqb x c then k (Some x) t else None
      | [] => None
      end
  | OneOf cs =>
      match s with
      | x :: t => if mem x cs then k (Some x) t else None
      | [] => None
      end
  | NoneOfStar cs => star_none cs prev s k
  | WordB => if at_boundary prev s then k prev s else None
  | Opt r1 =>
      match rmatch r1 prev s k with
      | Some res => Some res
      | None => k prev s
      end
  | Alt r1 r2 =>
      match rmatch r1 prev s k with
      | Some res => Some res
      | None => rmatch r2 prev s k
      end
  | Cat r1 r2 => rmatch r1 prev s (fun p t => rmatch r2 p t k)
  end.
End Matcher.

(** A match anchored at the current position: the character before the
    end of the match and the unconsumed rest. *)
Definition match_here (r : regex) (prev : option ascii) (s : list ascii)
    : option (option ascii * list ascii) :=
  rmatch r prev s (fun p t => Some (p, t)).

(** [re.sub] scanning from left to right.  After a match the scan resumes
    at its end; a position without a match copies one character.  All
    patterns of the script start with a literal character, so a match is
    never empty; an empty match is treated as no match. *)
Fixpoint sub_from (fuel : nat) (r : regex) (repl : list ascii)
    (prev : option ascii) (s : list ascii) : list ascii :=
  match fuel with
  | O => s
  | S fuel' =>
      match s with
      | [] => []
      | c :: t =>
          match match_here r prev s with
          | Some (p, rest) =>
              if length rest <? length s
              then repl ++ sub_from fuel' r repl p rest
              else c :: sub_from fuel' r repl (Some c) t
          | None => c :: sub_from fuel' r repl (Some c) t
          end
      end
  end.

(** The scan with enough fuel to reach the end of [s]. *)
Definition sub_at (r : regex) (repl : list ascii) (prev : option ascii)
    (s : list ascii) : list ascii :=
  sub_from (length s) r repl prev s.

(** [re.sub(r, repl, s)] *)
Definition re_sub (r : regex) (repl : list ascii) (s : list ascii) : list ascii :=
  sub_at r repl None s.

(** A literal string as a pattern. *)
Definition lit_chars (l : list ascii) : regex :=
  fold_right (fun c r => Cat (Chr c) r) Eps l.

Definition lit (s : string) : regex := lit_chars (list_ascii_of_string s).

End Re.

Notation "r1 >> r2" := (Re.Cat r1 r2) (at level 41, right associativity).
Notation "r1 |* r2" := (Re.Alt r1 r2) (at level 42, right associativity).

(* ===================================================================== *)
(** ** The name normalizer *)
(* ===================================================================== *)

Import PyStr Re.

Definition chars (s : string) : list ascii := list_ascii_of_string s.
Definition text (l : list ascii) : string := string_of_list_ascii l.

(** [r'\([^)]*\)'] *)
Definition re_parenthetical : regex :=
  Chr "(" >> NoneOfStar (chars ")") >> Chr ")".

(** [r'\bCORP\.?\b'], [r'\bINC\.?\b'], [r'\bLLC\.?\b'], [r'\bCO\.?\b'] *)
Definition re_abbrev (a : string) : regex :=
  WordB >> lit a >> Opt (Chr ".") >> WordB.

Definition clean_chars (name : list ascii) : list ascii :=
  match name with
  | [] => []
  | _ :: _ =>
      let name := strip (upper name) in
      let cleaned := name in
      let cleaned := re_sub re_parenthetical [] cleaned in
      let cleaned := re_sub (re_abbrev "CORP") (chars "CORPORATION") cleaned in
      let cleaned := re_sub (re_abbrev "INC") (chars "INC") cleaned in
      let cleaned := re_sub (re_abbrev "LLC") (chars "LLC") cleaned in
      let cleaned := re_sub (re_abbrev "CO") (chars "COMPANY") cleaned in
      let cleaned := join (chars " ") (split cleaned) in
      strip cleaned
  end.

(** [clean_company_name(name)] *)
Definition clean_company_name (name : string) : string :=
  text (clean_chars (chars name)).

(** The normalizer as the specification words it: an abbreviation that
    stands as a whole word is expanded, and a dot written after it belongs
    to the abbreviation and goes with it ([CORP.] becomes [CORPORATION]). *)
Definition re_abbrev_spec (a : string) : regex :=
  WordB >> lit a >> WordB >> Opt (Chr ".").

Definition clean_chars_spec (name : list ascii) : list ascii :=
  match name with
  | [] => []
  | _ :: _ =>
      let cleaned := strip (upper name) in
      let cleaned := re_sub re_parenthetical [] cleaned in
      let cleaned := re_sub (re_abbrev_spec "CORP") (chars "CORPORATION") cleaned in
      let cleaned := re_sub (re_abbrev_spec "INC") (chars "INC") cleaned in
      let cleaned := re_sub (re_abbrev_spec "LLC") (chars "LLC") cleaned in
      let cleaned := re_sub (re_abbrev_spec "CO") (chars "COMPANY") cleaned in
      strip (join (chars " ") (split cleaned))
  end.

Definition clean_company_name_spec (name : string) : string :=
  text (clean_chars_spec (chars name)).


(** *** Closed forms of the matches of the normalizer's patterns

    These are what the anchored matches of [re_abbrev] and
    [re_parenthetical] come to; the proofs establish that. *)

(** The next character is a word character. *)
Definition word_head (s : list ascii) : bool := word_opt (head s).

(** The text starts with a dot that is followed by a word character. *)
Definition dot_word (s : list ascii) : bool :=
  match s with
  | x :: t => Ascii.eqb x "." && word_head t
  | [] => false
  end.

(** [\bA\.?\b] anchored at the current position. *)
Definition abbrev_match (A : list ascii) (prev : option ascii) (s : list ascii)
    : option (option ascii * list ascii) :=
  if word_opt prev then None
  else if starts_with A s then
    let rest := drop (length A) s in
    if dot_word rest then Some (Some "."%char, drop 1 rest)
    else if word_head rest then None
    else Some (last A, rest)
  else None.

(** The pattern and the substitution of an abbreviation given by its
    characters; [re_abbrev a] is [abbrev_re (chars a)]. *)
Definition abbrev_re (A : list ascii) : regex :=
  WordB >> lit_chars A >> Opt (Chr ".") >> WordB.

Definition abbrev_sub (A R : list ascii) (s : list ascii) : list ascii :=
  re_sub (abbrev_re A) R s.

(** Likewise for the pattern of the specification's wording;
    [re_abbrev_spec a] is [abbrev_re_spec (chars a)]. *)
Definition abbrev_re_spec (A : list ascii) : regex :=
  WordB >> lit_chars A >> WordB >> Opt (Chr ".").

(** The shape of the rules: an abbreviation and its replacement are
    non-empty words, and the replacement is not a proper prefix of the
    abbreviation. *)
Definition proper_prefix (x y : list ascii) : bool :=
  starts_with x y && (length x <? length y).

Definition rule_ok (A R : list ascii) : bool :=
  nonempty A && forallb is_word A && nonempty R && forallb is_word R
  && negb (proper_prefix R A).

(** What follows the first closing parenthesis, if there is one. *)
Fixpoint after_close (s : list ascii) : option (list ascii) :=
  match s with
  | [] => None
  | x :: t => if Ascii.eqb x ")" then Some t else after_close t
  end.

(** No opening parenthesis has a closing one after it. *)
Fixpoint unclosed (s : list ascii) : bool :=
  match s with
  | [] => true
  | x :: t =>
      (if Ascii.eqb x "(" then negb (mem ")" t) else true) && unclosed t
  end.

(** The four abbreviation substitutions of the normalizer, in order. *)
Definition expand_abbrevs (s : list ascii) : list ascii :=
  re_sub (re_abbrev "CO") (chars "COMPANY")
    (re_sub (re_abbrev "LLC") (chars "LLC")
      (re_sub (re_abbrev "INC") (chars "INC")
        (re_sub (re_abbrev "CORP") (chars "CORPORATION") s))).

(** [' '.join(s.split())] *)
Definition squeeze (s : list ascii) : list ascii := join (chars " ") (split s).

(** Putting a field in front of squeezed text. *)
Definition glue (a r : list ascii) : list ascii :=
  match a, r with
  | [], _ => r
  | _, [] => a
  | _, _ => a ++ chars " " ++ r
  end.

(** The text has no whitespace; it does not start with whitespace. *)
Definition space_free (s : list ascii) : Prop :=
  Forall (fun c => is_space c = false) s.

Definition space_head (s : list ascii) : bool :=
  match s with
  | c :: _ => is_space c
  | [] => false
  end.

(** A function that works on each whitespace-separated field by itself,
    keeps fields free of whitespace and keeps them non-empty. *)
Definition fieldwise (g : list ascii -> list ascii) : Prop :=
  (∀ a sp b, is_space sp = true → g (a ++ sp :: b) = g a ++ sp :: g b) ∧
  (∀ a, space_free a → space_free (g a)) ∧
  (∀ a, g a = [] ↔ a = []).

(** The parentheses of a text, in order. *)
Definition is_paren (c : ascii) : bool := Ascii.eqb c "(" || Ascii.eqb c ")".

Definition parens (s : list ascii) : list ascii :=
  filter (fun c => is_paren c = true) s.

(** Every character is its own upper case. *)
Definition upper_fixed (s : list ascii) : Prop :=
  Forall (fun c => upper_char c = c) s.

(** The body of [clean_company_name] for a non-empty name. *)
Definition normalize (s : list ascii) : list ascii :=
  strip (squeeze (expand_abbrevs (re_sub re_parenthetical [] (strip (upper s))))).

(** String-level wrappers. *)
Definition str_strip (s : string) : string := text (strip (chars s)).
Definition str_lower (s : string) : string := text (lower (chars s)).
Definition str_len (s : string) : nat := length (chars s).
Definition str_contains (needle hay : string) : bool := contains (chars needle) (chars hay).
Definition str_isdigit (s : string) : bool := isdigit (chars s).
Definition str_empty (s : string) : bool := negb (nonempty (chars s)).

(* ===================================================================== *)
(** ** Numbers: the operations the script needs from Python's [float] *)
(* ===================================================================== *)

(** The script only ever builds floats with [float(str)] and the literal
    [0.0], adds them, and compares a total with an integer literal.
    [float_of_str] returns [None] where [float()] raises [ValueError]. *)
Class PyFloat (F : Type) := {
  float_zero : F;
  float_add : F -> F -> F;
  float_ge_int : F -> Z -> bool;
  float_of_str : list ascii -> option F
}.

(** [r'[$,]'] *)
Definition re_currency : regex := OneOf (chars "$,").

Section Values.
Context {F : Type} `{PyFloat F}.

(** [parse_contract_value(value_str)]; the bare [except] turns every
    failure of [float()] into [0.0]. *)
Definition parse_contract_value (value_str : string) : F :=
  match chars value_str with
  | [] => float_zero
  | _ :: _ =>
      let cleaned := re_sub re_currency [] (chars value_str) in
      match float_of_str cleaned with
      | Some v => v
      | None => float_zero
      end
  end.

(** [determine_service_tier(total_contract_value)] *)
Definition determine_service_tier (total_contract_value : F) : string :=
  if float_ge_int total_contract_value 250000 then "GUARDIAN"
  else if float_ge_int total_contract_value 100000 then "ASSURE"
  else "CORE".
End Values.

(* ===================================================================== *)
(** ** Decimal instance of the number interface *)
(* ===================================================================== *)

(** The text accepted by [float()] on ASCII input, with the value kept as
    the exact decimal the text denotes (binary64 rounding, which keeps
    sign and zero, is not applied), plus the two infinities and NaN. *)
Module DecFloat.

Inductive t : Type :=
| Fin (q : Q)
| Inf (neg : bool)
| NaN.

(** [m * 10^e] *)
Definition dec_to_Q (m e : Z) : Q :=
  if (0 <=? e)%Z then Qmake (m * 10 ^ e) 1
  else Qmake m (Z.to_pos (10 ^ (- e))).

(** C [isspace], which [float()] strips on ASCII input. *)
Definition is_c_space (c : ascii) : bool := in_range 9 13 c || Ascii.eqb c " ".

Fixpoint lstrip_c (s : list ascii) : list ascii :=
  match s with
  | c :: t => if is_c_space c then lstrip_c t else s
  | [] => []
  end.

Definition strip_c (s : list ascii) : list ascii := rev (lstrip_c (rev (lstrip_c s))).

Definition digit_val (c : ascii) : Z := Z.of_nat (code c - 48).

(** The tail of a [digitpart]: [(["_"] digit)*], accumulating the value
    and the number of digits read. *)
Fixpoint digits_from (s : list ascii) (n : Z) (len : nat) : Z * nat * list ascii :=
  match s with
  | c :: t =>
      if is_digit c then digits_from t (10 * n + digit_val c)%Z (S len)
      else if Ascii.eqb c "_" then
        match t with
        | d :: t' =>
            if is_digit d then digits_from t' (10 * n + digit_val d)%Z (S len)
            else (n, len, s)
        | [] => (n, len, s)
        end
      else (n, len, s)
  | [] => (n, len, s)
  end.

(** [digitpart ::= digit (["_"] digit)*], continuing the value [n]. *)
Definition digitpart (s : list ascii) (n : Z) : option (Z * nat * list ascii) :=
  match s with
  | c :: t => if is_digit c then Some (digits_from t (10 * n + digit_val c)%Z 1) else None
  | [] => None
  end.

(** [number ::= [digitpart] "." digitpart | digitpart ["."]]: the
    mantissa, the number of fraction digits, and the rest. *)
Definition number (s : list ascii) : option (Z * nat * list ascii) :=
  match digitpart s 0 with
  | Some (ip, _, rest) =>
      match rest with
      | c :: rest' =>
          if Ascii.eqb c "." then
            match digitpart rest' ip with
            | Some (m, flen, rest'') => Some (m, flen, rest'')
            | None => Some (ip, 0, rest')
            end
          else Some (ip, 0, rest)
      | [] => Some (ip, 0, rest)
      end
  | None =>
      match s with
      | c :: rest' => if Ascii.eqb c "." then digitpart rest' 0 else None
      | [] => None
      end
  end.

(** An optional sign: is it a minus, and the rest. *)
Definition sign (s : list ascii) : bool * list ascii :=
  match s with
  | c :: t =>
      if Ascii.eqb c "-" then (true, t)
      else if Ascii.eqb c "+" then (false, t)
      else (false, s)
  | [] => (false, s)
  end.

(** [exponent ::= ("e" | "E") [sign] digitpart]; when no well-formed
    exponent follows, nothing is consumed. *)
Definition exponent (s : list ascii) : Z * list ascii :=
  match s with
  | c :: t =>
      if Ascii.eqb c "e" || Ascii.eqb c "E" then
        let '(neg, t') := sign t in
        match digitpart t' 0 with
        | Some (e, _, rest) => ((if neg then - e else e)%Z, rest)
        | None => (0%Z, s)
        end
      else (0%Z, s)
  | [] => (0%Z, s)
  end.

Definition list_eqb (a b : list ascii) : bool := bool_decide (a = b).

(** [absfloatvalue ::= floatnumber | infinity | nan], which has to use
    up the whole text. *)
Definition absfloat (s : list ascii) : option t :=
  let l := lower s in
  if list_eqb l (chars "inf") || list_eqb l (chars "infinity") then Some (Inf false)
  else if list_eqb l (chars "nan") then Some NaN
  else
    match number s with
    | Some (m, flen, rest) =>
        let '(e, rest') := exponent rest in
        match rest' with
        | [] => Some (Fin (dec_to_Q m (e - Z.of_nat flen)))
        | _ :: _ => None
        end
    | None => None
    end.

Definition negate (x : t) : t :=
  match x with
  | Fin q => Fin (- q)
  | Inf neg => Inf (negb neg)
  | NaN => NaN
  end.

(** [float(s)] *)
Definition of_str (s : list ascii) : option t :=
  let '(neg, body) := sign (strip_c s) in
  match absfloat body with
  | Some v => Some (if neg then negate v else v)
  | None => None
  end.

Definition add (x y : t) : t :=
  match x, y with
  | NaN, _ | _, NaN => NaN
  | Fin a, Fin b => Fin (a + b)
  | Inf a, Inf b => if Bool.eqb a b then Inf a else NaN
  | Inf a, Fin _ => Inf a
  | Fin _, Inf b => Inf b
  end.

(** [x >= n] *)
Definition ge_int (x : t) (n : Z) : bool :=
  match x with
  | Fin q => Qle_bool (inject_Z n) q
  | Inf neg => negb neg
  | NaN => false
  end.

(** [x >= 0] *)
Definition nonneg (x : t) : bool := ge_int x 0.

End DecFloat.

#[export] Instance dec_float : PyFloat DecFloat.t := {
  float_zero := DecFloat.Fin 0;
  float_add := DecFloat.add;
  float_ge_int := DecFloat.ge_int;
  float_of_str := DecFloat.of_str
}.

(* ===================================================================== *)
(** ** Records, rows and the two dictionaries *)
(* ===================================================================== *)

(** A CSV row as produced by [csv.DictReader]: column name to text (a
    row as long as the header, so that no column holds [None]). *)
Abbreviation row := (gmap string string).

(** A row given by its items. *)
Definition mkrow (l : list (string * string)) : row := list_to_map l.

(** [row.get(key, default)] *)
Definition row_get (r : row) (key default_value : string) : string :=
  default default_value (r !! key).

(** [customer_name_map] is a [dict] whose iteration order is observed by
    the fuzzy scan, so it is kept as an insertion-ordered list of items:
    assigning to a present key replaces its value in place, assigning to
    a new key appends an item. *)
Abbreviation name_map := (list (string * string)).

Fixpoint dict_get (key : string) (d : name_map) : option string :=
  match d with
  | [] => None
  | (k, v) :: d' => if bool_decide (k = key) then Some v else dict_get key d'
  end.

Fixpoint dict_set (key value : string) (d : name_map) : name_map :=
  match d with
  | [] => [(key, value)]
  | (k, v) :: d' =>
      if bool_decide (k = key) then (k, value) :: d'
      else (k, v) :: dict_set key value d'
  end.

Section Records.
Context {F : Type}.

Record contract : Type := {
  contract_id : string;
  customer_name_in_contract : string;
  contract_name : string;
  contract_number : string;
  contract_value : F;
  contract_status : string;
  start_date : option string;
  end_date : option string;
  contract_email : string;
  contract_notes : string;
  matched_customer_id : option string
}.

Record customer : Type := {
  simpro_customer_id : string;
  company_name : string;
  company_name_cleaned : string;
  email : string;
  mailing_address : string;
  mailing_city : string;
  mailing_state : string;
  mailing_zip : string;
  labor_tax_code : string;
  part_tax_code : string;
  is_contract_customer : bool;
  contracts : list contract;
  total_contract_value : F;
  active_contract_count : nat;
  has_active_contracts : bool;
  service_tier : string;
  latest_contract_email : string
}.
End Records.
Arguments contract : clear implicits.
Arguments customer : clear implicits.

(** [customers] is only ever read and written by key in the code
    embedded here. *)
Abbreviation customers_of F := (gmap string (customer F)).

(* ===================================================================== *)
(** ** Loading customers, loading and matching contracts *)
(* ===================================================================== *)

(** [r'\b(LLC|INC|CORPORATION|COMPANY|CORP)\b'] *)
Definition re_suffix : regex :=
  WordB >> (lit "LLC" |* lit "INC" |* lit "CORPORATION" |* lit "COMPANY" |* lit "CORP")
        >> WordB.

(** [re.sub(r'\b(LLC|...|CORP)\b', '', name).strip()] *)
Definition strip_suffixes (name : string) : string :=
  text (strip (re_sub re_suffix [] (chars name))).

(** The containment test of the fuzzy scan. *)
Definition containment_match (cleaned_name stored_name : string) : bool :=
  (10 <? str_len cleaned_name) && (10 <? str_len stored_name) &&
  (str_contains cleaned_name stored_name || str_contains stored_name cleaned_name).

(** The suffix-stripped comparison of the fuzzy scan. *)
Definition suffix_match (cleaned_name stored_name : string) : bool :=
  let cleaned_stripped := strip_suffixes cleaned_name in
  let stored_stripped := strip_suffixes stored_name in
  negb (str_empty cleaned_stripped) && negb (str_empty stored_stripped) &&
  bool_decide (cleaned_stripped = stored_stripped).

(** [for stored_name, cust_id in customer_name_map.items(): ...] with its
    two [break]s. *)
Fixpoint fuzzy_scan (cleaned_name : string) (items : name_map) : option string :=
  match items with
  | [] => None
  | (stored_name, cust_id) :: items' =>
      if containment_match cleaned_name stored_name then Some cust_id
      else if suffix_match cleaned_name stored_name then Some cust_id
      else fuzzy_scan cleaned_name items'
  end.

(** Lines 169-191: the value of [matched_customer_id] for a contract
    whose customer name is [customer_name]. *)
Definition match_customer (customer_name_map : name_map) (customer_name : string)
    : option string :=
  let cleaned_name := clean_company_name customer_name in
  match dict_get cleaned_name customer_name_map with
  | Some cust_id => Some cust_id
  | None => fuzzy_scan cleaned_name customer_name_map
  end.

(** The rows the contract loop skips before matching. *)
Definition not_customer_data (customer_name : string) : bool :=
  existsb (String.eqb customer_name)
    ["SMA Included"; "UNL RS"; "Monthly"; "Quarterly"; "Weekly"]%string
  || str_isdigit customer_name.

Definition skipped_row (r : row) : bool :=
  let customer_name := str_strip (row_get r "Customer" "") in
  let contract_name := str_strip (row_get r "Contract Name" "") in
  str_empty customer_name || str_empty contract_name
  || not_customer_data customer_name
  || str_contains "Selected Criteria" customer_name.

(** Python truthiness of [matched_customer_id] ([None] or a string). *)
Definition truthy_id (o : option string) : option string :=
  match o with
  | Some s => if str_empty s then None else Some s
  | None => None
  end.

Section Pipeline.
Context {F : Type} `{PyFloat F}.

(** [str(uuid.uuid4())]: the identifier drawn for the [n]-th record. *)
Variable uuid4 : nat -> string.

(** [datetime.strptime(s, fmt).strftime("%Y-%m-%d")], [None] when it
    raises. *)
Variable reformat_date : string -> string -> option string.

(** [parse_date(date_str)] *)
Definition parse_date (date_str : string) : option string :=
  if str_empty date_str then None
  else match reformat_date date_str "%m/%d/%Y" with
       | Some d => Some d
       | None =>
           match reformat_date date_str "%Y-%m-%d" with
           | Some d => Some d
           | None => None
           end
       end.

(** The customer record of lines 110-128. *)
Definition new_customer (customer_id company_name : string) (r : row) : customer F := {|
  simpro_customer_id := customer_id;
  company_name := company_name;
  company_name_cleaned := clean_company_name company_name;
  email := str_lower (str_strip (row_get r "Email" ""));
  mailing_address := str_strip (row_get r "Mailing Address" "");
  mailing_city := str_strip (row_get r "Mailing City" "");
  mailing_state := str_strip (row_get r "Mailing State" "");
  mailing_zip := str_strip (row_get r "Mailing ZIP Code" "");
  labor_tax_code := str_strip (row_get r "Labor Tax Code" "");
  part_tax_code := str_strip (row_get r "Part Tax Code" "");
  is_contract_customer :=
    bool_decide (str_lower (str_strip (row_get r "Contract Customer" "")) = "yes"%string);
  contracts := [];
  total_contract_value := float_zero;
  active_contract_count := 0;
  has_active_contracts := false;
  service_tier := "CORE";
  latest_contract_email := ""
|}.

(** One iteration of the loop of [load_customers]. *)
Definition load_customer_row (st : customers_of F * name_map) (r : row)
    : customers_of F * name_map :=
  let '(customers, customer_name_map) := st in
  let customer_id := str_strip (row_get r "Customer ID" "") in
  let company_name := str_strip (row_get r "Customer" "") in
  if str_empty customer_id || str_empty company_name then st
  else
    let customer := new_customer customer_id company_name r in
    let customers := <[customer_id := customer]> customers in
    let cleaned_name := clean_company_name company_name in
    (customers, dict_set cleaned_name customer_id customer_name_map).

(** [load_customers()] on the rows of the customer file. *)
Definition load_customers (rows : list row) : customers_of F * name_map :=
  fold_left load_customer_row rows (∅, []).

(** The contract record of lines 194-209. *)
Definition new_contract (n : nat) (customer_name contract_name : string) (r : row)
    (matched : option string) : contract F :=
  let contract_value := parse_contract_value (row_get r "Value" "0") in
  let contract_status := str_strip (row_get r "Status" "") in
  {|
    contract_id := uuid4 n;
    customer_name_in_contract := customer_name;
    contract_name := contract_name;
    contract_number := str_strip (row_get r "Contract No." "");
    contract_value := contract_value;
    contract_status :=
      if bool_decide (str_lower contract_status = "active"%string)
      then "active"%string else "expired"%string;
    start_date := parse_date (row_get r "Start Date" "");
    end_date := parse_date (row_get r "End Date" "");
    contract_email := str_lower (str_strip (row_get r "Email" ""));
    contract_notes := str_strip (row_get r "Notes" "");
    matched_customer_id := matched
  |}.

(** Lines 216-226: link a contract to its customer and update the
    customer's statistics. *)
Definition link_contract (c : customer F) (k : contract F) : customer F :=
  let active := bool_decide (contract_status k = "active"%string) in
  {|
    simpro_customer_id := simpro_customer_id c;
    company_name := company_name c;
    company_name_cleaned := company_name_cleaned c;
    email := email c;
    mailing_address := mailing_address c;
    mailing_city := mailing_city c;
    mailing_state := mailing_state c;
    mailing_zip := mailing_zip c;
    labor_tax_code := labor_tax_code c;
    part_tax_code := part_tax_code c;
    is_contract_customer := is_contract_customer c;
    contracts := contracts c ++ [k];
    total_contract_value :=
      if active then float_add (total_contract_value c) (contract_value k)
      else total_contract_value c;
    active_contract_count :=
      if active then active_contract_count c + 1 else active_contract_count c;
    has_active_contracts := if active then true else has_active_contracts c;
    service_tier := service_tier c;
    latest_contract_email :=
      if active && negb (str_empty (contract_email k)) then contract_email k
      else latest_contract_email c
  |}.

(** The state of the contract loop. *)
Record match_state : Type := {
  st_customers : customers_of F;
  st_contracts : list (contract F);
  st_unmatched : list (string * string * F);
  st_matched_count : nat
}.

(** One iteration of the loop of [load_and_match_contracts]; [None] is
    the [KeyError] of [customers[matched_customer_id]]. *)
Definition match_contract_row (customer_name_map : name_map)
    (st : match_state) (r : row) : option match_state :=
  if skipped_row r then Some st
  else
    let customer_name := str_strip (row_get r "Customer" "") in
    let contract_name := str_strip (row_get r "Contract Name" "") in
    let matched := match_customer customer_name_map customer_name in
    let k := new_contract (length (st_contracts st)) customer_name contract_name r matched in
    let contracts' := st_contracts st ++ [k] in
    match truthy_id matched with
    | Some cust_id =>
        match st_customers st !! cust_id with
        | Some c =>
            Some {| st_customers := <[cust_id := link_contract c k]> (st_customers st);
                    st_contracts := contracts';
                    st_unmatched := st_unmatched st;
                    st_matched_count := st_matched_count st + 1 |}
        | None => None
        end
    | None =>
        Some {| st_customers := st_customers st;
                st_contracts := contracts';
                st_unmatched :=
                  st_unmatched st ++ [(customer_name, contract_name, contract_value k)];
                st_matched_count := st_matched_count st |}
    end.

Fixpoint match_contract_rows (customer_name_map : name_map)
    (st : match_state) (rows : list row) : option match_state :=
  match rows with
  | [] => Some st
  | r :: rows' =>
      match match_contract_row customer_name_map st r with
      | Some st' => match_contract_rows customer_name_map st' rows'
      | None => None
      end
  end.

(** Lines 240-241: the tier of every customer from its final total. *)
Definition retier (c : customer F) : customer F := {|
  simpro_customer_id := simpro_customer_id c;
  company_name := company_name c;
  company_name_cleaned := company_name_cleaned c;
  email := email c;
  mailing_address := mailing_address c;
  mailing_city := mailing_city c;
  mailing_state := mailing_state c;
  mailing_zip := mailing_zip c;
  labor_tax_code := labor_tax_code c;
  part_tax_code := part_tax_code c;
  is_contract_customer := is_contract_customer c;
  contracts := contracts c;
  total_contract_value := total_contract_value c;
  active_contract_count := active_contract_count c;
  has_active_contracts := has_active_contracts c;
  service_tier := determine_service_tier (total_contract_value c);
  latest_contract_email := latest_contract_email c
|}.

(** [load_and_match_contracts(customers, customer_name_map)] on the
    rows of the contract report: the customers as the call leaves them
    and the returned contract list. *)
Definition load_and_match_contracts (customers : customers_of F)
    (customer_name_map : name_map) (rows : list row)
    : option (customers_of F * list (contract F)) :=
  let st0 := {| st_customers := customers; st_contracts := [];
                st_unmatched := []; st_matched_count := 0 |} in
  match match_contract_rows customer_name_map st0 rows with
  | Some st => Some (retier <$> st_customers st, st_contracts st)
  | None => None
  end.

(** The first two steps of [main()]. *)
Definition run (customer_rows contract_rows : list row)
    : option (customers_of F * list (contract F)) :=
  let '(customers, customer_name_map) := load_customers customer_rows in
  load_and_match_contracts customers customer_name_map contract_rows.

(** The sum of the values of the active contracts of a list, added up
    from [0.0] in list order. *)
Definition sum_active (ks : list (contract F)) : F :=
  fold_left (fun acc k => float_add acc (contract_value k))
            (filter (fun k => contract_status k = "active"%string) ks) float_zero.

(** The contracts of a list that were linked to customer [cust_id]. *)
Definition linked_to (cust_id : string) (ks : list (contract F)) : list (contract F) :=
  filter (fun k => truthy_id (matched_customer_id k) = Some cust_id) ks.

(** The record built for a contract row that is not skipped, as the
    [n]-th record of the run. *)
Definition contract_of_row (customer_name_map : name_map) (n : nat) (r : row)
    : contract F :=
  let customer_name := str_strip (row_get r "Customer" "") in
  let contract_name := str_strip (row_get r "Contract Name" "") in
  new_contract n customer_name contract_name r
    (match_customer customer_name_map customer_name).

(** Every customer's linked collection holds exactly the contracts matched
    to it so far, and its total is the sum over the active ones. *)
Definition aggregates_consistent (st : match_state) : Prop :=
  ∀ id c, st_customers st !! id = Some c →
    contracts c = linked_to id (st_contracts st) ∧
    total_contract_value c = sum_active (contracts c).
End Pipeline.

(** Example data for the concrete instances of the statements. *)
Definition ex_uuid4 (n : nat) : string := "00000000-0000-4000-8000-000000000000".
Definition ex_reformat_date (s fmt : string) : option string := None.

Definition ex_customer_rows : list row :=
  [mkrow [("Customer ID", "C1"); ("Customer", "Acme Corp")]%string;
   mkrow [("Customer ID", "C2"); ("Customer", "ACME Corporation")]%string;
   mkrow [("Customer ID", "C3"); ("Customer", "Acme Holdings International")]%string;
   mkrow [("Customer ID", "C4"); ("Customer", "Acme Holdings")]%string].

Definition ex_contract_rows : list row :=
  [mkrow [("Customer", "ACME CORPORATION"); ("Contract Name", "SMA");
          ("Value", "$120,000.00"); ("Status", "Active")]%string;
   mkrow [("Customer", "Acme Holdings"); ("Contract Name", "UNL");
          ("Value", "$1,234.50"); ("Status", "Pending")]%string;
   mkrow [("Customer", "Acme Corp"); ("Contract Name", "PM");
          ("Value", "500"); ("Status", " ACTIVE ")]%string;
   mkrow [("Customer", "Nobody Ltd"); ("Contract Name", "PM");
          ("Value", "N/A"); ("Status", "active")]%string;
   mkrow [("Customer", "Monthly"); ("Contract Name", "PM");
          ("Value", "7"); ("Status", "active")]%string].

(* ===================================================================== *)
(** ** Vocabulary of the statements *)
(* ===================================================================== *)

(** [a] occurs in [b] as a contiguous substring. *)
Definition substring_of (a b : string) : Prop :=
  ∃ p q, chars b = p ++ chars a ++ q.

(** A customer row that [load_customers] keeps, its identifier and the
    key it is indexed under. *)
Definition row_customer_id (r : row) : string := str_strip (row_get r "Customer ID" "").
Definition row_company_name (r : row) : string := str_strip (row_get r "Customer" "").
Definition row_key (r : row) : string := clean_company_name (row_company_name r).
Definition accepted_row (r : row) : bool :=
  negb (str_empty (row_customer_id r) || str_empty (row_company_name r)).

(** The text handed to [float()], trimmed and without its sign, spells
    an infinity or NaN (in any letter case). *)
Definition reads_as_special (value_str : string) : bool :=
  let body :=
    (DecFloat.sign (DecFloat.strip_c (re_sub re_currency [] (chars value_str)))).2 in
  DecFloat.list_eqb (lower body) (chars "inf")
  || DecFloat.list_eqb (lower body) (chars "infinity")
  || DecFloat.list_eqb (lower body) (chars "nan").

(** The characters a decimal numeral is written with, the whitespace
    [float()] strips around it, and the two characters the function
    removes. *)
Definition numeral_char (c : ascii) : bool :=
  is_digit c || mem c (chars ".+-eE_") || DecFloat.is_c_space c || mem c (chars "$,").


(* ===================================================================== *)
(** ** Vocabulary of the further statements *)
(* ===================================================================== *)

Section MoreVocabulary.
Context {F : Type}.

(** The active contracts of a customer's linked collection, and the
    emails of those that carry one, in link order. *)
Definition active_links (c : customer F) : list (contract F) :=
  filter (fun k => contract_status k = "active"%string) (contracts c).

Definition active_emails (c : customer F) : list string :=
  contract_email <$>
    filter (fun k => contract_status k = "active"%string ∧
                     str_empty (contract_email k) = false) (contracts c).

(** Two customer records with the same fields read from the customer
    file. *)
Definition same_identity (c c' : customer F) : Prop :=
  simpro_customer_id c = simpro_customer_id c' ∧
  company_name c = company_name c' ∧
  company_name_cleaned c = company_name_cleaned c' ∧
  email c = email c' ∧
  mailing_address c = mailing_address c' ∧
  mailing_city c = mailing_city c' ∧
  mailing_state c = mailing_state c' ∧
  mailing_zip c = mailing_zip c' ∧
  labor_tax_code c = labor_tax_code c' ∧
  part_tax_code c = part_tax_code c' ∧
  is_contract_customer c = is_contract_customer c'.

(** The statistics of a customer agree with its linked collection. *)
Definition statistics_consistent (c : customer F) : Prop :=
  active_contract_count c = length (active_links c) ∧
  has_active_contracts c = bool_decide (active_links c ≠ []) ∧
  latest_contract_email c = default ""%string (last (active_emails c)).

(** The entry of the unmatched list for a contract. *)
Definition unmatched_entry (k : contract F) : string * string * F :=
  (customer_name_in_contract k, contract_name k, contract_value k).
End MoreVocabulary.

(** One candidate of the fuzzy scan passes the containment test or the
    suffix-stripped comparison. *)
Definition candidate_match (cleaned_name stored_name : string) : bool :=
  containment_match cleaned_name stored_name || suffix_match cleaned_name stored_name.

(** More example data: a customer file in which an identifier is
    repeated. *)
Definition ex_first_row : row :=
  mkrow [("Customer ID", "C1"); ("Customer", "Acme Corp")]%string.
Definition ex_repeated_row : row :=
  mkrow [("Customer ID", "C1"); ("Customer", "Acme Holdings")]%string.
Definition ex_other_row : row :=
  mkrow [("Customer ID", "C2"); ("Customer", "Bolt Inc")]%string.

(** One step of whitespace editing that [' '.join(s.split())] does not
    see: dropping a whitespace character at either end, replacing one
    whitespace character by another, dropping the first of two adjacent
    ones. *)
Inductive ws_step : list ascii -> list ascii -> Prop :=
| ws_lead (sp : ascii) (v : list ascii) :
    is_space sp = true → ws_step (sp :: v) v
| ws_trail (u : list ascii) (sp : ascii) :
    is_space sp = true → ws_step (u ++ [sp]) u
| ws_swap (u : list ascii) (sp sp' : ascii) (v : list ascii) :
    is_space sp = true → is_space sp' = true →
    ws_step (u ++ sp :: v) (u ++ sp' :: v)
| ws_dup (u : list ascii) (sp sp2 : ascii) (v : list ascii) :
    is_space sp = true → is_space sp2 = true →
    ws_step (u ++ sp :: sp2 :: v) (u ++ sp2 :: v).

(** What every step of the normalizer leaves as it is. *)
Definition normal_form (s : list ascii) : Prop :=
  upper s = s ∧ strip s = s ∧ squeeze s = s ∧
  re_sub re_parenthetical [] s = s ∧ expand_abbrevs s = s.

(* ===================================================================== *)
(** ** What the export and the SQL generation select *)
(* ===================================================================== *)

Section ExportModel.
Context {F : Type}.

(** [len([c for c in customers.values() if c['service_tier'] == tier])],
    the entries of [stats['service_tiers']] in [export_cleaned_data];
    the order of the values does not matter for the count. *)
Definition tier_count (tier : string) (customers : customers_of F) : nat :=
  length (filter (fun c => service_tier c = tier) (map_to_list customers).*2).

(** [v['contracts']] as a condition. *)
Definition has_contracts (c : customer F) : bool :=
  match contracts c with
  | [] => false
  | _ :: _ => true
  end.

(** [{k: v for k, v in customers.items() if v['contracts']}], the
    customers [generate_sql] inserts; its first loop puts the key
    [db_id] on each of them and on no other customer. *)
Definition customers_with_contracts (customers : customers_of F) : customers_of F :=
  filter (fun kv => has_contracts kv.2 = true) customers.

(** The second loop of [generate_sql], over [matched_contracts]: the
    contracts for which a tuple of values is written.  [None] is the
    [KeyError] of [customers[contract['matched_customer_id']]]; the test
    ['db_id' in customer] holds for the customers of
    [customers_with_contracts]. *)
Fixpoint sql_contract_rows (customers : customers_of F)
    (matched_contracts : list (contract F)) : option (list (contract F)) :=
  match matched_contracts with
  | [] => Some []
  | k :: rest =>
      match matched_customer_id k with
      | None => None
      | Some id =>
          match customers !! id with
          | None => None
          | Some _ =>
              match sql_contract_rows customers rest with
              | None => None
              | Some out =>
                  Some (if bool_decide (is_Some (customers_with_contracts customers !! id))
                        then k :: out else out)
              end
          end
      end
  end.

(** [[c for c in contracts if c['matched_customer_id']]] *)
Definition matched_contracts (ks : list (contract F)) : list (contract F) :=
  filter (fun k => is_Some (truthy_id (matched_customer_id k))) ks.
End ExportModel.


(* ===================================================================== *)
(** ** Substring test and the ordered dictionary *)
(* ===================================================================== *)

Lemma starts_with_spec (p s : list ascii) :
  starts_with p s = true ↔ ∃ q, s = p ++ q.
Proof.
  revert s. induction p as [|a p IH]; intros [|b s]; simpl.
  - split; eauto.
  - split; eauto.
  - split; [done | intros [q Hq]; discriminate].
  - rewrite andb_true_iff, IH. split.
    + intros [Hab [q ->]]. apply Ascii.eqb_eq in Hab as ->. eauto.
    + intros [q Hq]. injection Hq as -> ->.
      split; [apply Ascii.eqb_refl | eauto].
Qed.

Lemma contains_spec (n h : list ascii) :
  contains n h = true ↔ ∃ p q, h = p ++ n ++ q.
Proof.
  induction h as [|c h IH]; simpl.
  - rewrite orb_false_r, starts_with_spec. split.
    + intros [q Hq]. by exists [], q.
    + intros (p & q & Hpq). destruct p; simpl in *; [eauto | discriminate].
  - rewrite orb_true_iff, starts_with_spec, IH. split.
    + intros [[q Hq] | (p & q & ->)]; [by exists [], q | by exists (c :: p), q].
    + intros (p & q & Hpq). destruct p as [|c' p]; simpl in Hpq.
      * left; eauto.
      * right. injection Hpq as -> ->. eauto.
Qed.

Lemma str_contains_spec (a b : string) :
  str_contains a b = true ↔ substring_of a b.
Proof. apply contains_spec. Qed.

Lemma dict_get_In (key v : string) (d : name_map) :
  dict_get key d = Some v → (key, v) ∈ d.
Proof.
  induction d as [|[k w] d IH]; simpl; [done |].
  case_bool_decide as Hk.
  - intros [= ->]. subst k. apply list_elem_of_here.
  - intros Hg. apply list_elem_of_further. auto.
Qed.

Lemma dict_get_set_eq (key v : string) (d : name_map) :
  dict_get key (dict_set key v d) = Some v.
Proof.
  induction d as [|[k w] d IH]; simpl.
  - by rewrite bool_decide_eq_true_2.
  - case_bool_decide as Hk; simpl.
    + by rewrite bool_decide_eq_true_2.
    + by rewrite bool_decide_eq_false_2.
Qed.

Lemma dict_get_set_ne (key key' v : string) (d : name_map) :
  key ≠ key' → dict_get key' (dict_set key v d) = dict_get key' d.
Proof.
  intros Hne. induction d as [|[k w] d IH]; simpl.
  - by rewrite bool_decide_eq_false_2.
  - case_bool_decide as Hk; simpl.
    + subst k. by rewrite !bool_decide_eq_false_2.
    + by rewrite IH.
Qed.

Lemma dict_set_In (key v k w : string) (d : name_map) :
  (k, w) ∈ dict_set key v d → (k, w) = (key, v) ∨ (k, w) ∈ d.
Proof.
  induction d as [|[k' w'] d IH]; simpl.
  - intros ->%list_elem_of_singleton. by left.
  - case_bool_decide as Hk.
    + subst k'. intros [->|Hin]%elem_of_cons; [by left |].
      right. by apply list_elem_of_further.
    + intros [->|Hin]%elem_of_cons.
      * right. apply list_elem_of_here.
      * destruct (IH Hin) as [?|?]; [by left |].
        right. by apply list_elem_of_further.
Qed.

Lemma dict_set_keys (key v : string) (d : name_map) :
  key ∈ d.*1 → (dict_set key v d).*1 = d.*1.
Proof.
  induction d as [|[k w] d IH]; cbn [dict_set].
  - by intros ?%not_elem_of_nil.
  - case_bool_decide as Hk; [done |].
    rewrite !fmap_cons. cbn [fst].
    intros [?|Hin]%elem_of_cons; [congruence |]. by rewrite IH.
Qed.

Lemma dict_set_keys_new (key v : string) (d : name_map) :
  key ∉ d.*1 → (dict_set key v d).*1 = d.*1 ++ [key].
Proof.
  induction d as [|[k w] d IH]; cbn [dict_set]; [done |].
  rewrite fmap_cons. cbn [fst].
  intros Hnin. apply not_elem_of_cons in Hnin as [Hne Hnin].
  rewrite bool_decide_eq_false_2 by congruence.
  rewrite fmap_cons. cbn [fst]. by rewrite IH.
Qed.

Lemma dict_set_NoDup (key v : string) (d : name_map) :
  NoDup d.*1 → NoDup (dict_set key v d).*1.
Proof.
  intros Hnd. destruct (decide (key ∈ d.*1)) as [Hin|Hnin].
  - by rewrite dict_set_keys.
  - rewrite dict_set_keys_new by done.
    apply NoDup_app. split_and!; [done | | apply NoDup_singleton].
    intros x Hx ->%list_elem_of_singleton. done.
Qed.

Lemma fuzzy_scan_In (cleaned id : string) (items : name_map) :
  fuzzy_scan cleaned items = Some id →
  ∃ stored, (stored, id) ∈ items ∧
            (containment_match cleaned stored = true ∨ suffix_match cleaned stored = true).
Proof.
  induction items as [|[stored cid] items IH]; simpl; [done |].
  destruct (containment_match cleaned stored) eqn:Hc.
  - intros [= ->]. exists stored. split; [apply list_elem_of_here | by left].
  - destruct (suffix_match cleaned stored) eqn:Hs.
    + intros [= ->]. exists stored. split; [apply list_elem_of_here | by right].
    + intros (s & Hin & Hm)%IH. exists s. split; [by apply list_elem_of_further | done].
Qed.

Lemma match_customer_In (m : name_map) (customer_name id : string) :
  match_customer m customer_name = Some id → ∃ stored, (stored, id) ∈ m.
Proof.
  unfold match_customer.
  destruct (dict_get _ m) as [v|] eqn:Hg.
  - intros [= ->]. eauto using dict_get_In.
  - intros (s & Hin & _)%fuzzy_scan_In. eauto.
Qed.

Lemma containment_match_spec (cleaned stored : string) :
  containment_match cleaned stored = true ↔
  10 < str_len cleaned ∧ 10 < str_len stored ∧
  (substring_of cleaned stored ∨ substring_of stored cleaned).
Proof.
  unfold containment_match.
  rewrite !andb_true_iff, orb_true_iff, !Nat.ltb_lt, !str_contains_spec.
  tauto.
Qed.

(* ===================================================================== *)
(** ** The index built by [load_customers] *)
(* ===================================================================== *)

Section LoadFacts.
Context {F : Type} `{PyFloat F}.

Lemma load_customers_snoc (rows : list row) (r : row) :
  load_customers (F:=F) (rows ++ [r]) = load_customer_row (load_customers rows) r.
Proof. unfold load_customers. by rewrite fold_left_app. Qed.

Lemma load_customer_row_accepted (st : customers_of F * name_map) (r : row) :
  accepted_row r = true →
  load_customer_row st r =
    (<[row_customer_id r := new_customer (row_customer_id r) (row_company_name r) r]> st.1,
     dict_set (row_key r) (row_customer_id r) st.2).
Proof.
  unfold accepted_row, load_customer_row, row_key, row_customer_id, row_company_name.
  destruct st as [cs m]. intros Hacc%negb_true_iff. by rewrite Hacc.
Qed.

Lemma load_customer_row_rejected (st : customers_of F * name_map) (r : row) :
  accepted_row r = false → load_customer_row st r = st.
Proof.
  unfold accepted_row, load_customer_row, row_customer_id, row_company_name.
  destruct st as [cs m]. intros Hacc%negb_false_iff. by rewrite Hacc.
Qed.

(** Every identifier stored in the index is a key of [customers]. *)
Lemma index_values_loaded (rows : list row) (k v : string) :
  (k, v) ∈ (load_customers (F:=F) rows).2 →
  is_Some ((load_customers (F:=F) rows).1 !! v).
Proof.
  revert k v. induction rows as [|r rows IH] using rev_ind; intros k v.
  - cbn. by intros ?%not_elem_of_nil.
  - rewrite load_customers_snoc. destruct (accepted_row r) eqn:Hacc.
    + rewrite load_customer_row_accepted by done. cbn [fst snd].
      intros [[= -> ->] | Hin]%dict_set_In.
      * rewrite lookup_insert_eq. eauto.
      * apply lookup_insert_is_Some'. right. eauto.
    + rewrite load_customer_row_rejected by done. eauto.
Qed.

(** Freshly loaded customers have no contracts and a zero total. *)
Lemma loaded_customers_fresh (rows : list row) (id : string) (c : customer F) :
  (load_customers rows).1 !! id = Some c →
  contracts c = [] ∧ total_contract_value c = float_zero.
Proof.
  revert id c. induction rows as [|r rows IH] using rev_ind; intros id c.
  - cbn. by rewrite lookup_empty.
  - rewrite load_customers_snoc. destruct (accepted_row r) eqn:Hacc.
    + rewrite load_customer_row_accepted by done. cbn [fst snd].
      rewrite lookup_insert. case_decide.
      * intros [= <-]. done.
      * eauto.
    + rewrite load_customer_row_rejected by done. eauto.
Qed.

Lemma index_NoDup (rows : list row) : NoDup (load_customers (F:=F) rows).2.*1.
Proof.
  induction rows as [|r rows IH] using rev_ind.
  - cbn. apply NoDup_nil_2.
  - rewrite load_customers_snoc. destruct (accepted_row r) eqn:Hacc.
    + rewrite load_customer_row_accepted by done. cbn [fst snd].
      by apply dict_set_NoDup.
    + by rewrite load_customer_row_rejected.
Qed.

(** The index entry of a key is the identifier of the last kept row
    with that key. *)
Lemma index_last_row (rows1 rows2 : list row) (r : row) :
  accepted_row r = true →
  (∀ r', r' ∈ rows2 → accepted_row r' = true → row_key r' ≠ row_key r) →
  dict_get (row_key r) (load_customers (F:=F) (rows1 ++ r :: rows2)).2
    = Some (row_customer_id r).
Proof.
  intros Hacc. induction rows2 as [|r2 rows2 IH] using rev_ind; intros Hlater.
  - rewrite load_customers_snoc, load_customer_row_accepted by done.
    apply dict_get_set_eq.
  - replace (rows1 ++ r :: rows2 ++ [r2]) with ((rows1 ++ r :: rows2) ++ [r2])
      by (by rewrite <- app_assoc).
    rewrite load_customers_snoc. destruct (accepted_row r2) eqn:Hacc2.
    + rewrite load_customer_row_accepted by done. cbn [fst snd].
      rewrite dict_get_set_ne.
      * apply IH. intros r' Hin. apply Hlater, elem_of_app. by left.
      * apply Hlater; [| done]. apply elem_of_app. right. apply list_elem_of_here.
    + rewrite load_customer_row_rejected by done.
      apply IH. intros r' Hin. apply Hlater, elem_of_app. by left.
Qed.
End LoadFacts.

(* ===================================================================== *)
(** ** The contract loop *)
(* ===================================================================== *)

Section MatchFacts.
Context {F : Type} `{PyFloat F}.
Variable uuid4 : nat -> string.
Variable reformat_date : string -> string -> option string.

Local Abbreviation step := (match_contract_row uuid4 reformat_date).
Local Abbreviation steps := (match_contract_rows uuid4 reformat_date).
Local Abbreviation record := (contract_of_row uuid4 reformat_date).

(** What one iteration does to the state. *)
Lemma match_contract_row_cases (m : name_map) (st st' : match_state) (r : row) :
  step m st r = Some st' →
  (skipped_row r = true ∧ st' = st) ∨
  (skipped_row r = false ∧
   st_contracts st' = st_contracts st ++ [record m (length (st_contracts st)) r] ∧
   ((∃ id c,
       truthy_id (matched_customer_id (record m (length (st_contracts st)) r)) = Some id ∧
       st_customers st !! id = Some c ∧
       st_customers st' =
         <[id := link_contract c (record m (length (st_contracts st)) r)]> (st_customers st)) ∨
    (truthy_id (matched_customer_id (record m (length (st_contracts st)) r)) = None ∧
     st_customers st' = st_customers st))).
Proof.
  unfold match_contract_row, contract_of_row.
  destruct (skipped_row r); [intros [= <-]; by left |].
  intros Hst. right. split; [done |]. cbn [matched_customer_id new_contract].
  destruct (truthy_id _) as [id|] eqn:Hid.
  - destruct (st_customers st !! id) as [c|] eqn:Hc; [| done].
    injection Hst as <-. cbn. split; [done |]. left. eauto.
  - injection Hst as <-. cbn. split; [done |]. by right.
Qed.

(** An iteration cannot fail when the index only holds loaded
    identifiers. *)
Lemma match_contract_row_succeeds (m : name_map) (st : match_state) (r : row) :
  (∀ k v, (k, v) ∈ m → is_Some (st_customers st !! v)) →
  is_Some (step m st r).
Proof.
  intros Hm. unfold match_contract_row.
  destruct (skipped_row r); [eauto |].
  destruct (match_customer m _) as [id|] eqn:Hmatch; cbn; [| eauto].
  destruct (str_empty id); [eauto |].
  apply match_customer_In in Hmatch as [s Hin].
  destruct (Hm _ _ Hin) as [c ->]. eauto.
Qed.

Lemma match_contract_row_keys (m : name_map) (st st' : match_state) (r : row) (id : string) :
  step m st r = Some st' →
  is_Some (st_customers st' !! id) ↔ is_Some (st_customers st !! id).
Proof.
  intros [[_ ->] | (_ & _ & [(cid & c & _ & Hc & ->) | [_ ->]])]%match_contract_row_cases;
    [done | | done].
  rewrite lookup_insert_is_Some'. split; [| by right].
  intros [<- | ?]; [by rewrite Hc | done].
Qed.

(** The contract list only depends on the rows and the index. *)
Lemma match_contract_rows_contracts (m : name_map) (rows : list row) (st st' : match_state) :
  steps m st rows = Some st' →
  ∀ k, k ∈ st_contracts st' →
    k ∈ st_contracts st ∨
    ∃ n r, r ∈ rows ∧ skipped_row r = false ∧ k = record m n r.
Proof.
  revert st. induction rows as [|r rows IH]; intros st; cbn.
  - intros [= <-] k Hk. by left.
  - destruct (step m st r) as [st1|] eqn:Hstep; [| done].
    intros Hrest k Hk. destruct (IH _ Hrest k Hk) as [Hin | (n & r' & Hr' & Hsk & ->)].
    + apply match_contract_row_cases in Hstep as [[_ ->] | (Hsk & Hks & _)]; [by left |].
      rewrite Hks in Hin. apply elem_of_app in Hin as [? | ->%list_elem_of_singleton];
        [by left |].
      right. eexists _, r. split_and!; [apply list_elem_of_here | done | done].
    + right. exists n, r'. split_and!; [by apply list_elem_of_further | done | done].
Qed.

(** The loop appends one record per row that is not skipped, numbered
    on from the records already there. *)
Lemma match_contract_rows_records (m : name_map) (rows : list row) (st st' : match_state) :
  steps m st rows = Some st' →
  st_contracts st' =
    st_contracts st ++
    imap (fun i r => record m (length (st_contracts st) + i) r)
         (filter (fun r => skipped_row r = false) rows).
Proof.
  revert st. induction rows as [|r rows IH]; intros st; cbn [match_contract_rows].
  - intros [= <-]. by rewrite app_nil_r.
  - destruct (step m st r) as [st1|] eqn:Hstep; [| done].
    intros Hrest. rewrite (IH _ Hrest). rewrite filter_cons.
    apply match_contract_row_cases in Hstep as [[Hsk ->] | (Hsk & Hks & _)].
    + rewrite decide_False by congruence. done.
    + rewrite decide_True by done. rewrite Hks, <- app_assoc. f_equal.
      rewrite imap_cons. cbn [app]. rewrite Nat.add_0_r. f_equal.
      apply imap_ext. intros i x _. cbn. rewrite length_app. cbn.
      f_equal. lia.
Qed.

Lemma match_contract_rows_succeeds (m : name_map) (rows : list row) (st : match_state) :
  (∀ k v, (k, v) ∈ m → is_Some (st_customers st !! v)) →
  is_Some (steps m st rows).
Proof.
  revert st. induction rows as [|r rows IH]; intros st Hm; cbn; [eauto |].
  destruct (match_contract_row_succeeds m st r Hm) as [st1 Hstep]. rewrite Hstep.
  apply IH. intros k v Hin.
  apply (match_contract_row_keys m st st1 r v Hstep). eauto.
Qed.

Lemma match_contract_rows_keys (m : name_map) (rows : list row) (st st' : match_state)
    (id : string) :
  steps m st rows = Some st' →
  is_Some (st_customers st' !! id) ↔ is_Some (st_customers st !! id).
Proof.
  revert st. induction rows as [|r rows IH]; intros st; cbn.
  - by intros [= <-].
  - destruct (step m st r) as [st1|] eqn:Hstep; [| done].
    intros Hrest. rewrite (IH _ Hrest). by apply (match_contract_row_keys m st st1 r).
Qed.
End MatchFacts.

(* ===================================================================== *)
(** ** Aggregates *)
(* ===================================================================== *)

Section AggregateFacts.
Context {F : Type} `{PyFloat F}.
Variable uuid4 : nat -> string.
Variable reformat_date : string -> string -> option string.

Lemma sum_active_snoc (ks : list (contract F)) (k : contract F) :
  sum_active (ks ++ [k]) =
    if bool_decide (contract_status k = "active"%string)
    then float_add (sum_active ks) (contract_value k)
    else sum_active ks.
Proof.
  unfold sum_active. rewrite filter_app, filter_cons, filter_nil.
  case_bool_decide as Hact.
  - rewrite decide_True by done. by rewrite fold_left_app.
  - rewrite decide_False by done. by rewrite app_nil_r.
Qed.

Lemma linked_to_snoc (id : string) (ks : list (contract F)) (k : contract F) :
  linked_to id (ks ++ [k]) =
    if bool_decide (truthy_id (matched_customer_id k) = Some id)
    then linked_to id ks ++ [k]
    else linked_to id ks.
Proof.
  unfold linked_to. rewrite filter_app, filter_cons, filter_nil.
  case_bool_decide as Hid.
  - by rewrite decide_True.
  - rewrite decide_False by done. by rewrite app_nil_r.
Qed.

Lemma link_contract_total (c : customer F) (k : contract F) :
  total_contract_value c = sum_active (contracts c) →
  total_contract_value (link_contract c k) = sum_active (contracts (link_contract c k)).
Proof.
  intros Htot. cbn [link_contract contracts total_contract_value].
  by rewrite sum_active_snoc, Htot.
Qed.

Lemma match_contract_row_aggregates (m : name_map) (st st' : match_state) (r : row) :
  match_contract_row uuid4 reformat_date m st r = Some st' →
  aggregates_consistent st → aggregates_consistent st'.
Proof.
  intros [[_ ->] | (_ & Hks & [(cid & c & Hid & Hc & Hcs) | [Hid Hcs]])]%match_contract_row_cases
    Hinv; [done | |].
  - intros id c'. rewrite Hcs, Hks, linked_to_snoc, lookup_insert.
    destruct (Hinv _ _ Hc) as [Hlinked Htot]. case_decide as Heq.
    + subst id. intros [= <-]. rewrite bool_decide_eq_true_2 by done.
      split; [cbn [link_contract contracts]; by rewrite Hlinked | by apply link_contract_total].
    + intros Hc'. rewrite bool_decide_eq_false_2 by congruence. by apply Hinv.
  - intros id c'. rewrite Hcs, Hks, linked_to_snoc.
    rewrite bool_decide_eq_false_2 by congruence. apply Hinv.
Qed.

Lemma match_contract_rows_aggregates (m : name_map) (rows : list row) (st st' : match_state) :
  match_contract_rows uuid4 reformat_date m st rows = Some st' →
  aggregates_consistent st → aggregates_consistent st'.
Proof.
  revert st. induction rows as [|r rows IH]; intros st; cbn.
  - by intros [= <-].
  - destruct (match_contract_row _ _ m st r) as [st1|] eqn:Hstep; [| done].
    intros Hrest Hinv. apply (IH _ Hrest).
    by apply (match_contract_row_aggregates m st st1 r).
Qed.

(** * The claims about the matcher and the aggregates *)

(** C2.  After a full run, the [total_contract_value] of every customer
    is the sum of [contract_value] over the active contracts of its
    linked collection, and that collection holds exactly the contracts
    whose back-reference is this customer: contracts left unmatched are
    in no collection, and expired ones are not summed. *)
Theorem total_is_sum_of_active_linked_contracts
    (customer_rows contract_rows : list row)
    (customers : customers_of F) (ks : list (contract F)) :
  run uuid4 reformat_date customer_rows contract_rows = Some (customers, ks) →
  ∀ id c, customers !! id = Some c →
    total_contract_value c = sum_active (contracts c) ∧
    contracts c = linked_to id ks.
Proof.
  unfold run, load_and_match_contracts.
  destruct (load_customers customer_rows) as [cs0 m] eqn:Hload.
  destruct (match_contract_rows _ _ m _ contract_rows) as [st|] eqn:Hrows; [| done].
  intros [= <- <-] id c. rewrite lookup_fmap.
  destruct (st_customers st !! id) as [c0|] eqn:Hc0; [| done].
  intros [= <-]. cbn [retier contracts total_contract_value].
  apply match_contract_rows_aggregates in Hrows.
  - destruct (Hrows _ _ Hc0) as [Hlinked Htot]. done.
  - intros id' c' Hc'. cbn in Hc'.
    assert (Hfresh := loaded_customers_fresh customer_rows id' c').
    rewrite Hload in Hfresh. destruct (Hfresh Hc') as [-> ->]. done.
Qed.

(** C9.  A run on the loaded customers never fails on a missing key, and
    every back-reference that is set names a key of the customer set
    loaded in that run (which is also a key of the final customer set). *)
Theorem back_reference_is_loaded_customer (customer_rows contract_rows : list row) :
  ∃ customers ks,
    run uuid4 reformat_date customer_rows contract_rows = Some (customers, ks) ∧
    ∀ k id, k ∈ ks → matched_customer_id k = Some id →
      is_Some ((load_customers (F:=F) customer_rows).1 !! id) ∧
      is_Some (customers !! id).
Proof.
  unfold run, load_and_match_contracts.
  destruct (load_customers customer_rows) as [cs0 m] eqn:Hload.
  assert (Hm : ∀ k v, (k, v) ∈ m → is_Some (cs0 !! v)).
  { intros k v Hin. assert (Hv := index_values_loaded (F:=F) customer_rows k v).
    rewrite Hload in Hv. auto. }
  destruct (match_contract_rows_succeeds uuid4 reformat_date m contract_rows
              {| st_customers := cs0; st_contracts := [];
                 st_unmatched := []; st_matched_count := 0 |} Hm) as [st Hst].
  rewrite Hst. eexists _, _. split; [done |].
  intros k id Hk Hid.
  destruct (match_contract_rows_contracts _ _ _ _ _ _ Hst k Hk)
    as [Hin | (n & r & _ & _ & ->)]; [by apply not_elem_of_nil in Hin |].
  cbn in Hid. apply match_customer_In in Hid as [s Hin].
  split; [by eapply Hm |].
  rewrite lookup_fmap, fmap_is_Some.
  apply (match_contract_rows_keys _ _ _ _ _ _ id Hst). by eapply Hm.
Qed.

(** C10.  The [i]-th contract a run returns is the record built from the
    [i]-th row that is not skipped; its [contract_status] is 'active' or
    'expired', and it is 'active' exactly when the trimmed, lower-cased
    [Status] field of that very row is 'active' (a missing field reads
    as the empty string), so that every other status is 'expired'. *)
Theorem contract_status_active_or_expired
    (customers customers' : customers_of F) (m : name_map)
    (rows : list row) (ks : list (contract F)) :
  load_and_match_contracts uuid4 reformat_date customers m rows = Some (customers', ks) →
  length ks = length (filter (fun r => skipped_row r = false) rows) ∧
  ∀ i k, ks !! i = Some k →
    ∃ r, filter (fun r => skipped_row r = false) rows !! i = Some r ∧
      k = contract_of_row uuid4 reformat_date m i r ∧
      (contract_status k = "active"%string ∨ contract_status k = "expired"%string) ∧
      (contract_status k = "active"%string ↔
       str_lower (str_strip (row_get r "Status" "")) = "active"%string) ∧
      (contract_status k = "expired"%string ↔
       str_lower (str_strip (row_get r "Status" "")) ≠ "active"%string).
Proof.
  unfold load_and_match_contracts.
  destruct (match_contract_rows _ _ m _ rows) as [st|] eqn:Hrows; [| done].
  intros [= <- <-].
  apply match_contract_rows_records in Hrows. cbn [st_contracts app length] in Hrows.
  rewrite Hrows. split; [by rewrite length_imap |].
  intros i k. rewrite list_lookup_imap.
  destruct (filter _ rows !! i) as [r|]; [| done]. cbn [fmap option_fmap option_map].
  intros [= <-]. exists r. split_and!; [done | done | | |];
    cbn; case_bool_decide; intuition congruence.
Qed.
End AggregateFacts.

(** C3.  When the normalized customer name of a contract is a key of the
    index, [matched_customer_id] is the value stored under that key,
    whatever the fuzzy scan over the same index would have returned; the
    record built for such a row carries that identifier. *)
Theorem exact_match_precedes_heuristics {F : Type} `{PyFloat F}
    (uuid4 : nat -> string) (reformat_date : string -> string -> option string)
    (customer_name_map : name_map) (customer_name cust_id : string) :
  dict_get (clean_company_name customer_name) customer_name_map = Some cust_id →
  match_customer customer_name_map customer_name = Some cust_id ∧
  ∀ (n : nat) (r : row),
    str_strip (row_get r "Customer" "") = customer_name →
    matched_customer_id (contract_of_row (F:=F) uuid4 reformat_date customer_name_map n r)
      = Some cust_id.
Proof.
  intros Hget.
  assert (Hmatch : match_customer customer_name_map customer_name = Some cust_id).
  { unfold match_customer. by rewrite Hget. }
  split; [done |].
  intros n r Hname. unfold contract_of_row.
  cbn [matched_customer_id new_contract]. by rewrite Hname.
Qed.

(** An indexed name for which the scan would have picked another
    customer: the exact entry still wins. *)
Lemma exact_match_precedes_heuristics_witness :
  dict_get (clean_company_name "Acme Holdings")
           (load_customers (F:=DecFloat.t) ex_customer_rows).2 = Some "C4"%string ∧
  fuzzy_scan (clean_company_name "Acme Holdings")
             (load_customers (F:=DecFloat.t) ex_customer_rows).2 = Some "C3"%string ∧
  match_customer (load_customers (F:=DecFloat.t) ex_customer_rows).2 "Acme Holdings"
    = Some "C4"%string.
Proof.
  split; [vm_compute; reflexivity |].
  split; [vm_compute; reflexivity |].
  refine (proj1 (exact_match_precedes_heuristics (F:=DecFloat.t) ex_uuid4 ex_reformat_date
                  (load_customers (F:=DecFloat.t) ex_customer_rows).2
                  "Acme Holdings" "C4" _)).
  vm_compute. reflexivity.
Defined.

(** C5.  The containment test of the fuzzy scan succeeds exactly when both
    normalized names are longer than 10 characters and one occurs in the
    other, so it never succeeds on two names of at most 10 characters;
    and a candidate returned by the scan passed either this test or the
    suffix-stripped comparison. *)
Theorem containment_only_above_ten_characters :
  (∀ cleaned stored : string,
     containment_match cleaned stored = true ↔
     10 < str_len cleaned ∧ 10 < str_len stored ∧
     (substring_of cleaned stored ∨ substring_of stored cleaned)) ∧
  (∀ cleaned stored : string,
     str_len cleaned ≤ 10 ∧ str_len stored ≤ 10 →
     containment_match cleaned stored = false) ∧
  (∀ (cleaned : string) (items : name_map) (id : string),
     fuzzy_scan cleaned items = Some id →
     ∃ stored, (stored, id) ∈ items ∧
       ((10 < str_len cleaned ∧ 10 < str_len stored ∧
         (substring_of cleaned stored ∨ substring_of stored cleaned)) ∨
        suffix_match cleaned stored = true)).
Proof.
  split_and!.
  - apply containment_match_spec.
  - intros cleaned stored [Hc Hs].
    destruct (containment_match cleaned stored) eqn:Hm; [| done].
    apply containment_match_spec in Hm. lia.
  - intros cleaned items id (stored & Hin & Hm)%fuzzy_scan_In.
    exists stored. split; [done |].
    destruct Hm as [Hm | Hm]; [left; by apply containment_match_spec | by right].
Qed.

Lemma dict_get_unique (key v : string) (d : name_map) :
  NoDup d.*1 → (key, v) ∈ d → dict_get key d = Some v.
Proof.
  induction d as [|[k w] d IH]; cbn [dict_get].
  - by intros _ ?%not_elem_of_nil.
  - rewrite fmap_cons. cbn [fst]. intros [Hk Hnd]%NoDup_cons.
    intros [[= -> ->] | Hin]%elem_of_cons.
    + by rewrite bool_decide_eq_true_2.
    + rewrite bool_decide_eq_false_2; [auto |].
      intros ->. apply Hk. by apply (list_elem_of_fmap_2 fst) in Hin.
Qed.

(** C6.  The index maps a key to the identifier of the last kept row with
    that normalized name; no other item is stored under the key, and
    every exact lookup of the key gives that last identifier. *)
Theorem index_is_last_write_wins {F : Type} `{PyFloat F}
    (rows1 rows2 : list row) (r : row) :
  accepted_row r = true →
  (∀ r', r' ∈ rows2 → accepted_row r' = true → row_key r' ≠ row_key r) →
  dict_get (row_key r) (load_customers (F:=F) (rows1 ++ r :: rows2)).2
    = Some (row_customer_id r) ∧
  (∀ v, (row_key r, v) ∈ (load_customers (F:=F) (rows1 ++ r :: rows2)).2 →
        v = row_customer_id r) ∧
  (∀ customer_name, clean_company_name customer_name = row_key r →
     match_customer (load_customers (F:=F) (rows1 ++ r :: rows2)).2 customer_name
       = Some (row_customer_id r)).
Proof.
  intros Hacc Hlater.
  assert (Hget := index_last_row (F:=F) rows1 rows2 r Hacc Hlater).
  split_and!; [done | |].
  - intros v Hin. apply dict_get_unique in Hin; [congruence | apply index_NoDup].
  - intros customer_name Hname. unfold match_customer. by rewrite Hname, Hget.
Qed.

(** Two customers with the same normalized name, and a third one after
    them: the index keeps the second. *)
Lemma index_is_last_write_wins_witness :
  dict_get "ACME CORPORATION"%string (load_customers (F:=DecFloat.t) ex_customer_rows).2
    = Some "C2"%string ∧
  match_customer (load_customers (F:=DecFloat.t) ex_customer_rows).2 "Acme Corp"
    = Some "C2"%string.
Proof.
  pose proof (index_is_last_write_wins (F:=DecFloat.t)
    [mkrow [("Customer ID", "C1"); ("Customer", "Acme Corp")]%string]
    [mkrow [("Customer ID", "C3"); ("Customer", "Acme Holdings International")]%string;
     mkrow [("Customer ID", "C4"); ("Customer", "Acme Holdings")]%string]
    (mkrow [("Customer ID", "C2"); ("Customer", "ACME Corporation")]%string)) as Hw.
  destruct Hw as (Hget & _ & Hmatch).
  - vm_compute. reflexivity.
  - intros r' Hin _.
    apply elem_of_cons in Hin as [-> | Hin]; [vm_compute; discriminate |].
    apply list_elem_of_singleton in Hin as ->. vm_compute. discriminate.
  - split; [exact Hget |]. apply Hmatch. vm_compute. reflexivity.
Defined.

(** A run on the example rows: customer C2 receives two active
    contracts. *)
Lemma total_is_sum_of_active_linked_contracts_witness :
  ∃ customers ks c,
    run ex_uuid4 ex_reformat_date ex_customer_rows ex_contract_rows = Some (customers, ks) ∧
    customers !! "C2"%string = Some c ∧
    total_contract_value c = DecFloat.Fin 120500.00 ∧
    total_contract_value c = sum_active (contracts c) ∧
    contracts c = linked_to "C2" ks.
Proof.
  eexists _, _, _.
  split; [vm_compute; reflexivity |].
  split; [vm_compute; reflexivity |].
  split; [vm_compute; reflexivity |].
  eapply (total_is_sum_of_active_linked_contracts ex_uuid4 ex_reformat_date
            ex_customer_rows ex_contract_rows).
  - vm_compute. reflexivity.
  - vm_compute. reflexivity.
Defined.

(** The second contract of the example run has status 'Pending' in its
    row and is recorded as expired. *)
Lemma contract_status_active_or_expired_witness :
  ∃ customers' ks,
    load_and_match_contracts ex_uuid4 ex_reformat_date
      (load_customers (F:=DecFloat.t) ex_customer_rows).1
      (load_customers (F:=DecFloat.t) ex_customer_rows).2
      ex_contract_rows = Some (customers', ks) ∧
    contract_status <$> ks = ["active"; "expired"; "active"; "active"]%string ∧
    (fun r => row_get r "Status" "") <$> filter (fun r => skipped_row r = false) ex_contract_rows
      = ["Active"; "Pending"; " ACTIVE "; "active"]%string ∧
    length ks = length (filter (fun r => skipped_row r = false) ex_contract_rows) ∧
    ∀ i k, ks !! i = Some k →
      ∃ r, filter (fun r => skipped_row r = false) ex_contract_rows !! i = Some r ∧
        k = contract_of_row ex_uuid4 ex_reformat_date
              (load_customers (F:=DecFloat.t) ex_customer_rows).2 i r ∧
        (contract_status k = "active"%string ∨ contract_status k = "expired"%string) ∧
        (contract_status k = "active"%string ↔
         str_lower (str_strip (row_get r "Status" "")) = "active"%string) ∧
        (contract_status k = "expired"%string ↔
         str_lower (str_strip (row_get r "Status" "")) ≠ "active"%string).
Proof.
  eexists _, _.
  split; [vm_compute; reflexivity |].
  split; [vm_compute; reflexivity |].
  split; [vm_compute; reflexivity |].
  eapply (contract_status_active_or_expired ex_uuid4 ex_reformat_date
            (load_customers (F:=DecFloat.t) ex_customer_rows).1 _
            (load_customers (F:=DecFloat.t) ex_customer_rows).2 ex_contract_rows).
  vm_compute. reflexivity.
Defined.

(* ===================================================================== *)
(** ** The regex engine *)
(* ===================================================================== *)

Lemma star_none_inv {R : Type} (cs : list ascii) (prev : option ascii) (s : list ascii)
    (k : option ascii -> list ascii -> option R) (res : R) :
  star_none cs prev s k = Some res →
  ∃ p t pre, k p t = Some res ∧ s = pre ++ t.
Proof.
  revert prev. induction s as [|x t IH]; intros prev; cbn.
  - intros Hk. by exists prev, [], [].
  - destruct (mem x cs).
    + intros Hk. by exists prev, (x :: t), [].
    + destruct (star_none cs (Some x) t k) as [res'|] eqn:Hs.
      * intros [= ->]. destruct (IH _ Hs) as (p & t' & pre & Hk & ->).
        by exists p, t', (x :: pre).
      * intros Hk. by exists prev, (x :: t), [].
Qed.

(** A successful match hands a suffix of the subject to its
    continuation. *)
Lemma rmatch_inv {R : Type} (r : regex) (prev : option ascii) (s : list ascii)
    (k : option ascii -> list ascii -> option R) (res : R) :
  rmatch r prev s k = Some res →
  ∃ p t pre, k p t = Some res ∧ s = pre ++ t.
Proof.
  revert prev s k res.
  induction r as [|c|cs|cs| |r IH|r1 IH1 r2 IH2|r1 IH1 r2 IH2]; intros prev s k res; cbn.
  - intros Hk. by exists prev, s, [].
  - destruct s as [|x t]; [done |]. destruct (Ascii.eqb x c); [| done].
    intros Hk. by exists (Some x), t, [x].
  - destruct s as [|x t]; [done |]. destruct (mem x cs); [| done].
    intros Hk. by exists (Some x), t, [x].
  - apply star_none_inv.
  - destruct (at_boundary prev s); [| done]. intros Hk. by exists prev, s, [].
  - destruct (rmatch r prev s k) as [res'|] eqn:Hr.
    + intros [= ->]. eauto.
    + intros Hk. by exists prev, s, [].
  - destruct (rmatch r1 prev s k) as [res'|] eqn:Hr.
    + intros [= ->]. eauto.
    + eauto.
  - intros Hr. apply IH1 in Hr as (p & t & pre & Hk & ->).
    apply IH2 in Hk as (p' & t' & pre' & Hk' & ->).
    exists p', t', (pre ++ pre'). by rewrite <- app_assoc.
Qed.

Lemma match_here_suffix (r : regex) (prev p : option ascii) (s rest : list ascii) :
  match_here r prev s = Some (p, rest) → ∃ pre, s = pre ++ rest.
Proof.
  intros (p' & t & pre & [= <- <-] & ->)%rmatch_inv. eauto.
Qed.

(** Fuel beyond the length of the subject changes nothing. *)
Lemma sub_from_enough (r : regex) (repl : list ascii) (n m : nat)
    (prev : option ascii) (s : list ascii) :
  length s ≤ n → length s ≤ m →
  sub_from n r repl prev s = sub_from m r repl prev s.
Proof.
  revert m prev s. induction n as [|n IH]; intros m prev s Hn Hm.
  - destruct s; [| simpl in Hn; lia]. by destruct m.
  - destruct m as [|m]; [destruct s; [done | simpl in Hm; lia] |].
    cbn [sub_from]. destruct s as [|c t]; [done |]. simpl in Hn, Hm.
    destruct (match_here r prev (c :: t)) as [[p rest]|]; [| f_equal; apply IH; lia].
    destruct (length rest <? length (c :: t)) eqn:Hlt; [| f_equal; apply IH; lia].
    apply Nat.ltb_lt in Hlt. simpl in Hlt. f_equal. apply IH; lia.
Qed.

Lemma sub_at_nil (r : regex) (repl : list ascii) (prev : option ascii) :
  sub_at r repl prev [] = [].
Proof. done. Qed.

(** The scan, one position at a time. *)
Lemma sub_at_cons (r : regex) (repl : list ascii) (prev : option ascii)
    (c : ascii) (t : list ascii) :
  sub_at r repl prev (c :: t) =
    match match_here r prev (c :: t) with
    | Some (p, rest) =>
        if length rest <? length (c :: t)
        then repl ++ sub_at r repl p rest
        else c :: sub_at r repl (Some c) t
    | None => c :: sub_at r repl (Some c) t
    end.
Proof.
  unfold sub_at. cbn [length sub_from].
  destruct (match_here r prev (c :: t)) as [[p rest]|]; [| done].
  destruct (length rest <? S (length t)) eqn:Hlt; [| done].
  apply Nat.ltb_lt in Hlt. f_equal.
  apply sub_from_enough; lia.
Qed.

(** Removing a character class. *)
Lemma sub_at_one_of (cs : list ascii) (prev : option ascii) (s : list ascii) :
  sub_at (OneOf cs) [] prev s = filter (fun c => mem c cs = false) s.
Proof.
  revert prev. induction s as [|c t IH]; intros prev; [done |].
  rewrite sub_at_cons, filter_cons. unfold match_here. cbn [rmatch].
  destruct (mem c cs) eqn:Hmem.
  - rewrite decide_False by done.
    replace (length t <? length (c :: t)) with true
      by (symmetry; apply Nat.ltb_lt; simpl; lia).
    by rewrite IH.
  - rewrite decide_True by done. by rewrite IH.
Qed.

(* ===================================================================== *)
(** ** Monetary values *)
(* ===================================================================== *)

Lemma remove_currency_filter (s : list ascii) :
  re_sub re_currency [] s = filter (fun c => c ≠ "$"%char ∧ c ≠ ","%char) s.
Proof.
  unfold re_sub, re_currency. rewrite sub_at_one_of.
  apply list_filter_iff. intros c. cbn.
  destruct (Ascii.eqb_spec c "$"), (Ascii.eqb_spec c ","); cbn; intuition congruence.
Qed.

Module DecFloatFacts.
Import DecFloat.

Lemma lstrip_c_subset (c : ascii) (s : list ascii) : c ∈ lstrip_c s → c ∈ s.
Proof.
  induction s as [|x t IH]; cbn; [done |].
  destruct (is_c_space x); [| done]. intros Hin. apply list_elem_of_further. auto.
Qed.

Lemma strip_c_subset (c : ascii) (s : list ascii) : c ∈ strip_c s → c ∈ s.
Proof.
  unfold strip_c. rewrite list_elem_of_In, <- in_rev, <- list_elem_of_In.
  intros Hin%lstrip_c_subset.
  rewrite list_elem_of_In, <- in_rev, <- list_elem_of_In in Hin.
  by apply lstrip_c_subset.
Qed.

Lemma sign_minus (s body : list ascii) : sign s = (true, body) → "-"%char ∈ s.
Proof.
  destruct s as [|c t]; cbn; [done |].
  destruct (Ascii.eqb_spec c "-") as [-> | _].
  - intros _. apply list_elem_of_here.
  - by destruct (Ascii.eqb c "+").
Qed.

Lemma digit_val_nonneg (c : ascii) : (0 ≤ digit_val c)%Z.
Proof. unfold digit_val. lia. Qed.

Lemma digits_from_nonneg (s : list ascii) :
  ∀ (n : Z) (len : nat), (0 ≤ n)%Z → (0 ≤ (digits_from s n len).1.1)%Z.
Proof.
  induction s as [s IH] using (induction_ltof1 _ (@length ascii)). unfold ltof in IH.
  intros n len Hn. destruct s as [|c t]; cbn [digits_from]; [done |].
  pose proof (digit_val_nonneg c).
  destruct (is_digit c); [apply IH; [simpl; lia | lia] |].
  destruct (Ascii.eqb c "_"); [| done].
  destruct t as [|d t']; [done |].
  pose proof (digit_val_nonneg d).
  destruct (is_digit d); [apply IH; [simpl; lia | lia] | done].
Qed.

Lemma digitpart_nonneg (s rest : list ascii) (n m : Z) (len : nat) :
  (0 ≤ n)%Z → digitpart s n = Some (m, len, rest) → (0 ≤ m)%Z.
Proof.
  intros Hn. destruct s as [|c t]; cbn; [done |].
  destruct (is_digit c); [| done]. intros [= Hd].
  pose proof (digit_val_nonneg c).
  pose proof (digits_from_nonneg t (10 * n + digit_val c) 1 ltac:(lia)) as Hm.
  by rewrite Hd in Hm.
Qed.

Lemma number_nonneg (s rest : list ascii) (m : Z) (flen : nat) :
  number s = Some (m, flen, rest) → (0 ≤ m)%Z.
Proof.
  unfold number. destruct (digitpart s 0) as [[[ip l] r]|] eqn:Hip.
  - apply digitpart_nonneg in Hip; [| done].
    destruct r as [|c r']; [by intros [= <- _ _] |].
    destruct (Ascii.eqb c "."); [| by intros [= <- _ _]].
    destruct (digitpart r' ip) as [[[m' l'] r'']|] eqn:Hfp; [| by intros [= <- _ _]].
    intros [= <- _ _]. by eapply digitpart_nonneg.
  - destruct s as [|c r']; [done |].
    destruct (Ascii.eqb c "."); [| done]. by apply digitpart_nonneg.
Qed.

Lemma dec_to_Q_nonneg (m e : Z) : (0 ≤ m)%Z → nonneg (Fin (dec_to_Q m e)) = true.
Proof.
  intros Hm. unfold nonneg, ge_int, Qle_bool, dec_to_Q.
  destruct (0 <=? e)%Z eqn:He; cbn; apply Z.leb_le.
  - apply Z.leb_le in He. pose proof (Z.pow_nonneg 10 e). nia.
  - lia.
Qed.

Lemma absfloat_nonneg (s : list ascii) (v : t) :
  absfloat s = Some v → v = NaN ∨ nonneg v = true.
Proof.
  unfold absfloat.
  destruct (list_eqb (lower s) (chars "inf") || list_eqb (lower s) (chars "infinity"));
    [intros [= <-]; by right |].
  destruct (list_eqb (lower s) (chars "nan")); [intros [= <-]; by left |].
  destruct (number s) as [[[m flen] rest]|] eqn:Hnum; [| done].
  destruct (exponent rest) as [e rest']. destruct rest'; [| done].
  intros [= <-]. right. apply dec_to_Q_nonneg. by eapply number_nonneg.
Qed.

Lemma of_str_nonneg (s : list ascii) (v : t) :
  "-"%char ∉ s → of_str s = Some v → v = NaN ∨ nonneg v = true.
Proof.
  intros Hminus. unfold of_str.
  destruct (sign (strip_c s)) as [neg body] eqn:Hsign.
  destruct (absfloat body) as [v'|] eqn:Habs; [| done]. intros [= <-].
  destruct neg; [| by eapply absfloat_nonneg].
  apply sign_minus, strip_c_subset in Hsign. done.
Qed.

End DecFloatFacts.

Module NumeralFacts.
Import DecFloat.

Local Abbreviation nc := (fun c => numeral_char c = true).

Lemma digit_numeral (c : ascii) : is_digit c = true → numeral_char c = true.
Proof. unfold numeral_char. by intros ->. Qed.

Lemma mark_numeral (c : ascii) : mem c (chars ".+-eE_") = true → numeral_char c = true.
Proof. unfold numeral_char. intros ->. by rewrite orb_true_r. Qed.

Lemma eqb_numeral (c d : ascii) :
  Ascii.eqb c d = true → mem d (chars ".+-eE_") = true → numeral_char c = true.
Proof. intros ->%Ascii.eqb_eq. apply mark_numeral. Qed.

(** What [digits_from] reads is written with numeral characters. *)
Lemma digits_from_consumed (s : list ascii) :
  ∀ (n : Z) (len : nat),
    ∃ pre, s = pre ++ (digits_from s n len).2 ∧ Forall nc pre.
Proof.
  induction s as [s IH] using (induction_ltof1 _ (@length ascii)). unfold ltof in IH.
  intros n len. destruct s as [|c t]; cbn [digits_from]; [by exists [] |].
  destruct (is_digit c) eqn:Hc.
  - destruct (IH t ltac:(simpl; lia) (10 * n + digit_val c)%Z (S len)) as (pre & Heq & Hpre).
    exists (c :: pre). split; [cbn [app]; by rewrite <- Heq |].
    constructor; [by apply digit_numeral | done].
  - destruct (Ascii.eqb c "_") eqn:Hu; [| by exists []].
    destruct t as [|d t']; [by exists [] |].
    destruct (is_digit d) eqn:Hd; [| by exists []].
    destruct (IH t' ltac:(simpl; lia) (10 * n + digit_val d)%Z (S len)) as (pre & Heq & Hpre).
    exists (c :: d :: pre). split; [cbn [app]; by rewrite <- Heq |].
    constructor; [by apply (eqb_numeral c "_") |].
    constructor; [by apply digit_numeral | done].
Qed.

Lemma digitpart_consumed (s rest : list ascii) (n m : Z) (len : nat) :
  digitpart s n = Some (m, len, rest) → ∃ pre, s = pre ++ rest ∧ Forall nc pre.
Proof.
  destruct s as [|c t]; cbn [digitpart]; [done |].
  destruct (is_digit c) eqn:Hc; [| done]. intros [= Hd].
  destruct (digits_from_consumed t (10 * n + digit_val c)%Z 1) as (pre & Heq & Hpre).
  rewrite Hd in Heq. cbn [snd] in Heq.
  exists (c :: pre). split; [cbn [app]; by rewrite <- Heq |].
  constructor; [by apply digit_numeral | done].
Qed.

Lemma number_consumed (s rest : list ascii) (m : Z) (flen : nat) :
  number s = Some (m, flen, rest) → ∃ pre, s = pre ++ rest ∧ Forall nc pre.
Proof.
  unfold number. destruct (digitpart s 0) as [[[ip l] r]|] eqn:Hip.
  - apply digitpart_consumed in Hip as (pre & -> & Hpre).
    destruct r as [|c r']; [intros [= _ _ <-]; by exists pre |].
    destruct (Ascii.eqb c ".") eqn:Hc; [| intros [= _ _ <-]; by exists pre].
    assert (Hdot : numeral_char c = true) by by apply (eqb_numeral c ".").
    destruct (digitpart r' ip) as [[[m' l'] r'']|] eqn:Hfp.
    + intros [= _ _ <-]. apply digitpart_consumed in Hfp as (pre2 & -> & Hpre2).
      exists (pre ++ c :: pre2). split; [by rewrite <- app_assoc |].
      apply Forall_app. split; [done |]. by constructor.
    + intros [= _ _ <-]. exists (pre ++ [c]). split; [by rewrite <- app_assoc |].
      apply Forall_app. split; [done |]. by repeat constructor.
  - destruct s as [|c r']; [done |].
    destruct (Ascii.eqb c ".") eqn:Hc; [| done].
    intros (pre & -> & Hpre)%digitpart_consumed.
    exists (c :: pre). split; [done |].
    constructor; [by apply (eqb_numeral c ".") | done].
Qed.

Lemma sign_consumed (s : list ascii) :
  ∃ pre, s = pre ++ (sign s).2 ∧ Forall nc pre.
Proof.
  destruct s as [|c t]; cbn [sign]; [by exists [] |].
  destruct (Ascii.eqb c "-") eqn:Hm.
  - exists [c]. split; [done |]. repeat constructor. by apply (eqb_numeral c "-").
  - destruct (Ascii.eqb c "+") eqn:Hp; [| by exists []].
    exists [c]. split; [done |]. repeat constructor. by apply (eqb_numeral c "+").
Qed.

Lemma exponent_consumed (s : list ascii) :
  ∃ pre, s = pre ++ (exponent s).2 ∧ Forall nc pre.
Proof.
  destruct s as [|c t]; cbn [exponent]; [by exists [] |].
  destruct (Ascii.eqb c "e" || Ascii.eqb c "E") eqn:He; [| by exists []].
  assert (Hc : numeral_char c = true).
  { apply orb_true_iff in He as [He | He];
      [by apply (eqb_numeral c "e") | by apply (eqb_numeral c "E")]. }
  destruct (sign_consumed t) as (pre1 & Heq1 & Hpre1).
  destruct (sign t) as [neg t'] eqn:Hs. cbn [snd] in Heq1.
  destruct (digitpart t' 0) as [[[e l] rest]|] eqn:Hd; [| by exists []].
  apply digitpart_consumed in Hd as (pre2 & -> & Hpre2). cbn [snd].
  exists (c :: pre1 ++ pre2). split; [cbn [app]; by rewrite Heq1, <- app_assoc |].
  constructor; [done |]. by apply Forall_app.
Qed.

(** A text [absfloat] reads as a number is written with numeral
    characters only. *)
Lemma absfloat_numeral (s : list ascii) (v : t) :
  list_eqb (lower s) (chars "inf") || list_eqb (lower s) (chars "infinity")
    || list_eqb (lower s) (chars "nan") = false →
  absfloat s = Some v → (∃ q, v = Fin q) ∧ Forall nc s.
Proof.
  intros [Hinf Hnan]%orb_false_iff. unfold absfloat. rewrite Hinf, Hnan.
  destruct (number s) as [[[m flen] rest]|] eqn:Hnum; [| done].
  apply number_consumed in Hnum as (pre & -> & Hpre).
  destruct (exponent_consumed rest) as (pre2 & Heq & Hpre2).
  destruct (exponent rest) as [e rest']. cbn [snd] in Heq.
  destruct rest'; [| done]. intros [= <-]. split; [by eexists |].
  rewrite Heq, app_nil_r. by apply Forall_app.
Qed.

Lemma absfloat_special (s : list ascii) :
  list_eqb (lower s) (chars "inf") || list_eqb (lower s) (chars "infinity")
    || list_eqb (lower s) (chars "nan") = true →
  absfloat s = Some (Inf false) ∨ absfloat s = Some NaN.
Proof.
  unfold absfloat. intros [Hinf | Hnan]%orb_true_iff.
  - rewrite Hinf. by left.
  - rewrite Hnan. destruct (_ || _); [by left | by right].
Qed.

Lemma lstrip_c_keeps (c : ascii) (s : list ascii) :
  c ∈ s → is_c_space c = false → c ∈ lstrip_c s.
Proof.
  intros Hin Hc. induction s as [|x t IH]; [done |]. cbn [lstrip_c].
  destruct (is_c_space x) eqn:Hx; [| done].
  apply elem_of_cons in Hin as [-> | Hin]; [congruence | auto].
Qed.

Lemma strip_c_keeps (c : ascii) (s : list ascii) :
  c ∈ s → is_c_space c = false → c ∈ strip_c s.
Proof.
  intros Hin Hc. unfold strip_c.
  rewrite list_elem_of_In, <- in_rev, <- list_elem_of_In.
  apply lstrip_c_keeps; [| done].
  rewrite list_elem_of_In, <- in_rev, <- list_elem_of_In.
  by apply lstrip_c_keeps.
Qed.

(** The value of a text that does not spell a special value. *)
Lemma of_str_plain (s : list ascii) :
  list_eqb (lower (sign (strip_c s)).2) (chars "inf")
    || list_eqb (lower (sign (strip_c s)).2) (chars "infinity")
    || list_eqb (lower (sign (strip_c s)).2) (chars "nan") = false →
  of_str s = None ∨
  ∃ q, of_str s = Some (Fin q) ∧ ∀ c, c ∈ s → numeral_char c = true.
Proof.
  intros Hplain. unfold of_str.
  destruct (sign_consumed (strip_c s)) as (pre & Heq & Hpre).
  destruct (sign (strip_c s)) as [neg body] eqn:Hsign. cbn [snd] in *.
  destruct (absfloat body) as [v|] eqn:Habs; [| by left]. right.
  destruct (absfloat_numeral body v Hplain Habs) as [[q ->] Hbody].
  exists (if neg then (- q)%Q else q). split; [by destruct neg |].
  intros c Hc. destruct (is_c_space c) eqn:Hsp.
  - unfold numeral_char. rewrite Hsp. by rewrite orb_true_r.
  - apply strip_c_keeps in Hc; [| done]. rewrite Heq in Hc.
    apply elem_of_app in Hc as [Hc | Hc].
    + rewrite Forall_forall in Hpre. by apply Hpre.
    + rewrite Forall_forall in Hbody. by apply Hbody.
Qed.

Lemma of_str_special (s : list ascii) :
  list_eqb (lower (sign (strip_c s)).2) (chars "inf")
    || list_eqb (lower (sign (strip_c s)).2) (chars "infinity")
    || list_eqb (lower (sign (strip_c s)).2) (chars "nan") = true →
  ∃ v, of_str s = Some v ∧ ∀ q, v ≠ Fin q.
Proof.
  intros Hsp. unfold of_str.
  destruct (sign (strip_c s)) as [neg body]. cbn [snd] in Hsp.
  destruct (absfloat_special body Hsp) as [-> | ->]; eexists; (split; [done |]);
    intros q; by destruct neg.
Qed.

End NumeralFacts.




(** C4, as the code has it.  [parse_contract_value] does not reject a
    sign: a value string without a minus sign that does not read as NaN
    gives a number that is at least zero (malformed and empty text give
    0.0). *)
Theorem parse_contract_value_nonneg_without_minus (value_str : string) :
  "-"%char ∉ chars value_str →
  parse_contract_value value_str ≠ DecFloat.NaN →
  DecFloat.nonneg (parse_contract_value value_str) = true.
Proof.
  intros Hminus. unfold parse_contract_value.
  destruct (chars value_str) as [|c t] eqn:Hs; [done |].
  rewrite remove_currency_filter.
  destruct (float_of_str _) as [v|] eqn:Hv; [| done].
  intros Hnan. apply DecFloatFacts.of_str_nonneg in Hv as [-> | Hv]; [done | done |].
  rewrite list_elem_of_filter. tauto.
Qed.

Lemma parse_contract_value_nonneg_without_minus_witness :
  ("-"%char ∉ chars "$1,234.50") ∧
  parse_contract_value "$1,234.50" ≠ DecFloat.NaN ∧
  DecFloat.nonneg (parse_contract_value "$1,234.50") = true.
Proof.
  assert (Hminus : "-"%char ∉ chars "$1,234.50").
  { rewrite list_elem_of_In. vm_compute. intuition discriminate. }
  assert (Hnan : parse_contract_value "$1,234.50" ≠ DecFloat.NaN).
  { vm_compute. discriminate. }
  split_and!; [done | done |].
  exact (parse_contract_value_nonneg_without_minus "$1,234.50" Hminus Hnan).
Defined.

(** C4, as the claim states it, fails: the value string "-5" gives -5. *)
Lemma parse_contract_value_can_be_negative :
  ¬ (∀ value_str : string, DecFloat.nonneg (parse_contract_value value_str) = true).
Proof.
  intros Hall. specialize (Hall "-5"%string). vm_compute in Hall. discriminate.
Qed.


(* ===================================================================== *)
(** ** Words and word boundaries *)
(* ===================================================================== *)

Lemma dot_not_word : is_word "." = false.
Proof. reflexivity. Qed.

Lemma space_not_word (c : ascii) : is_space c = true → is_word c = false.
Proof. destruct c as [[] [] [] [] [] [] [] []]; vm_compute; congruence. Qed.

Lemma space_not_dot (c : ascii) : is_space c = true → Ascii.eqb c "." = false.
Proof. destruct c as [[] [] [] [] [] [] [] []]; vm_compute; congruence. Qed.

Lemma word_head_app (w s : list ascii) :
  w ≠ [] → word_head (w ++ s) = word_head w.
Proof. by destruct w. Qed.

Lemma word_head_all (w : list ascii) :
  w ≠ [] → forallb is_word w = true → word_head w = true.
Proof. destruct w as [|c w]; [done |]. cbn. by intros _ [? _]%andb_true_iff. Qed.

Lemma last_word (w : list ascii) :
  w ≠ [] → forallb is_word w = true → word_opt (last w) = true.
Proof.
  induction w as [|c w IH]; [done |]. intros _ [Hc Hw]%andb_true_iff.
  destruct w as [|d w]; [done |]. rewrite last_cons_cons. by apply IH.
Qed.

(** The first word of a text and what follows it. *)
Lemma first_word_split (s : list ascii) :
  ∃ w rest, s = w ++ rest ∧ forallb is_word w = true ∧ word_head rest = false.
Proof.
  induction s as [|c s (w & rest & -> & Hw & Hr)].
  - by exists [], [].
  - destruct (is_word c) eqn:Hc.
    + exists (c :: w), rest. cbn. by rewrite Hc.
    + exists [], (c :: w ++ rest). cbn. by rewrite Hc.
Qed.

(** A text has only one decomposition into a first word and a rest. *)
Lemma first_word_unique (w1 w2 r1 r2 : list ascii) :
  forallb is_word w1 = true → forallb is_word w2 = true →
  word_head r1 = false → word_head r2 = false →
  w1 ++ r1 = w2 ++ r2 → w1 = w2 ∧ r1 = r2.
Proof.
  revert w2. induction w1 as [|c w1 IH]; intros [|d w2]; cbn.
  - done.
  - intros _ [Hd _]%andb_true_iff Hr1 _ ->. cbn in Hr1. congruence.
  - intros [Hc _]%andb_true_iff _ _ Hr2 <-. cbn in Hr2. congruence.
  - intros [_ Hw1]%andb_true_iff [_ Hw2]%andb_true_iff Hr1 Hr2 [= -> Heq].
    destruct (IH w2 Hw1 Hw2 Hr1 Hr2 Heq) as [-> ->]. done.
Qed.

Lemma starts_with_app (A s : list ascii) : starts_with A (A ++ s) = true.
Proof. apply starts_with_spec. eauto. Qed.

Lemma starts_with_drop (A s : list ascii) :
  starts_with A s = true → s = A ++ drop (length A) s.
Proof.
  intros [q ->]%starts_with_spec. by rewrite drop_app_length.
Qed.

(* ===================================================================== *)
(** ** The anchored matches of the normalizer's patterns *)
(* ===================================================================== *)

Lemma rmatch_lit_chars {X : Type} (A : list ascii) (prev : option ascii) (s : list ascii)
    (k : option ascii -> list ascii -> option X) :
  rmatch (lit_chars A) prev s k =
    if starts_with A s
    then k (from_option Some prev (last A)) (drop (length A) s)
    else None.
Proof.
  revert prev s. induction A as [|a A IH]; intros prev s; cbn; [done |].
  destruct s as [|x t]; [done |]. rewrite Ascii.eqb_sym.
  destruct (Ascii.eqb_spec a x) as [-> | _]; cbn; [| done].
  rewrite IH. destruct (starts_with A t); [| done].
  destruct A as [|d A]; [done |]. rewrite last_cons_cons.
  by destruct (proj2 (last_is_Some (d :: A)) ltac:(done)) as [l ->].
Qed.

Lemma match_here_abbrev (A : list ascii) (prev : option ascii) (s : list ascii) :
  A ≠ [] → forallb is_word A = true →
  match_here (WordB >> lit_chars A >> Opt (Chr ".") >> WordB) prev s
    = abbrev_match A prev s.
Proof.
  intros HA Hw. unfold match_here, abbrev_match. cbn [rmatch].
  rewrite rmatch_lit_chars.
  destruct (starts_with A s) eqn:Hs; [| by destruct (at_boundary _ _), (word_opt prev)].
  apply starts_with_drop in Hs. set (rest := drop (length A) s) in *.
  assert (Hhead : word_head s = true).
  { rewrite Hs, word_head_app by done. by apply word_head_all. }
  unfold at_boundary. fold (word_head s). rewrite Hhead.
  destruct (word_opt prev); cbn [xorb negb]; [done |].
  pose proof (last_word A HA Hw) as Hlast.
  destruct (last A) as [l|] eqn:Hl; [| done]. cbn [from_option].
  cbn in Hlast.
  destruct rest as [|x t]; cbn [rmatch dot_word word_head head word_opt].
  - by rewrite Hlast.
  - destruct (Ascii.eqb_spec x ".") as [-> | Hx]; cbn [andb].
    + fold (word_head t). rewrite dot_not_word. cbn [xorb].
      destruct (word_head t) eqn:Ht; [done |]. by rewrite Hlast.
    + rewrite Hlast. by destruct (is_word x).
Qed.

(* ===================================================================== *)
(** ** One abbreviation rule *)
(* ===================================================================== *)

Lemma nonempty_spec (l : list ascii) : nonempty l = true ↔ l ≠ [].
Proof. by destruct l. Qed.

Lemma rule_ok_spec (A R : list ascii) :
  rule_ok A R = true →
  A ≠ [] ∧ forallb is_word A = true ∧ R ≠ [] ∧ forallb is_word R = true ∧
  ∀ x, x ≠ [] → A ≠ R ++ x.
Proof.
  unfold rule_ok. rewrite !andb_true_iff, !nonempty_spec, negb_true_iff.
  intros ((((HA & HAw) & HR) & HRw) & Hpre). split_and!; try done.
  intros x Hx ->. unfold proper_prefix in Hpre.
  rewrite starts_with_app in Hpre. cbn in Hpre.
  apply Nat.ltb_ge in Hpre. rewrite length_app in Hpre.
  destruct x; [done | simpl in Hpre; lia].
Qed.

Section AbbrevRule.
Variables A R : list ascii.
Hypothesis rule : rule_ok A R = true.

Local Abbreviation h := (sub_at (abbrev_re A) R).
Local Abbreviation g := (abbrev_sub A R).

Lemma rule_A_nonempty : A ≠ [].
Proof. apply (rule_ok_spec A R rule). Qed.

Lemma rule_A_word : forallb is_word A = true.
Proof. apply (rule_ok_spec A R rule). Qed.

Lemma rule_R_nonempty : R ≠ [].
Proof. apply (rule_ok_spec A R rule). Qed.

Lemma rule_R_word : forallb is_word R = true.
Proof. apply (rule_ok_spec A R rule). Qed.

Lemma rule_not_proper_prefix (x : list ascii) : x ≠ [] → A ≠ R ++ x.
Proof. apply (rule_ok_spec A R rule). Qed.

(** *** The scan, from a match or from no match *)

Lemma abbrev_match_Some (p q : option ascii) (s rest : list ascii) :
  abbrev_match A p s = Some (q, rest) →
  word_opt p = false ∧
  ((q = Some "."%char ∧ s = A ++ "."%char :: rest ∧ word_head rest = true) ∨
   (q = last A ∧ s = A ++ rest ∧ word_head rest = false ∧ dot_word rest = false)).
Proof.
  unfold abbrev_match. destruct (word_opt p); [done |].
  destruct (starts_with A s) eqn:Hs; [| done].
  apply starts_with_drop in Hs. destruct (drop (length A) s) as [|x t] eqn:Hrest.
  - cbn. intros [= <- <-]. split; [done |]. right. by split_and!.
  - destruct (dot_word (x :: t)) eqn:Hd.
    + intros [= <- <-]. split; [done |]. left. cbn in Hd.
      apply andb_true_iff in Hd as [->%Ascii.eqb_eq Ht]. done.
    + destruct (word_head (x :: t)) eqn:Hh; [done |].
      intros [= <- <-]. split; [done |]. by right.
Qed.

Lemma abbrev_match_shorter (p q : option ascii) (s rest : list ascii) :
  abbrev_match A p s = Some (q, rest) → length rest < length s.
Proof.
  pose proof rule_A_nonempty as HA.
  intros (_ & [(_ & -> & _) | (_ & -> & _)])%abbrev_match_Some;
    rewrite length_app; destruct A; try done; simpl; lia.
Qed.

Lemma h_step_some (p q : option ascii) (s rest : list ascii) :
  abbrev_match A p s = Some (q, rest) → h p s = R ++ h q rest.
Proof.
  intros Hm. pose proof (abbrev_match_shorter _ _ _ _ Hm) as Hlen.
  destruct s as [|c t]; [simpl in Hlen; lia |].
  rewrite sub_at_cons. unfold abbrev_re.
  rewrite match_here_abbrev by (apply rule_A_nonempty || apply rule_A_word).
  rewrite Hm. by rewrite (proj2 (Nat.ltb_lt _ _) Hlen).
Qed.

Lemma h_step_none (p : option ascii) (c : ascii) (t : list ascii) :
  abbrev_match A p (c :: t) = None → h p (c :: t) = c :: h (Some c) t.
Proof.
  intros Hm. rewrite sub_at_cons. unfold abbrev_re.
  rewrite match_here_abbrev by (apply rule_A_nonempty || apply rule_A_word).
  by rewrite Hm.
Qed.

(** Only the class of the previous character matters. *)
Lemma h_irrel (p p' : option ascii) (s : list ascii) :
  word_opt p = word_opt p' → h p s = h p' s.
Proof.
  intros Hp. destruct s as [|c t]; [done |].
  assert (Hm : abbrev_match A p (c :: t) = abbrev_match A p' (c :: t))
    by (unfold abbrev_match; by rewrite Hp).
  destruct (abbrev_match A p (c :: t)) as [[q rest]|] eqn:Hm1; symmetry in Hm.
  - by rewrite (h_step_some _ _ _ _ Hm1), (h_step_some _ _ _ _ Hm).
  - by rewrite (h_step_none _ _ _ Hm1), (h_step_none _ _ _ Hm).
Qed.

Lemma abbrev_match_nonword (p : option ascii) (c : ascii) (t : list ascii) :
  is_word c = false → abbrev_match A p (c :: t) = None.
Proof.
  intros Hc. unfold abbrev_match. destruct (word_opt p); [done |].
  destruct (starts_with A (c :: t)) eqn:Hs; [| done].
  pose proof rule_A_nonempty as HA. pose proof rule_A_word as HAw.
  destruct A as [|a A']; [done |]. cbn in Hs, HAw.
  apply andb_true_iff in Hs as [->%Ascii.eqb_eq _].
  apply andb_true_iff in HAw as [? _]. congruence.
Qed.

Lemma h_nonword (p : option ascii) (c : ascii) (t : list ascii) :
  is_word c = false → h p (c :: t) = c :: g t.
Proof.
  intros Hc. rewrite h_step_none by by apply abbrev_match_nonword.
  f_equal. apply h_irrel. cbn. done.
Qed.

Lemma h_word_prev (p : option ascii) (c : ascii) (t : list ascii) :
  word_opt p = true → h p (c :: t) = c :: h (Some c) t.
Proof.
  intros Hp. apply h_step_none. unfold abbrev_match. by rewrite Hp.
Qed.

Lemma h_tail (p : option ascii) (s : list ascii) :
  word_head s = false → h p s = g s.
Proof.
  destruct s as [|c t]; [done |]. cbn [word_head head word_opt]. intros Hc.
  unfold abbrev_sub, re_sub. by rewrite !h_nonword.
Qed.

Lemma h_skip_word (p : option ascii) (w rest : list ascii) :
  forallb is_word w = true → word_opt p = true → word_head rest = false →
  h p (w ++ rest) = w ++ g rest.
Proof.
  revert p. induction w as [|c w IH]; intros p Hw Hp Hr.
  - by apply h_tail.
  - cbn in Hw. apply andb_true_iff in Hw as [Hc Hw].
    cbn [app]. rewrite h_word_prev by done. f_equal. by apply IH.
Qed.

(** *** The substitution, word by word *)

Lemma g_nil : g [] = [].
Proof. done. Qed.

Lemma g_nonword (c : ascii) (t : list ascii) :
  is_word c = false → g (c :: t) = c :: g t.
Proof. apply h_nonword. Qed.

Lemma g_other_word (w rest : list ascii) :
  w ≠ [] → forallb is_word w = true → word_head rest = false → w ≠ A →
  g (w ++ rest) = w ++ g rest.
Proof.
  intros Hne Hw Hr HwA. destruct w as [|c w]; [done |].
  assert (Hm : abbrev_match A None ((c :: w) ++ rest) = None).
  { destruct (abbrev_match A None ((c :: w) ++ rest)) as [[q r]|] eqn:Hm; [| done].
    exfalso. apply HwA.
    apply abbrev_match_Some in Hm as (_ & [(_ & Hs & _) | (_ & Hs & Hr' & _)]).
    - apply (first_word_unique _ _ _ _ Hw rule_A_word Hr
               (eq_refl : word_head ("."%char :: r) = false)) in Hs as [? _]. done.
    - apply (first_word_unique _ _ _ _ Hw rule_A_word Hr Hr') in Hs as [? _]. done. }
  unfold abbrev_sub, re_sub. cbn [app] in *. rewrite h_step_none by done.
  cbn in Hw. apply andb_true_iff in Hw as [Hc Hw].
  f_equal. by apply h_skip_word.
Qed.

Lemma g_dot (t : list ascii) :
  word_head t = true → g (A ++ "."%char :: t) = R ++ g t.
Proof.
  intros Ht.
  assert (Hm : abbrev_match A None (A ++ "."%char :: t) = Some (Some "."%char, t)).
  { unfold abbrev_match. cbn [word_opt].
    rewrite starts_with_app, drop_app_length. cbn [dot_word].
    by rewrite Ht. }
  unfold abbrev_sub, re_sub. rewrite (h_step_some _ _ _ _ Hm).
  f_equal. by apply h_irrel.
Qed.

Lemma g_plain (rest : list ascii) :
  word_head rest = false → dot_word rest = false →
  g (A ++ rest) = R ++ g rest.
Proof.
  intros Hr Hd.
  assert (Hm : abbrev_match A None (A ++ rest) = Some (last A, rest)).
  { unfold abbrev_match. cbn [word_opt].
    rewrite starts_with_app, drop_app_length. by rewrite Hd, Hr. }
  unfold abbrev_sub, re_sub. rewrite (h_step_some _ _ _ _ Hm).
  f_equal. by apply h_tail.
Qed.

Lemma g_plain_eq (X rest : list ascii) :
  X = A → word_head rest = false → dot_word rest = false →
  g (X ++ rest) = R ++ g rest.
Proof. intros ->. apply g_plain. Qed.

(** The five shapes of a text, and the substitution on each. *)
Lemma g_cases (s : list ascii) :
  (s = [] ∧ g s = []) ∨
  (∃ c t, s = c :: t ∧ is_word c = false ∧ g s = c :: g t) ∨
  (∃ w rest, s = w ++ rest ∧ w ≠ [] ∧ forallb is_word w = true ∧
             word_head rest = false ∧ w ≠ A ∧ length rest < length s ∧
             g s = w ++ g rest) ∨
  (∃ t, s = A ++ "."%char :: t ∧ word_head t = true ∧ length t < length s ∧
        g s = R ++ g t) ∨
  (∃ rest, s = A ++ rest ∧ word_head rest = false ∧ dot_word rest = false ∧
           length rest < length s ∧ g s = R ++ g rest).
Proof.
  destruct (first_word_split s) as (w & rest & -> & Hw & Hr).
  destruct w as [|c w].
  - destruct rest as [|c t]; [by left |].
    right; left. exists c, t. cbn in Hr. split_and!; [done | done |].
    by apply g_nonword.
  - assert (Hlen : length rest < length ((c :: w) ++ rest))
      by (rewrite length_app; simpl; lia).
    destruct (decide (c :: w = A)) as [HA | HA].
    + rewrite HA in *. destruct (dot_word rest) eqn:Hd.
      * destruct rest as [|x t]; [done |]. cbn in Hd.
        apply andb_true_iff in Hd as [->%Ascii.eqb_eq Ht].
        do 3 right; left. exists t. split_and!; [done | done | | by apply g_dot].
        simpl in Hlen. rewrite length_app in *. simpl in *. lia.
      * do 4 right. exists rest. split_and!; [done | done | done | done |].
        by apply g_plain.
    + do 2 right; left. exists (c :: w), rest.
      split_and!; [done | done | done | done | done | done |].
      by apply g_other_word.
Qed.

(** *** What the substitution keeps *)

Lemma g_word_head (s : list ascii) : word_head (g s) = word_head s.
Proof.
  pose proof rule_A_nonempty as HA. pose proof rule_A_word as HAw.
  pose proof rule_R_nonempty as HR. pose proof rule_R_word as HRw.
  destruct (g_cases s) as
    [[-> ->] | [(c & t & -> & Hc & ->) | [(w & rest & -> & Hw & Hww & _ & _ & _ & ->) |
     [(t & -> & _ & _ & ->) | (rest & -> & _ & _ & _ & ->)]]]].
  - done.
  - done.
  - by rewrite !word_head_app.
  - rewrite !word_head_app by done. by rewrite !word_head_all.
  - rewrite !word_head_app by done. by rewrite !word_head_all.
Qed.

Lemma g_dot_word (s : list ascii) : dot_word (g s) = dot_word s.
Proof.
  destruct s as [|c t]; [done |].
  destruct (is_word c) eqn:Hc.
  - assert (Hh : word_head (g (c :: t)) = true) by (rewrite g_word_head; by cbn).
    destruct (g (c :: t)) as [|x u]; [done |]. cbn in Hh. cbn.
    destruct (Ascii.eqb_spec x ".") as [-> | _]; [by rewrite dot_not_word in Hh |].
    destruct (Ascii.eqb_spec c ".") as [-> | _]; [by rewrite dot_not_word in Hc |].
    done.
  - rewrite g_nonword by done. cbn. by rewrite g_word_head.
Qed.

Lemma g_nil_iff (s : list ascii) : g s = [] ↔ s = [].
Proof.
  pose proof rule_R_nonempty as HR.
  split; [| by intros ->].
  destruct (g_cases s) as
    [[-> _] | [(c & t & -> & Hc & ->) | [(w & rest & -> & Hw & Hww & _ & _ & _ & ->) |
     [(t & -> & _ & _ & ->) | (rest & -> & _ & _ & _ & ->)]]]]; try done.
  - by destruct w.
  - by destruct R.
  - by destruct R.
Qed.

(** A text that the substitution leaves alone has a first word that is
    left alone (it is not the abbreviation, or the abbreviation is its own
    replacement and keeps what follows it), and a rest that is left
    alone. *)
Lemma g_tail_stable (w rest : list ascii) :
  w ≠ [] → forallb is_word w = true → word_head rest = false →
  g (w ++ rest) = w ++ rest →
  g rest = rest ∧ (w = A → R = A ∧ dot_word rest = false).
Proof.
  intros Hne Hw Hr Hst.
  destruct (decide (w = A)) as [-> | HwA].
  - destruct (dot_word rest) eqn:Hd.
    + exfalso. destruct rest as [|x t]; [done |]. cbn in Hd.
      apply andb_true_iff in Hd as [->%Ascii.eqb_eq Ht].
      rewrite g_dot in Hst by done.
      destruct (first_word_split (g t)) as (w' & r' & Hgt & Hw' & Hr').
      assert (Hne' : w' ≠ []).
      { intros ->. cbn in Hgt. rewrite <- Hgt, g_word_head in Hr'. congruence. }
      rewrite Hgt, app_assoc in Hst.
      apply first_word_unique in Hst as [Hst _]; [| | done | done | done].
      * by apply (rule_not_proper_prefix w').
      * rewrite forallb_app. by rewrite rule_R_word, Hw'.
    + rewrite g_plain in Hst by done.
      apply first_word_unique in Hst as [-> ->];
        [done | apply rule_R_word | done | by rewrite g_word_head | done].
  - rewrite g_other_word in Hst by done.
    apply app_inv_head in Hst. done.
Qed.

(** One substitution is idempotent. *)
Lemma g_idem (s : list ascii) : g (g s) = g s.
Proof.
  induction s as [s IH] using (induction_ltof1 _ (@length ascii)). unfold ltof in IH.
  destruct (g_cases s) as
    [[-> ->] | [(c & t & -> & Hc & ->) | [(w & rest & -> & Hw & Hww & Hr & HwA & Hlen & ->) |
     [(t & -> & Ht & Hlen & ->) | (rest & -> & Hr & Hd & Hlen & ->)]]]].
  - done.
  - rewrite g_nonword by done. rewrite IH; [done | simpl; lia].
  - rewrite g_other_word; [| done | done | by rewrite g_word_head | done].
    by rewrite IH.
  - destruct (first_word_split (g t)) as (w' & r' & Hgt & Hw' & Hr').
    assert (Hne' : w' ≠ []).
    { intros ->. cbn in Hgt. rewrite <- Hgt, g_word_head in Hr'. congruence. }
    pose proof (IH t Hlen) as Hst. rewrite Hgt in Hst.
    apply g_tail_stable in Hst as [Hst _]; [| done | done | done].
    rewrite Hgt, app_assoc.
    rewrite g_other_word; [by rewrite Hst | by destruct R | | done | ].
    + rewrite forallb_app. by rewrite rule_R_word, Hw'.
    + intros Heq. by apply (rule_not_proper_prefix w').
  - destruct (decide (R = A)) as [HRA | HRA].
    + rewrite (g_plain_eq R); [| done | by rewrite g_word_head | by rewrite g_dot_word].
      by rewrite IH.
    + rewrite g_other_word;
        [by rewrite IH | apply rule_R_nonempty | apply rule_R_word
         | by rewrite g_word_head | done].
Qed.

(** The substitution works field by field. *)
Lemma word_head_app_nonword (rest b : list ascii) (sp : ascii) :
  word_head rest = false → is_word sp = false →
  word_head (rest ++ sp :: b) = false.
Proof. destruct rest; cbn; auto. Qed.

Lemma g_split_at_space (a b : list ascii) (sp : ascii) :
  is_space sp = true → g (a ++ sp :: b) = g a ++ sp :: g b.
Proof.
  intros Hsp. pose proof (space_not_word sp Hsp) as Hnw.
  pose proof (space_not_dot sp Hsp) as Hnd.
  induction a as [a IH] using (induction_ltof1 _ (@length ascii)). unfold ltof in IH.
  destruct (g_cases a) as
    [[-> ->] | [(c & t & -> & Hc & ->) | [(w & rest & -> & Hw & Hww & Hr & HwA & Hlen & ->) |
     [(t & -> & Ht & Hlen & ->) | (rest & -> & Hr & Hd & Hlen & ->)]]]].
  - cbn. by apply g_nonword.
  - cbn [app]. rewrite g_nonword by done. rewrite IH; [done | simpl; lia].
  - rewrite <- !app_assoc.
    rewrite g_other_word; [| done | done | by apply word_head_app_nonword | done].
    by rewrite IH.
  - rewrite <- !app_assoc. cbn [app].
    rewrite g_dot.
    + by rewrite IH.
    + destruct t; [done |]. done.
  - rewrite <- !app_assoc.
    rewrite g_plain; [by rewrite IH | by apply word_head_app_nonword |].
    destruct rest as [|x t]; cbn.
    + by rewrite Hnd.
    + cbn in Hd. apply andb_false_iff in Hd as [-> | Ht]; [done |].
      rewrite (word_head_app_nonword t b sp Ht Hnw). apply andb_false_r.
Qed.

End AbbrevRule.

(* ===================================================================== *)
(** ** Two abbreviation rules, one after the other *)
(* ===================================================================== *)

Section TwoRules.
Variables A1 R1 A2 R2 : list ascii.
Hypothesis rule1 : rule_ok A1 R1 = true.
Hypothesis rule2 : rule_ok A2 R2 = true.
Hypothesis apart : starts_with R2 A1 = false.

Local Abbreviation g1 := (abbrev_sub A1 R1).
Local Abbreviation g2 := (abbrev_sub A2 R2).

Lemma apart_spec (x : list ascii) : R2 ++ x ≠ A1.
Proof. intros <-. by rewrite starts_with_app in apart. Qed.

(** A text that the first rule leaves alone is still left alone by it
    after the second rule has been applied. *)
Lemma stable_preserved (s : list ascii) :
  g1 s = s → g1 (g2 s) = g2 s.
Proof.
  induction s as [s IH] using (induction_ltof1 _ (@length ascii)). unfold ltof in IH.
  intros Hst.
  destruct (g_cases A2 R2 rule2 s) as
    [[-> ->] | [(c & t & -> & Hc & ->) | [(w & rest & -> & Hw & Hww & Hr & HwA & Hlen & ->) |
     [(t & -> & Ht & Hlen & ->) | (rest & -> & Hr & Hd & Hlen & ->)]]]].
  - done.
  - rewrite (g_nonword A1 R1 rule1) in Hst by done. injection Hst as Hst.
    rewrite (g_nonword A1 R1 rule1) by done. rewrite IH; [done | simpl; lia | done].
  - apply (g_tail_stable A1 R1 rule1) in Hst as [Hrest Hw1]; [| done | done | done].
    pose proof (IH rest Hlen Hrest) as IHrest.
    destruct (decide (w = A1)) as [HwA1 | HwA1].
    + destruct (Hw1 HwA1) as [HR1 Hd].
      rewrite (g_plain_eq A1 R1 rule1 w);
        [| done | by rewrite (g_word_head A2 R2 rule2)
         | by rewrite (g_dot_word A2 R2 rule2)].
      rewrite IHrest. congruence.
    + rewrite (g_other_word A1 R1 rule1);
        [| done | done | by rewrite (g_word_head A2 R2 rule2) | done].
      by rewrite IHrest.
  - pose proof (rule_A_nonempty A2 R2 rule2) as HA2.
    pose proof (rule_A_word A2 R2 rule2) as HA2w.
    apply (g_tail_stable A1 R1 rule1) in Hst as [Hrest _]; [| done | done | done].
    rewrite (g_nonword A1 R1 rule1) in Hrest by done. injection Hrest as Hrest.
    pose proof (IH t Hlen Hrest) as IHt.
    destruct (first_word_split (g2 t)) as (w' & r' & Hgt & Hw' & Hr').
    assert (Hne' : w' ≠ []).
    { intros ->. cbn in Hgt. rewrite <- Hgt, (g_word_head A2 R2 rule2) in Hr'. congruence. }
    rewrite Hgt in IHt.
    apply (g_tail_stable A1 R1 rule1) in IHt as [Hr1 _]; [| done | done | done].
    rewrite Hgt, app_assoc.
    rewrite (g_other_word A1 R1 rule1); [by rewrite Hr1 | | | done | apply apart_spec].
    + pose proof (rule_R_nonempty A2 R2 rule2). by destruct R2.
    + rewrite forallb_app. by rewrite (rule_R_word A2 R2 rule2), Hw'.
  - pose proof (rule_A_nonempty A2 R2 rule2) as HA2.
    pose proof (rule_A_word A2 R2 rule2) as HA2w.
    apply (g_tail_stable A1 R1 rule1) in Hst as [Hrest _]; [| done | done | done].
    pose proof (IH rest Hlen Hrest) as IHrest.
    rewrite (g_other_word A1 R1 rule1);
      [by rewrite IHrest | apply (rule_R_nonempty A2 R2 rule2)
       | apply (rule_R_word A2 R2 rule2)
       | by rewrite (g_word_head A2 R2 rule2) |].
    rewrite <- (app_nil_r R2). apply apart_spec.
Qed.

End TwoRules.

(* ===================================================================== *)
(** ** The four substitutions of the normalizer *)
(* ===================================================================== *)

Lemma expand_abbrevs_unfold (s : list ascii) :
  expand_abbrevs s =
    abbrev_sub (chars "CO") (chars "COMPANY")
      (abbrev_sub (chars "LLC") (chars "LLC")
        (abbrev_sub (chars "INC") (chars "INC")
          (abbrev_sub (chars "CORP") (chars "CORPORATION") s))).
Proof. reflexivity. Qed.

Lemma rule_corp : rule_ok (chars "CORP") (chars "CORPORATION") = true.
Proof. reflexivity. Qed.

Lemma rule_inc : rule_ok (chars "INC") (chars "INC") = true.
Proof. reflexivity. Qed.

Lemma rule_llc : rule_ok (chars "LLC") (chars "LLC") = true.
Proof. reflexivity. Qed.

Lemma rule_co : rule_ok (chars "CO") (chars "COMPANY") = true.
Proof. reflexivity. Qed.

(** The result of the four substitutions is left alone by each of them,
    hence by the four together. *)
Lemma expand_abbrevs_idem (s : list ascii) :
  expand_abbrevs (expand_abbrevs s) = expand_abbrevs s.
Proof.
  rewrite !expand_abbrevs_unfold.
  set (s1 := abbrev_sub (chars "CORP") (chars "CORPORATION") s).
  set (s2 := abbrev_sub (chars "INC") (chars "INC") s1).
  set (s3 := abbrev_sub (chars "LLC") (chars "LLC") s2).
  set (s4 := abbrev_sub (chars "CO") (chars "COMPANY") s3).
  assert (H1 : abbrev_sub (chars "CORP") (chars "CORPORATION") s4 = s4).
  { apply (stable_preserved _ _ _ _ rule_corp rule_co eq_refl).
    apply (stable_preserved _ _ _ _ rule_corp rule_llc eq_refl).
    apply (stable_preserved _ _ _ _ rule_corp rule_inc eq_refl).
    apply (g_idem _ _ rule_corp). }
  assert (H2 : abbrev_sub (chars "INC") (chars "INC") s4 = s4).
  { apply (stable_preserved _ _ _ _ rule_inc rule_co eq_refl).
    apply (stable_preserved _ _ _ _ rule_inc rule_llc eq_refl).
    apply (g_idem _ _ rule_inc). }
  assert (H3 : abbrev_sub (chars "LLC") (chars "LLC") s4 = s4).
  { apply (stable_preserved _ _ _ _ rule_llc rule_co eq_refl).
    apply (g_idem _ _ rule_llc). }
  assert (H4 : abbrev_sub (chars "CO") (chars "COMPANY") s4 = s4).
  { apply (g_idem _ _ rule_co). }
  by rewrite H1, H2, H3, H4.
Qed.

(* ===================================================================== *)
(** ** Characters of a substitution *)
(* ===================================================================== *)

(** A substitution only produces characters of the subject and of the
    replacement. *)
Lemma sub_at_elem (r : regex) (repl : list ascii) (p : option ascii)
    (s : list ascii) (c : ascii) :
  c ∈ sub_at r repl p s → c ∈ s ∨ c ∈ repl.
Proof.
  revert p. induction s as [s IH] using (induction_ltof1 _ (@length ascii)).
  unfold ltof in IH. intros p.
  destruct s as [|x t]; [by intros ?%not_elem_of_nil |].
  assert (Hcons : c ∈ x :: sub_at r repl (Some x) t → c ∈ x :: t ∨ c ∈ repl).
  { intros [-> | Hin]%elem_of_cons; [left; apply list_elem_of_here |].
    apply IH in Hin as [Hin | Hin]; [left; by apply list_elem_of_further | by right |].
    simpl. lia. }
  rewrite sub_at_cons.
  destruct (match_here r p (x :: t)) as [[q rest]|] eqn:Hm; [| done].
  destruct (length rest <? length (x :: t)) eqn:Hlt; [| done].
  apply Nat.ltb_lt in Hlt.
  intros [Hin | Hin]%elem_of_app; [by right |].
  apply IH in Hin as [Hin | Hin]; [| by right | done].
  left. apply match_here_suffix in Hm as [pre ->].
  apply elem_of_app. by right.
Qed.

(* ===================================================================== *)
(** ** Fields and whitespace *)
(* ===================================================================== *)

Lemma pieces_nonnil (s : list ascii) : pieces s ≠ [].
Proof.
  destruct s as [|c t]; [done |]. cbn.
  destruct (is_space c); [done |]. by destruct (pieces t).
Qed.

Lemma pieces_app_space (a b : list ascii) (sp : ascii) :
  is_space sp = true → pieces (a ++ sp :: b) = pieces a ++ pieces b.
Proof.
  intros Hsp. induction a as [|c a IH]; cbn.
  - by rewrite Hsp.
  - rewrite IH. destruct (is_space c); [done |].
    pose proof (pieces_nonnil a). by destruct (pieces a).
Qed.

Lemma pieces_space_free (a : list ascii) : space_free a → pieces a = [a].
Proof.
  induction 1 as [|c a Hc _ IH]; [done |]. cbn. by rewrite Hc, IH.
Qed.

Lemma split_space_free (a : list ascii) :
  space_free a → split a = if nonempty a then [a] else [].
Proof.
  intros Ha. unfold split. rewrite pieces_space_free by done.
  rewrite filter_cons, filter_nil. by destruct a.
Qed.

Lemma split_app_space (a b : list ascii) (sp : ascii) :
  space_free a → is_space sp = true →
  split (a ++ sp :: b) = (if nonempty a then [a] else []) ++ split b.
Proof.
  intros Ha Hsp. unfold split. rewrite pieces_app_space by done.
  rewrite filter_app. f_equal. by apply split_space_free.
Qed.

(** Every text is free of whitespace or has a first whitespace
    character. *)
Lemma first_space (s : list ascii) :
  space_free s ∨
  ∃ a sp b, s = a ++ sp :: b ∧ space_free a ∧ is_space sp = true.
Proof.
  induction s as [|c s IH]; [left; constructor |].
  destruct (is_space c) eqn:Hc.
  - right. exists [], c, s. split_and!; [done | constructor | done].
  - destruct IH as [Hs | (a & sp & b & -> & Ha & Hsp)].
    + left. by constructor.
    + right. exists (c :: a), sp, b. split_and!; [done | by constructor | done].
Qed.

Lemma glue_nil_r (a : list ascii) : glue a [] = a.
Proof. by destruct a. Qed.

Lemma squeeze_space_free (a : list ascii) : space_free a → squeeze a = a.
Proof.
  intros Ha. unfold squeeze. rewrite split_space_free by done. by destruct a.
Qed.

Lemma split_nonempty (s : list ascii) : Forall (fun w => w ≠ []) (split s).
Proof.
  unfold split. apply Forall_forall. intros w [Hw _]%list_elem_of_filter.
  by destruct w.
Qed.

Lemma join_nil_iff (sep : list ascii) (l : list (list ascii)) :
  Forall (fun w => w ≠ []) l → join sep l = [] ↔ l = [].
Proof.
  intros Hl. split; [| by intros ->].
  destruct Hl as [|w l Hw Hl]; [done |]. cbn.
  destruct l; [done |]. by destruct w.
Qed.

Lemma squeeze_nil_iff (s : list ascii) : squeeze s = [] ↔ split s = [].
Proof. apply join_nil_iff, split_nonempty. Qed.

Lemma squeeze_app_space (a b : list ascii) (sp : ascii) :
  space_free a → is_space sp = true →
  squeeze (a ++ sp :: b) = glue a (squeeze b).
Proof.
  intros Ha Hsp. unfold squeeze at 1. rewrite split_app_space by done.
  destruct a as [|c a]; [done |]. cbn [nonempty app join].
  destruct (split b) as [|w ws] eqn:Hb.
  - by rewrite (proj2 (squeeze_nil_iff b) Hb).
  - fold (join (chars " ") (w :: ws)). rewrite <- Hb. fold (squeeze b).
    assert (Hne : squeeze b ≠ []) by (rewrite squeeze_nil_iff; congruence).
    cbn [glue]. by destruct (squeeze b) eqn:Hsq.
Qed.

(** A fieldwise function commutes with the whitespace squeeze. *)
Lemma fieldwise_squeeze (g : list ascii -> list ascii) (s : list ascii) :
  fieldwise g → g (squeeze s) = squeeze (g s).
Proof.
  intros (Hsplit & Hfree & Hnil).
  induction s as [s IH] using (induction_ltof1 _ (@length ascii)). unfold ltof in IH.
  destruct (first_space s) as [Hs | (a & sp & b & -> & Ha & Hsp)].
  - rewrite squeeze_space_free by done. by rewrite squeeze_space_free by auto.
  - rewrite squeeze_app_space by done. rewrite Hsplit by done.
    rewrite squeeze_app_space by auto.
    assert (IHb : g (squeeze b) = squeeze (g b)).
    { apply IH. rewrite length_app. simpl. lia. }
    rewrite <- IHb.
    destruct a as [|c a].
    + rewrite (proj2 (Hnil []) eq_refl). done.
    + destruct (squeeze b) as [|d r] eqn:Hb.
      * rewrite (proj2 (Hnil []) eq_refl). by rewrite !glue_nil_r.
      * cbn [glue]. change (chars " " ++ d :: r) with (" "%char :: d :: r).
        rewrite Hsplit by done.
        assert (Hga : g (c :: a) ≠ []) by (rewrite Hnil; done).
        assert (Hgr : g (d :: r) ≠ []) by (rewrite Hnil; done).
        destruct (g (c :: a)), (g (d :: r)); done.
Qed.

Lemma fieldwise_compose (g1 g2 : list ascii -> list ascii) :
  fieldwise g1 → fieldwise g2 → fieldwise (fun s => g2 (g1 s)).
Proof.
  intros (Hs1 & Hf1 & Hn1) (Hs2 & Hf2 & Hn2). split_and!.
  - intros a sp b Hsp. by rewrite Hs1, Hs2.
  - auto.
  - intros a. by rewrite Hn2, Hn1.
Qed.

Lemma abbrev_sub_fieldwise (A R : list ascii) :
  rule_ok A R = true → fieldwise (abbrev_sub A R).
Proof.
  intros rule. split_and!.
  - intros a sp b Hsp. by apply g_split_at_space.
  - intros a Ha. apply Forall_forall. intros c Hc.
    apply sub_at_elem in Hc as [Hc | Hc].
    + by apply (proj1 (Forall_forall _ _) Ha).
    + pose proof (rule_R_word A R rule) as HR.
      rewrite forallb_forall in HR. apply list_elem_of_In, HR in Hc.
      destruct (is_space c) eqn:Hsp; [| done].
      apply space_not_word in Hsp. congruence.
  - apply g_nil_iff, rule.
Qed.

Lemma expand_abbrevs_fieldwise : fieldwise expand_abbrevs.
Proof.
  apply (fieldwise_compose
           (fun s => abbrev_sub (chars "LLC") (chars "LLC")
                       (abbrev_sub (chars "INC") (chars "INC")
                          (abbrev_sub (chars "CORP") (chars "CORPORATION") s)))
           (abbrev_sub (chars "CO") (chars "COMPANY"))).
  - apply (fieldwise_compose
             (fun s => abbrev_sub (chars "INC") (chars "INC")
                         (abbrev_sub (chars "CORP") (chars "CORPORATION") s))
             (abbrev_sub (chars "LLC") (chars "LLC"))).
    + apply (fieldwise_compose (abbrev_sub (chars "CORP") (chars "CORPORATION"))
               (abbrev_sub (chars "INC") (chars "INC"))).
      * apply abbrev_sub_fieldwise, rule_corp.
      * apply abbrev_sub_fieldwise, rule_inc.
    + apply abbrev_sub_fieldwise, rule_llc.
  - apply abbrev_sub_fieldwise, rule_co.
Qed.

(** *** The squeeze is idempotent and leaves nothing to strip *)

Lemma split_fields (s : list ascii) :
  Forall (fun w => w ≠ [] ∧ space_free w) (split s).
Proof.
  induction s as [s IH] using (induction_ltof1 _ (@length ascii)). unfold ltof in IH.
  destruct (first_space s) as [Hs | (a & sp & b & -> & Ha & Hsp)].
  - rewrite split_space_free by done. destruct s; [constructor |].
    constructor; [done | constructor].
  - rewrite split_app_space by done. apply Forall_app. split.
    + destruct a; [constructor |]. constructor; [done | constructor].
    + apply IH. rewrite length_app. simpl. lia.
Qed.

Lemma split_join (l : list (list ascii)) :
  Forall (fun w => w ≠ [] ∧ space_free w) l →
  split (join (chars " ") l) = l.
Proof.
  induction 1 as [|w l [Hw Hfree] Hl IH]; [done |].
  destruct l as [|w2 l].
  - cbn [join]. rewrite split_space_free by done. by destruct w.
  - change (join (chars " ") (w :: w2 :: l))
      with (w ++ " "%char :: join (chars " ") (w2 :: l)).
    rewrite split_app_space by done. rewrite IH. by destruct w.
Qed.

Lemma squeeze_idem (s : list ascii) : squeeze (squeeze s) = squeeze s.
Proof. unfold squeeze. by rewrite split_join by apply split_fields. Qed.

Lemma lstrip_no_space_head (s : list ascii) : space_head s = false → lstrip s = s.
Proof. destruct s as [|c t]; [done |]. cbn. by intros ->. Qed.

Lemma strip_trimmed (s : list ascii) :
  space_head s = false → space_head (rev s) = false → strip s = s.
Proof.
  intros Hh Hl. unfold strip, rstrip.
  rewrite (lstrip_no_space_head s) by done.
  rewrite (lstrip_no_space_head (rev s)) by done.
  apply rev_involutive.
Qed.

Lemma space_free_head (s : list ascii) : space_free s → space_head s = false.
Proof. by destruct 1. Qed.

Lemma space_free_rev (s : list ascii) : space_free s → space_free (rev s).
Proof.
  intros Hs. apply Forall_forall. intros c Hc.
  apply list_elem_of_In, in_rev, list_elem_of_In in Hc.
  by apply (proj1 (Forall_forall _ _) Hs).
Qed.

Lemma space_head_app (a b : list ascii) :
  a ≠ [] → space_head (a ++ b) = space_head a.
Proof. by destruct a. Qed.

Lemma squeeze_trimmed (s : list ascii) :
  space_head (squeeze s) = false ∧ space_head (rev (squeeze s)) = false.
Proof.
  induction s as [s IH] using (induction_ltof1 _ (@length ascii)). unfold ltof in IH.
  destruct (first_space s) as [Hs | (a & sp & b & -> & Ha & Hsp)].
  - rewrite squeeze_space_free by done.
    split; [by apply space_free_head | by apply space_free_head, space_free_rev].
  - rewrite squeeze_app_space by done.
    destruct (IH b) as [IH1 IH2]; [rewrite length_app; simpl; lia |].
    destruct a as [|c a]; [done |].
    destruct (squeeze b) as [|d r] eqn:Hb.
    + rewrite glue_nil_r.
      split; [by apply space_free_head | by apply space_free_head, space_free_rev].
    + cbn [glue]. split.
      * by apply (space_free_head (c :: a)) in Ha.
      * rewrite rev_app_distr. change (chars " " ++ d :: r) with ([" "%char] ++ d :: r).
        rewrite rev_app_distr, <- app_assoc.
        rewrite space_head_app; [done |].
        intros Hnil. apply (f_equal (@length ascii)) in Hnil.
        rewrite length_rev in Hnil. done.
Qed.

Lemma strip_squeeze (s : list ascii) : strip (squeeze s) = squeeze s.
Proof. apply strip_trimmed; apply squeeze_trimmed. Qed.

(* ===================================================================== *)
(** ** Parentheticals *)
(* ===================================================================== *)

Lemma mem_spec (c : ascii) (l : list ascii) : mem c l = true ↔ c ∈ l.
Proof.
  unfold mem. rewrite existsb_exists, list_elem_of_In. split.
  - by intros (x & Hx & ->%Ascii.eqb_eq).
  - intros Hc. exists c. by rewrite Ascii.eqb_refl.
Qed.

Lemma star_none_close (p : option ascii) (t : list ascii) :
  star_none (chars ")") p t
    (fun p' t' => rmatch (Chr ")") p' t' (fun q r => Some (q, r)))
  = option_map (fun r => (Some ")"%char, r)) (after_close t).
Proof.
  revert p. induction t as [|x t IH]; intros p; [done |].
  cbn [star_none after_close mem existsb chars list_ascii_of_string].
  destruct (Ascii.eqb_spec x ")") as [-> | Hx].
  - done.
  - cbn [orb]. rewrite IH. destruct (after_close t); [done |].
    cbn [rmatch option_map]. by rewrite (proj2 (Ascii.eqb_neq _ _) Hx).
Qed.

Lemma match_here_parenthetical (p : option ascii) (s : list ascii) :
  match_here re_parenthetical p s =
    match s with
    | x :: t =>
        if Ascii.eqb x "("
        then option_map (fun r => (Some ")"%char, r)) (after_close t)
        else None
    | [] => None
    end.
Proof.
  unfold match_here, re_parenthetical. cbn [rmatch].
  destruct s as [|x t]; [done |].
  destruct (Ascii.eqb x "("); [apply star_none_close | done].
Qed.

Lemma after_close_shorter (t r : list ascii) :
  after_close t = Some r → length r < length t.
Proof.
  induction t as [|x t IH]; cbn; [done |].
  destruct (Ascii.eqb x ")").
  - intros [= ->]. lia.
  - intros Hr%IH. lia.
Qed.

Lemma after_close_None (t : list ascii) :
  after_close t = None ↔ mem ")" t = false.
Proof.
  induction t as [|x t IH]; [done |]. cbn [after_close mem existsb].
  rewrite (Ascii.eqb_sym ")" x).
  destruct (Ascii.eqb x ")"); cbn [orb]; [done | apply IH].
Qed.

Local Abbreviation strip_parens := (re_sub re_parenthetical []).

Lemma strip_parens_irrel (p p' : option ascii) (s : list ascii) :
  sub_at re_parenthetical [] p s = sub_at re_parenthetical [] p' s.
Proof.
  destruct s as [|c t]; [done |].
  by rewrite !sub_at_cons, !match_here_parenthetical.
Qed.

Lemma strip_parens_cons (c : ascii) (t : list ascii) :
  strip_parens (c :: t) =
    if Ascii.eqb c "("
    then match after_close t with
         | Some r => strip_parens r
         | None => c :: strip_parens t
         end
    else c :: strip_parens t.
Proof.
  unfold re_sub. rewrite sub_at_cons, match_here_parenthetical.
  destruct (Ascii.eqb c "("); [| by rewrite (strip_parens_irrel (Some c) None)].
  destruct (after_close t) as [r|] eqn:Hr; cbn [option_map].
  - apply after_close_shorter in Hr.
    rewrite (proj2 (Nat.ltb_lt _ _)) by (simpl; lia).
    apply strip_parens_irrel.
  - by rewrite (strip_parens_irrel (Some c) None).
Qed.

(** Without a closable parenthesis nothing is removed. *)
Lemma strip_parens_stable (s : list ascii) :
  unclosed s = true → strip_parens s = s.
Proof.
  induction s as [|c t IH]; [done |]. cbn [unclosed].
  intros [Hc Ht]%andb_true_iff. rewrite strip_parens_cons, (IH Ht).
  destruct (Ascii.eqb c "("); [| done].
  apply negb_true_iff, after_close_None in Hc. by rewrite Hc.
Qed.

(** After the removal no closable parenthesis is left. *)
Lemma strip_parens_unclosed (s : list ascii) :
  unclosed (strip_parens s) = true.
Proof.
  induction s as [s IH] using (induction_ltof1 _ (@length ascii)). unfold ltof in IH.
  destruct s as [|c t]; [done |]. rewrite strip_parens_cons.
  assert (IHt : unclosed (strip_parens t) = true) by (apply IH; simpl; lia).
  destruct (Ascii.eqb c "(") eqn:Hc.
  - destruct (after_close t) as [r|] eqn:Hr.
    + apply IH. apply after_close_shorter in Hr. simpl. lia.
    + cbn [unclosed]. rewrite Hc, IHt, andb_true_r.
      apply negb_true_iff. apply after_close_None in Hr.
      destruct (mem ")" (strip_parens t)) eqn:Hm; [| done].
      apply mem_spec, sub_at_elem in Hm as [Hm | Hm].
      * apply mem_spec in Hm. congruence.
      * by apply not_elem_of_nil in Hm.
  - cbn [unclosed]. by rewrite Hc, IHt.
Qed.

(* ===================================================================== *)
(** ** What the later steps do to parentheses *)
(* ===================================================================== *)

Lemma parens_cons (c : ascii) (s : list ascii) :
  parens (c :: s) = if is_paren c then c :: parens s else parens s.
Proof.
  unfold parens. rewrite filter_cons.
  destruct (is_paren c); [by rewrite decide_True | by rewrite decide_False].
Qed.

Lemma parens_app (a b : list ascii) : parens (a ++ b) = parens a ++ parens b.
Proof. apply filter_app. Qed.

Lemma word_not_paren (c : ascii) : is_word c = true → is_paren c = false.
Proof. destruct c as [[] [] [] [] [] [] [] []]; vm_compute; congruence. Qed.

Lemma space_not_paren (c : ascii) : is_space c = true → is_paren c = false.
Proof. destruct c as [[] [] [] [] [] [] [] []]; vm_compute; congruence. Qed.

Lemma parens_word (w : list ascii) : forallb is_word w = true → parens w = [].
Proof.
  induction w as [|c w IH]; [done |]. cbn [forallb].
  intros [Hc Hw]%andb_true_iff. by rewrite parens_cons, word_not_paren, IH.
Qed.

Lemma mem_parens (c : ascii) (t : list ascii) :
  is_paren c = true → mem c (parens t) = mem c t.
Proof.
  intros Hc. apply eq_true_iff_eq. rewrite !mem_spec. unfold parens.
  rewrite list_elem_of_filter. tauto.
Qed.

Lemma unclosed_parens (s : list ascii) : unclosed s = unclosed (parens s).
Proof.
  induction s as [|c t IH]; [done |]. rewrite parens_cons. cbn [unclosed].
  destruct (is_paren c) eqn:Hc.
  - cbn [unclosed]. by rewrite mem_parens, IH.
  - rewrite <- IH. destruct (Ascii.eqb_spec c "(") as [-> | _]; [done |].
    done.
Qed.

Lemma abbrev_sub_parens (A R : list ascii) (s : list ascii) :
  rule_ok A R = true → parens (abbrev_sub A R s) = parens s.
Proof.
  intros rule.
  pose proof (rule_A_word A R rule) as HA. pose proof (rule_R_word A R rule) as HR.
  induction s as [s IH] using (induction_ltof1 _ (@length ascii)). unfold ltof in IH.
  destruct (g_cases A R rule s) as
    [[-> ->] | [(c & t & -> & Hc & ->) | [(w & rest & -> & Hw & Hww & Hr & HwA & Hlen & ->) |
     [(t & -> & Ht & Hlen & ->) | (rest & -> & Hr & Hd & Hlen & ->)]]]].
  - done.
  - rewrite !parens_cons, IH; [done | simpl; lia].
  - by rewrite !parens_app, (IH rest Hlen).
  - rewrite !parens_app, !parens_cons, (IH t Hlen).
    by rewrite (parens_word A HA), (parens_word R HR).
  - rewrite !parens_app, (IH rest Hlen).
    by rewrite (parens_word A HA), (parens_word R HR).
Qed.

Lemma expand_abbrevs_parens (s : list ascii) : parens (expand_abbrevs s) = parens s.
Proof.
  rewrite expand_abbrevs_unfold.
  rewrite (abbrev_sub_parens _ _ _ rule_co), (abbrev_sub_parens _ _ _ rule_llc).
  by rewrite (abbrev_sub_parens _ _ _ rule_inc), (abbrev_sub_parens _ _ _ rule_corp).
Qed.

Lemma parens_glue (a r : list ascii) : parens (glue a r) = parens a ++ parens r.
Proof.
  destruct a as [|c a]; [done |]. destruct r as [|d r].
  - by rewrite app_nil_r.
  - cbn [glue]. by rewrite !parens_app.
Qed.

Lemma squeeze_parens (s : list ascii) : parens (squeeze s) = parens s.
Proof.
  induction s as [s IH] using (induction_ltof1 _ (@length ascii)). unfold ltof in IH.
  destruct (first_space s) as [Hs | (a & sp & b & -> & Ha & Hsp)].
  - by rewrite squeeze_space_free.
  - rewrite squeeze_app_space, parens_glue, parens_app, parens_cons by done.
    rewrite space_not_paren by done. rewrite IH; [done |].
    rewrite length_app. simpl. lia.
Qed.

(* ===================================================================== *)
(** ** Upper case *)
(* ===================================================================== *)

Lemma upper_char_idem (c : ascii) : upper_char (upper_char c) = upper_char c.
Proof. destruct c as [[] [] [] [] [] [] [] []]; reflexivity. Qed.

Lemma upper_upper_fixed (s : list ascii) : upper_fixed (upper s).
Proof.
  apply Forall_forall. intros c Hc. unfold upper in Hc.
  apply list_elem_of_In, in_map_iff in Hc as (x & <- & _). apply upper_char_idem.
Qed.

Lemma upper_of_fixed (s : list ascii) : upper_fixed s → upper s = s.
Proof.
  induction 1 as [|c s Hc _ IH]; [done |].
  unfold upper in *. cbn [map]. by rewrite Hc, IH.
Qed.

Lemma upper_fixed_from (s s' extra : list ascii) :
  (∀ c, c ∈ s' → c ∈ s ∨ c ∈ extra) →
  upper_fixed s → upper_fixed extra → upper_fixed s'.
Proof.
  unfold upper_fixed. rewrite !Forall_forall. intros Hsub Hs He c Hc.
  destruct (Hsub c Hc); auto.
Qed.

Lemma lstrip_elem (c : ascii) (s : list ascii) : c ∈ lstrip s → c ∈ s.
Proof.
  induction s as [|x t IH]; cbn; [done |].
  destruct (is_space x); [| done]. intros Hin. apply list_elem_of_further. auto.
Qed.

Lemma strip_elem (c : ascii) (s : list ascii) : c ∈ strip s → c ∈ s.
Proof.
  unfold strip, rstrip. rewrite list_elem_of_In, <- in_rev, <- list_elem_of_In.
  intros Hin%lstrip_elem.
  rewrite list_elem_of_In, <- in_rev, <- list_elem_of_In in Hin.
  by apply lstrip_elem.
Qed.

Lemma squeeze_elem (c : ascii) (s : list ascii) :
  c ∈ squeeze s → c ∈ s ∨ c ∈ chars " ".
Proof.
  induction s as [s IH] using (induction_ltof1 _ (@length ascii)). unfold ltof in IH.
  destruct (first_space s) as [Hs | (a & sp & b & -> & Ha & Hsp)].
  - rewrite squeeze_space_free by done. by left.
  - rewrite squeeze_app_space by done.
    assert (Hb : c ∈ squeeze b → c ∈ a ++ sp :: b ∨ c ∈ chars " ").
    { intros [Hc | Hc]%IH; [| by right | rewrite length_app; simpl; lia].
      left. apply elem_of_app. right. by apply list_elem_of_further. }
    destruct a as [|x a]; [done |]. destruct (squeeze b) as [|d r].
    + rewrite glue_nil_r. intros Hc. left. apply elem_of_app. by left.
    + cbn [glue]. intros [Hc | [Hc | Hc]%elem_of_app]%elem_of_app.
      * left. apply elem_of_app. by left.
      * by right.
      * by apply Hb.
Qed.

Lemma upper_fixed_strip (s : list ascii) : upper_fixed s → upper_fixed (strip s).
Proof.
  intros Hs. apply (upper_fixed_from s _ []); [| done | constructor].
  intros c Hc. left. by apply strip_elem.
Qed.

Lemma upper_fixed_sub_at (r : regex) (repl : list ascii) (s : list ascii) :
  upper_fixed s → upper_fixed repl → upper_fixed (re_sub r repl s).
Proof.
  intros Hs Hr. apply (upper_fixed_from s _ repl); [| done | done].
  intros c. apply sub_at_elem.
Qed.

Lemma upper_fixed_squeeze (s : list ascii) : upper_fixed s → upper_fixed (squeeze s).
Proof.
  intros Hs. apply (upper_fixed_from s _ (chars " ")); [| done |].
  - intros c. apply squeeze_elem.
  - by repeat constructor.
Qed.

Lemma upper_fixed_expand (s : list ascii) : upper_fixed s → upper_fixed (expand_abbrevs s).
Proof.
  intros Hs. unfold expand_abbrevs.
  repeat (apply upper_fixed_sub_at; [| by repeat constructor]). done.
Qed.

(* ===================================================================== *)
(** ** The normalizer is idempotent *)
(* ===================================================================== *)

Lemma clean_chars_unfold (s : list ascii) :
  clean_chars s = match s with [] => [] | _ :: _ => normalize s end.
Proof. by destruct s. Qed.

Lemma normalize_squeezed (s : list ascii) :
  normalize s =
    squeeze (expand_abbrevs (re_sub re_parenthetical [] (strip (upper s)))).
Proof. apply strip_squeeze. Qed.

Lemma normalize_idem (s : list ascii) : normalize (normalize s) = normalize s.
Proof.
  rewrite (normalize_squeezed s).
  set (y := re_sub re_parenthetical [] (strip (upper s))).
  set (z := expand_abbrevs y).
  assert (Hfixed : upper_fixed (squeeze z)).
  { apply upper_fixed_squeeze, upper_fixed_expand, upper_fixed_sub_at; [| constructor].
    apply upper_fixed_strip, upper_upper_fixed. }
  assert (Hclosed : unclosed (squeeze z) = true).
  { rewrite unclosed_parens, squeeze_parens. unfold z.
    rewrite expand_abbrevs_parens, <- unclosed_parens.
    apply strip_parens_unclosed. }
  rewrite normalize_squeezed.
  rewrite (upper_of_fixed _ Hfixed), strip_squeeze.
  rewrite (strip_parens_stable _ Hclosed).
  rewrite (fieldwise_squeeze _ _ expand_abbrevs_fieldwise).
  unfold z at 1. rewrite expand_abbrevs_idem. fold z.
  apply squeeze_idem.
Qed.

Lemma clean_chars_idem (s : list ascii) : clean_chars (clean_chars s) = clean_chars s.
Proof.
  rewrite (clean_chars_unfold s). destruct s as [|c t]; [done |].
  rewrite clean_chars_unfold.
  destruct (normalize (c :: t)) as [|d r] eqn:Hn; [done |].
  rewrite <- Hn. apply normalize_idem.
Qed.

(** C8.  [clean_company_name] is idempotent. *)
Theorem clean_company_name_idempotent (x : string) :
  clean_company_name (clean_company_name x) = clean_company_name x.
Proof.
  unfold clean_company_name, text, chars.
  by rewrite list_ascii_of_string_of_list_ascii, clean_chars_idem.
Qed.

(* ===================================================================== *)
(** ** The code and the specification's wording on names without a dot *)
(* ===================================================================== *)

Lemma match_here_abbrev_spec (A : list ascii) (prev : option ascii) (s : list ascii) :
  A ≠ [] → forallb is_word A = true → "."%char ∉ s →
  match_here (abbrev_re_spec A) prev s = abbrev_match A prev s.
Proof.
  intros HA Hw Hdot. unfold match_here, abbrev_re_spec, abbrev_match. cbn [rmatch].
  rewrite rmatch_lit_chars.
  destruct (starts_with A s) eqn:Hs; [| by destruct (at_boundary _ _), (word_opt prev)].
  apply starts_with_drop in Hs. set (rest := drop (length A) s) in *.
  assert (Hhead : word_head s = true).
  { rewrite Hs, word_head_app by done. by apply word_head_all. }
  unfold at_boundary. fold (word_head s). rewrite Hhead.
  destruct (word_opt prev); cbn [xorb negb]; [done |].
  pose proof (last_word A HA Hw) as Hlast.
  destruct (last A) as [l|] eqn:Hl; [| done]. cbn [from_option].
  cbn in Hlast. cbn [word_opt]. rewrite Hlast.
  assert (Hrest : "."%char ∉ rest).
  { intros Hin. apply Hdot. rewrite Hs. apply elem_of_app. by right. }
  destruct rest as [|x t]; [done |].
  apply not_elem_of_cons in Hrest as [Hx _].
  cbn [dot_word head word_head word_opt].
  rewrite (proj2 (Ascii.eqb_neq x ".")) by congruence.
  by destruct (is_word x).
Qed.

(** Two patterns with the same anchored matches on texts without a dot
    give the same substitution on such texts. *)
Lemma sub_at_agree (r1 r2 : regex) (repl : list ascii) :
  (∀ p s, "."%char ∉ s → match_here r1 p s = match_here r2 p s) →
  ∀ p s, "."%char ∉ s → sub_at r1 repl p s = sub_at r2 repl p s.
Proof.
  intros Hsame p s. revert p.
  induction s as [s IH] using (induction_ltof1 _ (@length ascii)). unfold ltof in IH.
  intros p Hdot. destruct s as [|c t]; [done |].
  rewrite !sub_at_cons, <- Hsame by done.
  assert (Ht : sub_at r1 repl (Some c) t = sub_at r2 repl (Some c) t).
  { apply IH; [simpl; lia |]. by apply not_elem_of_cons in Hdot as [_ ?]. }
  destruct (match_here r1 p (c :: t)) as [[q rest]|] eqn:Hm; [| by rewrite Ht].
  destruct (length rest <? length (c :: t)) eqn:Hlt; [| by rewrite Ht].
  apply Nat.ltb_lt in Hlt. f_equal. apply IH; [done |].
  apply match_here_suffix in Hm as [pre Hpre]. intros Hin. apply Hdot.
  rewrite Hpre. apply elem_of_app. by right.
Qed.

Lemma word_no_dot (w : list ascii) : forallb is_word w = true → "."%char ∉ w.
Proof.
  intros Hw Hin. rewrite forallb_forall in Hw.
  apply list_elem_of_In, Hw in Hin. by rewrite dot_not_word in Hin.
Qed.

Lemma abbrev_sub_agree (A R : list ascii) (s : list ascii) :
  rule_ok A R = true → "."%char ∉ s →
  re_sub (abbrev_re_spec A) R s = abbrev_sub A R s ∧ "."%char ∉ abbrev_sub A R s.
Proof.
  intros rule Hdot. split.
  - unfold abbrev_sub, re_sub. apply sub_at_agree; [| done].
    intros p x Hx. unfold abbrev_re.
    rewrite match_here_abbrev, match_here_abbrev_spec;
      solve [done | apply (rule_A_nonempty A R rule) | apply (rule_A_word A R rule)].
  - intros [Hin | Hin]%sub_at_elem; [done |].
    by apply (word_no_dot R (rule_R_word A R rule)).
Qed.

Lemma upper_char_dot (c : ascii) : upper_char c = "."%char → c = "."%char.
Proof. destruct c as [[] [] [] [] [] [] [] []]; vm_compute; congruence. Qed.

Lemma clean_chars_agree (s : list ascii) :
  "."%char ∉ s → clean_chars_spec s = clean_chars s.
Proof.
  intros Hdot. destruct s as [|c t]; [done |]. set (s := c :: t) in *.
  unfold clean_chars_spec, clean_chars. fold s. cbv zeta.
  assert (H0 : "."%char ∉ re_sub re_parenthetical [] (strip (upper s))).
  { intros [Hin | Hin]%sub_at_elem; [| by apply not_elem_of_nil in Hin].
    apply strip_elem, list_elem_of_In, in_map_iff in Hin as (x & Hx & Hin).
    apply upper_char_dot in Hx as ->. by apply list_elem_of_In in Hin. }
  destruct (abbrev_sub_agree _ _ _ rule_corp H0) as [E1 H1].
  destruct (abbrev_sub_agree _ _ _ rule_inc H1) as [E2 H2].
  destruct (abbrev_sub_agree _ _ _ rule_llc H2) as [E3 H3].
  destruct (abbrev_sub_agree _ _ _ rule_co H3) as [E4 _].
  change (re_abbrev_spec "CORP") with (abbrev_re_spec (chars "CORP")).
  change (re_abbrev_spec "INC") with (abbrev_re_spec (chars "INC")).
  change (re_abbrev_spec "LLC") with (abbrev_re_spec (chars "LLC")).
  change (re_abbrev_spec "CO") with (abbrev_re_spec (chars "CO")).
  rewrite E1, E2, E3, E4. reflexivity.
Qed.

(** C1, at the input on which the code leaves the claim.  On a name
    without a dot the code does what the claim says; an abbreviation
    written with its dot at the end of a word keeps the dot, where the
    claim has the dotted form rewritten as a whole; a contract written
    "Acme Inc." then finds no customer "Acme Inc". *)
Theorem trailing_dot_of_abbreviation_is_kept :
  (∀ name : string,
     "."%char ∉ chars name → clean_company_name name = clean_company_name_spec name) ∧
  clean_company_name "" = ""%string ∧
  clean_company_name "Acme Inc." = "ACME INC."%string ∧
  clean_company_name_spec "Acme Inc." = "ACME INC"%string ∧
  clean_company_name "Acme Corp." = "ACME CORPORATION."%string ∧
  clean_company_name_spec "Acme Corp." = "ACME CORPORATION"%string ∧
  clean_company_name "Acme Inc" = "ACME INC"%string ∧
  match_customer [(clean_company_name "Acme Inc", "C1"%string)] "Acme Inc." = None.
Proof.
  split.
  - intros name Hdot. unfold clean_company_name, clean_company_name_spec.
    by rewrite clean_chars_agree.
  - split_and!; vm_compute; reflexivity.
Qed.


(* ===================================================================== *)
(** ** More on [load_customers] *)
(* ===================================================================== *)

Section MoreLoadFacts.
Context {F : Type} `{PyFloat F}.

(** Every stored customer is the record of a kept row with that
    identifier. *)
Lemma loaded_customer_from_row (rows : list row) (id : string) (c : customer F) :
  (load_customers rows).1 !! id = Some c →
  ∃ r, r ∈ rows ∧ accepted_row r = true ∧ row_customer_id r = id ∧
       c = new_customer id (row_company_name r) r.
Proof.
  revert id c. induction rows as [|r rows IH] using rev_ind; intros id c.
  - cbn. by rewrite lookup_empty.
  - rewrite load_customers_snoc. destruct (accepted_row r) eqn:Hacc.
    + rewrite load_customer_row_accepted by done. cbn [fst snd].
      rewrite lookup_insert. case_decide as Hid.
      * intros [= <-]. exists r. split_and!; try done.
        -- apply elem_of_app. right. apply list_elem_of_here.
        -- by rewrite Hid.
      * intros (r' & Hin & Hr')%IH. exists r'. split; [| done].
        apply elem_of_app. by left.
    + rewrite load_customer_row_rejected by done.
      intros (r' & Hin & Hr')%IH. exists r'. split; [| done].
      apply elem_of_app. by left.
Qed.

(** Every item of the index was written by a kept row. *)
Lemma index_entry_from_row (rows : list row) (k v : string) :
  (k, v) ∈ (load_customers (F:=F) rows).2 →
  ∃ r, r ∈ rows ∧ accepted_row r = true ∧ row_key r = k ∧ row_customer_id r = v.
Proof.
  revert k v. induction rows as [|r rows IH] using rev_ind; intros k v.
  - cbn. by intros ?%not_elem_of_nil.
  - rewrite load_customers_snoc. destruct (accepted_row r) eqn:Hacc.
    + rewrite load_customer_row_accepted by done. cbn [fst snd].
      intros [[= -> ->] | Hin]%dict_set_In.
      * exists r. split_and!; try done. apply elem_of_app. right. apply list_elem_of_here.
      * apply IH in Hin as (r' & Hin & Hr'). exists r'. split; [| done].
        apply elem_of_app. by left.
    + rewrite load_customer_row_rejected by done.
      intros (r' & Hin & Hr')%IH. exists r'. split; [| done].
      apply elem_of_app. by left.
Qed.

(** The key of every kept row is in the index. *)
Lemma index_has_key (rows : list row) (r : row) :
  r ∈ rows → accepted_row r = true →
  is_Some (dict_get (row_key r) (load_customers (F:=F) rows).2).
Proof.
  induction rows as [|x rows IH] using rev_ind; [by intros ?%not_elem_of_nil |].
  intros Hin Hacc. rewrite load_customers_snoc.
  destruct (accepted_row x) eqn:Hx.
  - rewrite load_customer_row_accepted by done. cbn [fst snd].
    destruct (decide (row_key x = row_key r)) as [Heq | Hne].
    + rewrite <- Heq, dict_get_set_eq. eauto.
    + rewrite dict_get_set_ne by done. apply IH; [| done].
      apply elem_of_app in Hin as [? | ->%list_elem_of_singleton]; done.
  - rewrite load_customer_row_rejected by done. apply IH; [| done].
    apply elem_of_app in Hin as [? | ->%list_elem_of_singleton]; [done | congruence].
Qed.

(** The record stored under an identifier is the one of the last kept
    row with that identifier. *)
Lemma customer_last_row (rows1 rows2 : list row) (r : row) :
  accepted_row r = true →
  (∀ r', r' ∈ rows2 → accepted_row r' = true → row_customer_id r' ≠ row_customer_id r) →
  (load_customers (F:=F) (rows1 ++ r :: rows2)).1 !! row_customer_id r
    = Some (new_customer (row_customer_id r) (row_company_name r) r).
Proof.
  intros Hacc. induction rows2 as [|r2 rows2 IH] using rev_ind; intros Hlater.
  - rewrite load_customers_snoc, load_customer_row_accepted by done.
    apply lookup_insert_eq.
  - replace (rows1 ++ r :: rows2 ++ [r2]) with ((rows1 ++ r :: rows2) ++ [r2])
      by (by rewrite <- app_assoc).
    rewrite load_customers_snoc. destruct (accepted_row r2) eqn:Hacc2.
    + rewrite load_customer_row_accepted by done. cbn [fst snd].
      rewrite lookup_insert_ne.
      * apply IH. intros r' Hin. apply Hlater, elem_of_app. by left.
      * apply Hlater; [| done]. apply elem_of_app. right. apply list_elem_of_here.
    + rewrite load_customer_row_rejected by done.
      apply IH. intros r' Hin. apply Hlater, elem_of_app. by left.
Qed.

Lemma load_customers_filter (rows : list row) :
  load_customers (F:=F) (filter (fun r => accepted_row r = true) rows)
    = load_customers rows.
Proof.
  induction rows as [|r rows IH] using rev_ind; [done |].
  rewrite filter_app, filter_cons, filter_nil.
  destruct (accepted_row r) eqn:Hacc.
  - rewrite decide_True by done. by rewrite !load_customers_snoc, IH.
  - rewrite decide_False by congruence. rewrite app_nil_r, IH.
    by rewrite load_customers_snoc, load_customer_row_rejected.
Qed.
End MoreLoadFacts.

(** X1.  [load_customers] ignores the rows whose identifier or name is
    blank: it gives the same customers and the same index as on the kept
    rows alone, and every stored customer has a non-blank identifier (its
    key) and a non-blank, trimmed name. *)
Theorem load_customers_ignores_blank_rows {F : Type} `{PyFloat F} (rows : list row) :
  load_customers (F:=F) (filter (fun r => accepted_row r = true) rows)
    = load_customers rows ∧
  ∀ id c, (load_customers (F:=F) rows).1 !! id = Some c →
    simpro_customer_id c = id ∧ str_empty id = false ∧
    str_empty (company_name c) = false ∧
    company_name_cleaned c = clean_company_name (company_name c) ∧
    ∃ r, r ∈ rows ∧ company_name c = str_strip (row_get r "Customer" "") ∧
         id = str_strip (row_get r "Customer ID" "").
Proof.
  split; [apply load_customers_filter |].
  intros id c (r & Hin & Hacc & Hid & ->)%loaded_customer_from_row.
  unfold accepted_row in Hacc. apply negb_true_iff, orb_false_iff in Hacc as [Hi Hn].
  rewrite Hid in Hi. cbn [new_customer simpro_customer_id company_name company_name_cleaned].
  split_and!; try done. exists r. by split_and!.
Qed.

(** X2.  When a customer identifier occurs in several kept rows, the
    customer stored under it is the record of the last of them. *)
Theorem repeated_customer_id_keeps_last_row {F : Type} `{PyFloat F}
    (rows1 rows2 : list row) (r : row) :
  accepted_row r = true →
  (∀ r', r' ∈ rows2 → accepted_row r' = true → row_customer_id r' ≠ row_customer_id r) →
  (load_customers (F:=F) (rows1 ++ r :: rows2)).1 !! row_customer_id r
    = Some (new_customer (row_customer_id r) (row_company_name r) r).
Proof. apply customer_last_row. Qed.

Lemma repeated_customer_id_keeps_last_row_witness :
  accepted_row ex_repeated_row = true ∧
  (∀ r', r' ∈ [ex_other_row] → accepted_row r' = true →
         row_customer_id r' ≠ row_customer_id ex_repeated_row) ∧
  (load_customers (F:=DecFloat.t) ([ex_first_row] ++ ex_repeated_row :: [ex_other_row])).1
    !! row_customer_id ex_repeated_row
  = Some (new_customer (row_customer_id ex_repeated_row)
            (row_company_name ex_repeated_row) ex_repeated_row).
Proof.
  assert (Hacc : accepted_row ex_repeated_row = true) by (vm_compute; reflexivity).
  assert (Hlater : ∀ r', r' ∈ [ex_other_row] → accepted_row r' = true →
                         row_customer_id r' ≠ row_customer_id ex_repeated_row).
  { intros r' Hin _. apply list_elem_of_singleton in Hin as ->. vm_compute. discriminate. }
  split_and!; [exact Hacc | exact Hlater |].
  exact (repeated_customer_id_keeps_last_row (F:=DecFloat.t)
           [ex_first_row] [ex_other_row] ex_repeated_row Hacc Hlater).
Defined.

(** X3.  A contract name with the normalized name of a kept row of the
    customer file is matched by the exact lookup, whatever else the
    index holds, to a loaded customer whose row has that normalized
    name. *)
Theorem customer_file_name_always_matches {F : Type} `{PyFloat F}
    (rows : list row) (r : row) (customer_name : string) :
  r ∈ rows → accepted_row r = true →
  clean_company_name customer_name = row_key r →
  ∃ id, match_customer (load_customers (F:=F) rows).2 customer_name = Some id ∧
        dict_get (row_key r) (load_customers (F:=F) rows).2 = Some id ∧
        is_Some ((load_customers (F:=F) rows).1 !! id) ∧
        ∃ r', r' ∈ rows ∧ accepted_row r' = true ∧
              row_key r' = row_key r ∧ row_customer_id r' = id.
Proof.
  intros Hin Hacc Hname. destruct (index_has_key (F:=F) rows r Hin Hacc) as [id Hid].
  exists id. unfold match_customer. rewrite Hname, Hid.
  split_and!; [done | done | |].
  - apply dict_get_In in Hid. by eapply index_values_loaded.
  - apply dict_get_In in Hid. by apply (index_entry_from_row (F:=F)).
Qed.

Lemma customer_file_name_always_matches_witness :
  ex_first_row ∈ [ex_first_row; ex_repeated_row; ex_other_row] ∧
  accepted_row ex_first_row = true ∧
  clean_company_name "  ACME   corp" = row_key ex_first_row ∧
  ∃ id,
    match_customer
      (load_customers (F:=DecFloat.t) [ex_first_row; ex_repeated_row; ex_other_row]).2
      "  ACME   corp" = Some id ∧
    dict_get (row_key ex_first_row)
      (load_customers (F:=DecFloat.t) [ex_first_row; ex_repeated_row; ex_other_row]).2
      = Some id ∧
    is_Some ((load_customers (F:=DecFloat.t)
                [ex_first_row; ex_repeated_row; ex_other_row]).1 !! id) ∧
    ∃ r', r' ∈ [ex_first_row; ex_repeated_row; ex_other_row] ∧
          accepted_row r' = true ∧
          row_key r' = row_key ex_first_row ∧ row_customer_id r' = id.
Proof.
  assert (Hin : ex_first_row ∈ [ex_first_row; ex_repeated_row; ex_other_row])
    by apply list_elem_of_here.
  assert (Hacc : accepted_row ex_first_row = true) by (vm_compute; reflexivity).
  assert (Hname : clean_company_name "  ACME   corp" = row_key ex_first_row)
    by (vm_compute; reflexivity).
  split_and!; [exact Hin | exact Hacc | exact Hname |].
  exact (customer_file_name_always_matches (F:=DecFloat.t)
           [ex_first_row; ex_repeated_row; ex_other_row] ex_first_row "  ACME   corp"
           Hin Hacc Hname).
Defined.


Lemma NoDup_fmap_same {A B : Type} (f : A → B) (l : list A) (x y : A) :
  NoDup (f <$> l) → x ∈ l → y ∈ l → f x = f y → x = y.
Proof.
  induction l as [|a l IH]; [by intros _ ?%not_elem_of_nil |].
  rewrite fmap_cons. intros [Ha Hl]%NoDup_cons.
  intros [-> | Hx]%elem_of_cons [-> | Hy]%elem_of_cons Hf; [done | | | by apply IH].
  - exfalso. apply Ha. rewrite Hf. by apply list_elem_of_fmap_2.
  - exfalso. apply Ha. rewrite <- Hf. by apply list_elem_of_fmap_2.
Qed.

(** X4.  When no identifier is repeated among the kept rows, every item
    of the index points to a stored customer whose normalized name is
    the item's key. *)
Theorem index_agrees_with_customers {F : Type} `{PyFloat F} (rows : list row) :
  NoDup (row_customer_id <$> filter (fun r => accepted_row r = true) rows) →
  ∀ k v, (k, v) ∈ (load_customers (F:=F) rows).2 →
    ∃ c, (load_customers (F:=F) rows).1 !! v = Some c ∧
         simpro_customer_id c = v ∧ company_name_cleaned c = k.
Proof.
  intros Hnd k v Hin.
  destruct (index_values_loaded rows k v Hin) as [c Hc]. exists c. split; [done |].
  apply index_entry_from_row in Hin as (r & Hr & Hacc & <- & <-).
  apply loaded_customer_from_row in Hc as (r' & Hr' & Hacc' & Hid & ->).
  assert (r' = r) as ->.
  { apply (NoDup_fmap_same row_customer_id _ _ _ Hnd); [| | done];
      by apply list_elem_of_filter. }
  done.
Qed.

Lemma index_agrees_with_customers_witness :
  NoDup (row_customer_id <$> filter (fun r => accepted_row r = true) ex_customer_rows) ∧
  ∀ k v, (k, v) ∈ (load_customers (F:=DecFloat.t) ex_customer_rows).2 →
    ∃ c, (load_customers (F:=DecFloat.t) ex_customer_rows).1 !! v = Some c ∧
         simpro_customer_id c = v ∧ company_name_cleaned c = k.
Proof.
  assert (Hnd : NoDup (row_customer_id <$>
                         filter (fun r => accepted_row r = true) ex_customer_rows)).
  { apply (bool_decide_unpack _). vm_compute. reflexivity. }
  split; [exact Hnd |].
  exact (index_agrees_with_customers (F:=DecFloat.t) ex_customer_rows Hnd).
Defined.

(* ===================================================================== *)
(** ** More on the contract loop *)
(* ===================================================================== *)

Section RunFacts.
Context {F : Type} `{PyFloat F}.
Variable uuid4 : nat -> string.
Variable reformat_date : string -> string -> option string.

Local Abbreviation step := (match_contract_row uuid4 reformat_date).
Local Abbreviation steps := (match_contract_rows uuid4 reformat_date).
Local Abbreviation record := (contract_of_row uuid4 reformat_date).

(** The state the loop starts from. *)
Local Abbreviation start cs :=
  {| st_customers := cs; st_contracts := []; st_unmatched := []; st_matched_count := 0 |}.

(** A run is the loop on the loaded customers followed by the tiers. *)
Lemma run_unfold (customer_rows contract_rows : list row) :
  ∃ st,
    steps (load_customers (F:=F) customer_rows).2
          (start (load_customers (F:=F) customer_rows).1) contract_rows = Some st ∧
    run uuid4 reformat_date customer_rows contract_rows
      = Some (retier <$> st_customers st, st_contracts st).
Proof.
  unfold run, load_and_match_contracts.
  destruct (load_customers customer_rows) as [cs0 m] eqn:Hload. cbn [fst snd].
  assert (Hm : ∀ k v, (k, v) ∈ m → is_Some (cs0 !! v)).
  { intros k v Hin. assert (Hv := index_values_loaded (F:=F) customer_rows k v).
    rewrite Hload in Hv. auto. }
  destruct (match_contract_rows_succeeds uuid4 reformat_date m contract_rows
              (start cs0) Hm) as [st Hst].
  exists st. by rewrite Hst.
Qed.

(** A property of customer records that linking a contract keeps is kept
    by the loop. *)
Lemma match_contract_rows_lift (P : string → customer F → Prop)
    (m : name_map) (rows : list row) (st st' : match_state) :
  (∀ id c k, P id c → P id (link_contract c k)) →
  steps m st rows = Some st' →
  (∀ id c, st_customers st !! id = Some c → P id c) →
  ∀ id c, st_customers st' !! id = Some c → P id c.
Proof.
  intros Hlink. revert st. induction rows as [|r rows IH]; intros st; cbn.
  - by intros [= <-].
  - destruct (step m st r) as [st1|] eqn:Hstep; [| done].
    intros Hrest Hinv. apply (IH _ Hrest).
    apply match_contract_row_cases in Hstep
      as [[_ ->] | (_ & _ & [(cid & c0 & _ & Hc0 & ->) | [_ ->]])]; [done | | done].
    intros id c. rewrite lookup_insert. case_decide as Hid; [| by apply Hinv].
    intros [= <-]. subst cid. apply Hlink. by apply Hinv.
Qed.

Lemma run_lift (P : string → customer F → Prop)
    (customer_rows contract_rows : list row) :
  (∀ id c k, P id c → P id (link_contract c k)) →
  (∀ id c, P id c → P id (retier c)) →
  (∀ id c, (load_customers (F:=F) customer_rows).1 !! id = Some c → P id c) →
  ∃ cs ks,
    run uuid4 reformat_date customer_rows contract_rows = Some (cs, ks) ∧
    ∀ id c, cs !! id = Some c → P id c.
Proof.
  intros Hlink Htier Hload.
  destruct (run_unfold customer_rows contract_rows) as (st & Hst & Hrun).
  eexists _, _. split; [exact Hrun |].
  intros id c. rewrite lookup_fmap.
  destruct (st_customers st !! id) as [c0|] eqn:Hc0; [| done].
  intros [= <-]. apply Htier.
  by apply (match_contract_rows_lift P _ _ _ _ Hlink Hst Hload).
Qed.

(** *** Statistics *)

Lemma active_links_link (c : customer F) (k : contract F) :
  active_links (link_contract c k) =
    active_links c ++ (if bool_decide (contract_status k = "active"%string) then [k] else []).
Proof.
  unfold active_links. cbn [link_contract contracts].
  rewrite filter_app, filter_cons, filter_nil.
  by case_bool_decide; [rewrite decide_True | rewrite decide_False].
Qed.

Lemma active_emails_link (c : customer F) (k : contract F) :
  active_emails (link_contract c k) =
    active_emails c ++
      (if bool_decide (contract_status k = "active"%string)
          && negb (str_empty (contract_email k))
       then [contract_email k] else []).
Proof.
  unfold active_emails. cbn [link_contract contracts].
  rewrite filter_app, filter_cons, filter_nil, fmap_app.
  case_bool_decide as Hact; destruct (str_empty (contract_email k)) eqn:Hmail; cbn [andb negb].
  - rewrite decide_False; [done | intros [_ ?]; congruence].
  - by rewrite decide_True.
  - rewrite decide_False; [done | intros [? _]; congruence].
  - rewrite decide_False; [done | intros [? _]; congruence].
Qed.

Lemma link_contract_statistics (c : customer F) (k : contract F) :
  statistics_consistent c → statistics_consistent (link_contract c k).
Proof.
  intros (Hcount & Hflag & Hmail). unfold statistics_consistent.
  rewrite active_links_link, active_emails_link.
  cbn [link_contract active_contract_count has_active_contracts latest_contract_email].
  rewrite Hcount, Hflag, Hmail.
  destruct (bool_decide (contract_status k = "active"%string)) eqn:Hact.
  - split_and!.
    + rewrite length_app. done.
    + symmetry. apply bool_decide_eq_true_2. by destruct (active_links c).
    + destruct (str_empty (contract_email k)); cbn [andb negb].
      * by rewrite app_nil_r.
      * by rewrite last_snoc.
  - cbn [andb]. by rewrite !app_nil_r.
Qed.

Lemma run_statistics (customer_rows contract_rows : list row) :
  ∃ cs ks,
    run uuid4 reformat_date customer_rows contract_rows = Some (cs, ks) ∧
    ∀ id c, cs !! id = Some c → statistics_consistent c.
Proof.
  apply (run_lift (fun _ c => statistics_consistent c)).
  - intros _ c k. apply link_contract_statistics.
  - intros _ c Hc. exact Hc.
  - intros id c (r & _ & _ & _ & ->)%loaded_customer_from_row. done.
Qed.

(** X5.  After a run, the [active_contract_count] of every customer is
    the number of active contracts in its linked collection, and
    [has_active_contracts] is set exactly when there is one. *)
Theorem active_count_is_number_of_active_links (customer_rows contract_rows : list row) :
  ∃ cs ks,
    run uuid4 reformat_date customer_rows contract_rows = Some (cs, ks) ∧
    ∀ id c, cs !! id = Some c →
      active_contract_count c = length (active_links c) ∧
      (has_active_contracts c = true ↔ ∃ k, k ∈ contracts c ∧ contract_status k = "active"%string).
Proof.
  destruct (run_statistics customer_rows contract_rows) as (cs & ks & Hrun & Hst).
  exists cs, ks. split; [done |]. intros id c Hc.
  destruct (Hst id c Hc) as (Hcount & Hflag & _). split; [done |].
  rewrite Hflag, bool_decide_eq_true. unfold active_links. split.
  - destruct (filter _ (contracts c)) as [|k l] eqn:Hf; [done |]. intros _.
    assert (Hin : k ∈ filter (fun k => contract_status k = "active"%string) (contracts c))
      by (rewrite Hf; apply list_elem_of_here).
    apply list_elem_of_filter in Hin as [Hact Hin]. by exists k.
  - intros (k & Hk & Hact) Hnil.
    assert (Hin : k ∈ filter (fun k => contract_status k = "active"%string) (contracts c))
      by by apply list_elem_of_filter.
    rewrite Hnil in Hin. by apply not_elem_of_nil in Hin.
Qed.

(** X6.  After a run, the [latest_contract_email] of every customer is
    the email of the last linked contract that is active and carries an
    email, and is empty when there is none. *)
Theorem latest_email_is_last_active_email (customer_rows contract_rows : list row) :
  ∃ cs ks,
    run uuid4 reformat_date customer_rows contract_rows = Some (cs, ks) ∧
    ∀ id c, cs !! id = Some c →
      latest_contract_email c = default ""%string (last (active_emails c)).
Proof.
  destruct (run_statistics customer_rows contract_rows) as (cs & ks & Hrun & Hst).
  exists cs, ks. split; [done |]. intros id c Hc. apply (Hst id c Hc).
Qed.

(** X7.  After a run, the [service_tier] of every customer is the tier of
    the sum of its active linked contracts, the linked contracts being
    those of the returned list whose back-reference is this customer. *)
Theorem service_tier_is_tier_of_active_sum (customer_rows contract_rows : list row) :
  ∃ cs ks,
    run uuid4 reformat_date customer_rows contract_rows = Some (cs, ks) ∧
    ∀ id c, cs !! id = Some c →
      service_tier c = determine_service_tier (sum_active (linked_to id ks)).
Proof.
  destruct (run_unfold customer_rows contract_rows) as (st & Hst & Hrun).
  eexists _, _. split; [exact Hrun |].
  intros id c. rewrite lookup_fmap.
  destruct (st_customers st !! id) as [c0|] eqn:Hc0; [| done].
  intros [= <-]. cbn [retier service_tier].
  apply match_contract_rows_aggregates in Hst.
  - destruct (Hst _ _ Hc0) as [Hlinked Htot]. by rewrite Htot, Hlinked.
  - intros id' c' Hc'. cbn in Hc'.
    destruct (loaded_customers_fresh customer_rows id' c' Hc') as [-> ->]. done.
Qed.

(** X8.  A run keeps the set of customer keys, and changes none of the
    fields of a customer that were read from the customer file. *)
Theorem run_keeps_customer_identity (customer_rows contract_rows : list row) :
  ∃ cs ks,
    run uuid4 reformat_date customer_rows contract_rows = Some (cs, ks) ∧
    (∀ id, is_Some (cs !! id) ↔ is_Some ((load_customers (F:=F) customer_rows).1 !! id)) ∧
    ∀ id c0 c, (load_customers (F:=F) customer_rows).1 !! id = Some c0 →
               cs !! id = Some c → same_identity c0 c.
Proof.
  destruct (run_unfold customer_rows contract_rows) as (st & Hst & Hrun).
  eexists _, _. split; [exact Hrun |]. split.
  - intros id. rewrite lookup_fmap, fmap_is_Some.
    apply (match_contract_rows_keys _ _ _ _ _ _ id Hst).
  - intros id c0 c Hc0. rewrite lookup_fmap.
    destruct (st_customers st !! id) as [c1|] eqn:Hc1; [| done]. intros [= <-].
    assert (Hlink : ∀ i c k,
              (∃ c0', (load_customers (F:=F) customer_rows).1 !! i = Some c0' ∧
                      same_identity c0' c) →
              ∃ c0', (load_customers (F:=F) customer_rows).1 !! i = Some c0' ∧
                     same_identity c0' (link_contract c k)).
    { intros i c k (c0' & Hl & Hs). exists c0'. split; [done | exact Hs]. }
    destruct (match_contract_rows_lift _ _ _ _ _ Hlink Hst) with (id := id) (c := c1)
      as (c0' & Hl & Hs); [| done |].
    + intros i c Hc. exists c. by split_and!.
    + rewrite Hc0 in Hl. injection Hl as <-. exact Hs.
Qed.
End RunFacts.


Section ContractListFacts.
Context {F : Type} `{PyFloat F}.
Variable uuid4 : nat -> string.
Variable reformat_date : string -> string -> option string.

Local Abbreviation step := (match_contract_row uuid4 reformat_date).
Local Abbreviation steps := (match_contract_rows uuid4 reformat_date).
Local Abbreviation record := (contract_of_row uuid4 reformat_date).

(** X9.  The returned contract list holds one record per contract row
    that is not skipped, in row order, the [n]-th built as the [n]-th
    record of the run; rows that match no customer are kept, with an
    unset back-reference. *)
Theorem contracts_are_the_kept_rows (customer_rows contract_rows : list row) :
  ∃ cs ks,
    run uuid4 reformat_date customer_rows contract_rows = Some (cs, ks) ∧
    ks = imap (fun n r => record (load_customers (F:=F) customer_rows).2 n r)
              (filter (fun r => skipped_row r = false) contract_rows) ∧
    length ks = length (filter (fun r => skipped_row r = false) contract_rows).
Proof.
  destruct (run_unfold uuid4 reformat_date customer_rows contract_rows) as (st & Hst & Hrun).
  eexists _, _. split; [exact Hrun |].
  apply match_contract_rows_records in Hst. cbn in Hst.
  split; [done |]. by rewrite Hst, length_imap.
Qed.

(** The bookkeeping of the loop: the count of matched contracts and the
    list of unmatched ones. *)
Lemma match_contract_row_accounting (m : name_map) (st st' : match_state) (r : row) :
  step m st r = Some st' →
  st_matched_count st =
    length (filter (fun k => is_Some (truthy_id (matched_customer_id k))) (st_contracts st)) ∧
  st_unmatched st =
    unmatched_entry <$>
      filter (fun k => truthy_id (matched_customer_id k) = None) (st_contracts st) ∧
  st_matched_count st + length (st_unmatched st) = length (st_contracts st) →
  st_matched_count st' =
    length (filter (fun k => is_Some (truthy_id (matched_customer_id k))) (st_contracts st')) ∧
  st_unmatched st' =
    unmatched_entry <$>
      filter (fun k => truthy_id (matched_customer_id k) = None) (st_contracts st') ∧
  st_matched_count st' + length (st_unmatched st') = length (st_contracts st').
Proof.
  unfold match_contract_row. destruct (skipped_row r); [by intros [= <-] |].
  set (k := new_contract _ _ _ _ _ _ _).
  assert (Hk : matched_customer_id k = match_customer m (str_strip (row_get r "Customer" "")))
    by done.
  rewrite <- Hk. intros Hst (Hcount & Hun & Hsum).
  destruct (truthy_id (matched_customer_id k)) as [id|] eqn:Hid.
  - destruct (st_customers st !! id) as [c|]; [| done].
    injection Hst as <-. cbn [st_matched_count st_unmatched st_contracts].
    rewrite !filter_app, !filter_cons, !filter_nil.
    rewrite decide_True by (rewrite Hid; eauto).
    rewrite decide_False by (rewrite Hid; done).
    rewrite !length_app, app_nil_r. cbn [length]. split_and!; [lia | done | lia].
  - injection Hst as <-. cbn [st_matched_count st_unmatched st_contracts].
    rewrite !filter_app, !filter_cons, !filter_nil.
    rewrite decide_False by (rewrite Hid; by intros [? ?]).
    rewrite decide_True by done.
    rewrite app_nil_r, fmap_app, !length_app. cbn [length fmap list_fmap].
    split_and!; [lia | by rewrite Hun | lia].
Qed.

(** X10.  When the loop ends, [matched_count] is the number of contracts
    with a set back-reference, the unmatched list holds the name,
    contract name and value of the others in order, and the two add up
    to the number of contracts. *)
Theorem matched_and_unmatched_add_up (customer_rows contract_rows : list row) :
  ∃ st,
    steps (load_customers (F:=F) customer_rows).2
      {| st_customers := (load_customers (F:=F) customer_rows).1; st_contracts := [];
         st_unmatched := []; st_matched_count := 0 |} contract_rows = Some st ∧
    st_matched_count st =
      length (filter (fun k => is_Some (truthy_id (matched_customer_id k))) (st_contracts st)) ∧
    st_unmatched st =
      unmatched_entry <$>
        filter (fun k => truthy_id (matched_customer_id k) = None) (st_contracts st) ∧
    st_matched_count st + length (st_unmatched st) = length (st_contracts st).
Proof.
  destruct (run_unfold uuid4 reformat_date customer_rows contract_rows) as (st & Hst & _).
  exists st. split; [exact Hst |].
  revert Hst. generalize (load_customers (F:=F) customer_rows).2 as m.
  intros m.
  assert (Hgen : ∀ rows st0 st1,
            steps m st0 rows = Some st1 →
            st_matched_count st0 =
              length (filter (fun k => is_Some (truthy_id (matched_customer_id k)))
                        (st_contracts st0)) ∧
            st_unmatched st0 =
              unmatched_entry <$>
                filter (fun k => truthy_id (matched_customer_id k) = None) (st_contracts st0) ∧
            st_matched_count st0 + length (st_unmatched st0) = length (st_contracts st0) →
            st_matched_count st1 =
              length (filter (fun k => is_Some (truthy_id (matched_customer_id k)))
                        (st_contracts st1)) ∧
            st_unmatched st1 =
              unmatched_entry <$>
                filter (fun k => truthy_id (matched_customer_id k) = None) (st_contracts st1) ∧
            st_matched_count st1 + length (st_unmatched st1) = length (st_contracts st1)).
  { induction rows as [|r rows IH]; intros st0 st1; cbn [match_contract_rows].
    - by intros [= <-].
    - destruct (step m st0 r) as [st2|] eqn:Hstep; [| done].
      intros Hrest Hinv. apply (IH _ _ Hrest).
      by apply (match_contract_row_accounting m st0 st2 r). }
  intros Hst. apply (Hgen _ _ _ Hst). done.
Qed.
End ContractListFacts.

(* ===================================================================== *)
(** ** The matcher, candidate by candidate *)
(* ===================================================================== *)

Lemma fuzzy_scan_Some (cleaned id : string) (items : name_map) :
  fuzzy_scan cleaned items = Some id ↔
  ∃ pre stored post,
    items = pre ++ (stored, id) :: post ∧
    candidate_match cleaned stored = true ∧
    Forall (fun it => candidate_match cleaned it.1 = false) pre.
Proof.
  unfold candidate_match.
  induction items as [|[s i] items IH]; cbn [fuzzy_scan].
  - split; [done |]. intros (pre & stored & post & Heq & _). by destruct pre.
  - destruct (containment_match cleaned s || suffix_match cleaned s) eqn:Hc.
    + assert (Hres : (if containment_match cleaned s then Some i
                      else if suffix_match cleaned s then Some i
                      else fuzzy_scan cleaned items) = Some i).
      { by destruct (containment_match cleaned s), (suffix_match cleaned s). }
      rewrite Hres. split.
      * intros [= <-]. exists [], s, items. by split_and!.
      * intros (pre & stored & post & Heq & Hm & Hpre).
        destruct pre as [|[s' i'] pre]; cbn in Heq; [congruence |].
        injection Heq as -> -> ->. apply Forall_cons in Hpre as [Hs _].
        cbn in Hs. congruence.
    + apply orb_false_iff in Hc as [Hc1 Hc2]. rewrite Hc1, Hc2, IH. split.
      * intros (pre & stored & post & -> & Hm & Hpre).
        exists ((s, i) :: pre), stored, post. split_and!; [done | done |].
        apply Forall_cons. split; [| done]. cbn. by rewrite Hc1, Hc2.
      * intros (pre & stored & post & Heq & Hm & Hpre).
        destruct pre as [|[s' i'] pre]; cbn in Heq.
        -- injection Heq as -> -> ->. apply orb_true_iff in Hm as [Hm | Hm]; congruence.
        -- injection Heq as -> -> ->. apply Forall_cons in Hpre as [_ Hpre].
           exists pre, stored, post. by split_and!.
Qed.

Lemma fuzzy_scan_None (cleaned : string) (items : name_map) :
  fuzzy_scan cleaned items = None ↔
  Forall (fun it => candidate_match cleaned it.1 = false) items.
Proof.
  unfold candidate_match.
  induction items as [|[s i] items IH]; cbn [fuzzy_scan]; [done |].
  rewrite Forall_cons. cbn [fst].
  destruct (containment_match cleaned s); cbn [orb]; [split; [done | by intros [? _]] |].
  destruct (suffix_match cleaned s); [split; [done | by intros [? _]] |].
  rewrite IH. tauto.
Qed.

(** X11.  [matched_customer_id] is the index value of the normalized
    name when that is a key; otherwise it is the identifier of the first
    item, in index order, that passes the containment test or the
    suffix-stripped comparison; and it is unset exactly when the name is
    no key and no item passes. *)
Theorem matcher_takes_first_candidate
    (customer_name_map : name_map) (customer_name : string) :
  (∀ id, match_customer customer_name_map customer_name = Some id ↔
     dict_get (clean_company_name customer_name) customer_name_map = Some id ∨
     (dict_get (clean_company_name customer_name) customer_name_map = None ∧
      ∃ pre stored post,
        customer_name_map = pre ++ (stored, id) :: post ∧
        candidate_match (clean_company_name customer_name) stored = true ∧
        Forall (fun it => candidate_match (clean_company_name customer_name) it.1 = false)
               pre)) ∧
  (match_customer customer_name_map customer_name = None ↔
     dict_get (clean_company_name customer_name) customer_name_map = None ∧
     Forall (fun it => candidate_match (clean_company_name customer_name) it.1 = false)
            customer_name_map).
Proof.
  unfold match_customer.
  destruct (dict_get _ customer_name_map) as [v|] eqn:Hg; split.
  - intros id. split; [by left | intros [? | [? _]]; done].
  - split; [done | by intros [? _]].
  - intros id. rewrite fuzzy_scan_Some. split; [by right | intros [? | [_ ?]]; done].
  - rewrite fuzzy_scan_None. split; [done | by intros [_ ?]].
Qed.


(* ===================================================================== *)
(** ** The parenthetical removal and text without parentheses *)
(* ===================================================================== *)

Lemma strip_parens_prefix (w v : list ascii) :
  "("%char ∉ w → strip_parens (w ++ v) = w ++ strip_parens v.
Proof.
  induction w as [|c w IH]; [done |]. intros [Hc Hw]%not_elem_of_cons.
  cbn [app]. rewrite strip_parens_cons.
  rewrite (proj2 (Ascii.eqb_neq c "(")) by congruence.
  by rewrite IH.
Qed.

Lemma after_close_app (t z : list ascii) :
  after_close (t ++ z) =
    match after_close t with
    | Some r => Some (r ++ z)
    | None => after_close z
    end.
Proof.
  induction t as [|x t IH]; [done |]. cbn [app after_close].
  by destruct (Ascii.eqb x ")").
Qed.

Lemma after_close_absent (w : list ascii) : ")"%char ∉ w → after_close w = None.
Proof.
  intros Hw. apply after_close_None.
  destruct (mem ")" w) eqn:Hm; [by apply mem_spec in Hm | done].
Qed.

(** A stretch of text without parentheses is either removed whole, with
    the parenthetical around it, or kept whole. *)
Lemma strip_parens_infix (u v : list ascii) :
  ∃ p1,
    (∀ w, "("%char ∉ w → ")"%char ∉ w → strip_parens (u ++ w ++ v) = p1) ∨
    (∀ w, "("%char ∉ w → ")"%char ∉ w →
          strip_parens (u ++ w ++ v) = p1 ++ w ++ strip_parens v).
Proof.
  induction u as [u IH] using (induction_ltof1 _ (@length ascii)). unfold ltof in IH.
  destruct u as [|c t].
  - exists []. right. intros w Hw _. cbn [app]. by apply strip_parens_prefix.
  - destruct (Ascii.eqb c "(") eqn:Hc.
    + destruct (after_close t) as [r|] eqn:Hr.
      * destruct (IH r) as [p1 Hp1]; [apply after_close_shorter in Hr; simpl; lia |].
        exists p1. destruct Hp1 as [Hp1 | Hp1]; [left | right]; intros w Hw1 Hw2;
          cbn [app]; rewrite strip_parens_cons, Hc, after_close_app, Hr; auto.
      * destruct (after_close v) as [r'|] eqn:Hv.
        -- exists (strip_parens r'). left. intros w Hw1 Hw2.
           cbn [app]. rewrite strip_parens_cons, Hc, after_close_app, Hr.
           by rewrite after_close_app, (after_close_absent w Hw2), Hv.
        -- destruct (IH t) as [p1 Hp1]; [simpl; lia |].
           exists (c :: p1). destruct Hp1 as [Hp1 | Hp1]; [left | right]; intros w Hw1 Hw2;
             cbn [app]; rewrite strip_parens_cons, Hc, after_close_app, Hr;
             rewrite after_close_app, (after_close_absent w Hw2), Hv;
             by rewrite Hp1.
    + destruct (IH t) as [p1 Hp1]; [simpl; lia |].
      exists (c :: p1). destruct Hp1 as [Hp1 | Hp1]; [left | right]; intros w Hw1 Hw2;
        cbn [app]; rewrite strip_parens_cons, Hc; by rewrite Hp1.
Qed.

Lemma space_not_open (c : ascii) : is_space c = true → c ≠ "("%char.
Proof. intros Hc ->. done. Qed.

Lemma space_not_close (c : ascii) : is_space c = true → c ≠ ")"%char.
Proof. intros Hc ->. done. Qed.

Lemma spaces_no_open (w : list ascii) :
  Forall (fun c => is_space c = true) w → "("%char ∉ w.
Proof.
  intros Hw Hin. rewrite Forall_forall in Hw. by apply Hw in Hin.
Qed.

Lemma spaces_no_close (w : list ascii) :
  Forall (fun c => is_space c = true) w → ")"%char ∉ w.
Proof.
  intros Hw Hin. rewrite Forall_forall in Hw. by apply Hw in Hin.
Qed.

(* ===================================================================== *)
(** ** Whitespace that the squeeze does not see *)
(* ===================================================================== *)

Lemma glue_assoc (a x y : list ascii) : glue (glue a x) y = glue a (glue x y).
Proof.
  destruct a as [|c a]; [done |]. destruct x as [|d x]; [done |].
  destruct y as [|e y]; [done |]. cbn [glue app]. f_equal.
  by rewrite <- !app_assoc.
Qed.

Lemma squeeze_app (u v : list ascii) (sp : ascii) :
  is_space sp = true →
  squeeze (u ++ sp :: v) = glue (squeeze u) (squeeze v).
Proof.
  intros Hsp.
  induction u as [u IH] using (induction_ltof1 _ (@length ascii)). unfold ltof in IH.
  destruct (first_space u) as [Hu | (a & sp1 & b & -> & Ha & Hsp1)].
  - rewrite squeeze_app_space by done. by rewrite (squeeze_space_free u).
  - rewrite <- app_assoc. cbn [app].
    rewrite (squeeze_app_space a (b ++ sp :: v) sp1) by done.
    rewrite (squeeze_app_space a b sp1) by done.
    rewrite IH by (rewrite length_app; simpl; lia).
    by rewrite glue_assoc.
Qed.

Lemma squeeze_cons_space (sp : ascii) (v : list ascii) :
  is_space sp = true → squeeze (sp :: v) = squeeze v.
Proof. intros Hsp. exact (squeeze_app [] v sp Hsp). Qed.

Lemma squeeze_snoc_space (u : list ascii) (sp : ascii) :
  is_space sp = true → squeeze (u ++ [sp]) = squeeze u.
Proof. intros Hsp. rewrite (squeeze_app u [] sp Hsp). apply glue_nil_r. Qed.

Lemma ws_step_squeeze (x y : list ascii) : ws_step x y → squeeze x = squeeze y.
Proof.
  intros [sp v Hsp | u sp Hsp | u sp sp' v Hsp Hsp' | u sp sp2 v Hsp Hsp2].
  - by apply squeeze_cons_space.
  - by apply squeeze_snoc_space.
  - by rewrite !squeeze_app.
  - by rewrite !squeeze_app, squeeze_cons_space.
Qed.

Lemma ws_steps_squeeze (x y : list ascii) : rtc ws_step x y → squeeze x = squeeze y.
Proof.
  induction 1 as [|x y z Hstep _ IH]; [done |].
  by rewrite (ws_step_squeeze x y Hstep).
Qed.

(** The steps under a prefix that ends in whitespace. *)
Lemma ws_step_under (a : list ascii) (sp : ascii) (y y' : list ascii) :
  is_space sp = true → ws_step y y' →
  rtc ws_step (a ++ sp :: y) (a ++ sp :: y').
Proof.
  intros Hsp [sp2 v Hsp2 | u sp2 Hsp2 | u sp2 sp' v Hsp2 Hsp' | u sp2 sp3 v Hsp2 Hsp3].
  - eapply rtc_l; [apply (ws_dup a sp sp2 v Hsp Hsp2) |].
    apply rtc_once. by apply ws_swap.
  - apply rtc_once.
    replace (a ++ sp :: u ++ [sp2]) with ((a ++ sp :: u) ++ [sp2])
      by (by rewrite <- app_assoc).
    by apply ws_trail.
  - apply rtc_once.
    replace (a ++ sp :: u ++ sp2 :: v) with ((a ++ sp :: u) ++ sp2 :: v)
      by (by rewrite <- app_assoc).
    replace (a ++ sp :: u ++ sp' :: v) with ((a ++ sp :: u) ++ sp' :: v)
      by (by rewrite <- app_assoc).
    by apply ws_swap.
  - apply rtc_once.
    replace (a ++ sp :: u ++ sp2 :: sp3 :: v) with ((a ++ sp :: u) ++ sp2 :: sp3 :: v)
      by (by rewrite <- app_assoc).
    replace (a ++ sp :: u ++ sp3 :: v) with ((a ++ sp :: u) ++ sp3 :: v)
      by (by rewrite <- app_assoc).
    by apply ws_dup.
Qed.

Lemma ws_steps_under (a : list ascii) (sp : ascii) (y y' : list ascii) :
  is_space sp = true → rtc ws_step y y' →
  rtc ws_step (a ++ sp :: y) (a ++ sp :: y').
Proof.
  intros Hsp. induction 1 as [|x y z Hstep _ IH]; [done |].
  etrans; [by apply ws_step_under | done].
Qed.

(** The squeeze is reached by such steps. *)
Lemma ws_steps_to_squeeze (x : list ascii) : rtc ws_step x (squeeze x).
Proof.
  induction x as [x IH] using (induction_ltof1 _ (@length ascii)). unfold ltof in IH.
  destruct (first_space x) as [Hx | (a & sp & b & -> & Ha & Hsp)].
  - by rewrite squeeze_space_free.
  - rewrite squeeze_app_space by done.
    etrans; [apply (ws_steps_under a sp b (squeeze b) Hsp), IH; rewrite length_app; simpl; lia |].
    destruct a as [|c a].
    + apply rtc_once. by apply ws_lead.
    + destruct (squeeze b) as [|d r].
      * apply rtc_once. by apply ws_trail.
      * apply rtc_once. by apply (ws_swap (c :: a) sp " " (d :: r)).
Qed.

Lemma one_space (sp : ascii) :
  is_space sp = true → Forall (fun c => is_space c = true) [sp].
Proof. by repeat constructor. Qed.

Lemma two_spaces (sp sp2 : ascii) :
  is_space sp = true → is_space sp2 = true →
  Forall (fun c => is_space c = true) [sp; sp2].
Proof. by repeat constructor. Qed.

(** Whitespace put between [u] and [v] is removed whole or kept whole. *)
Lemma strip_parens_spaces (u v : list ascii) :
  ∃ p1,
    (∀ w, Forall (fun c => is_space c = true) w → strip_parens (u ++ w ++ v) = p1) ∨
    (∀ w, Forall (fun c => is_space c = true) w →
          strip_parens (u ++ w ++ v) = p1 ++ w ++ strip_parens v).
Proof.
  destruct (strip_parens_infix u v) as [p1 [Hp | Hp]]; exists p1; [left | right];
    intros w Hw; apply Hp; auto using spaces_no_open, spaces_no_close.
Qed.

(** The parenthetical removal turns a step into at most one step. *)
Lemma ws_step_strip_parens (x y : list ascii) :
  ws_step x y → rtc ws_step (strip_parens x) (strip_parens y).
Proof.
  intros [sp v Hsp | u sp Hsp | u sp sp' v Hsp Hsp' | u sp sp2 v Hsp Hsp2].
  - pose proof (strip_parens_prefix [sp] v) as Hp. cbn [app] in Hp. rewrite Hp.
    + apply rtc_once. by apply ws_lead.
    + apply spaces_no_open. by apply one_space.
  - destruct (strip_parens_spaces u []) as [p1 [Hp | Hp]].
    + pose proof (Hp [sp] (one_space sp Hsp)) as H1.
      pose proof (Hp [] (Forall_nil_2 _)) as H0.
      cbn [app] in H1, H0. rewrite app_nil_r in H0. by rewrite H1, H0.
    + pose proof (Hp [sp] (one_space sp Hsp)) as H1.
      pose proof (Hp [] (Forall_nil_2 _)) as H0.
      cbn [app] in H1, H0. rewrite app_nil_r in H0.
      change (strip_parens []) with (@nil ascii) in H1, H0.
      rewrite app_nil_r in H0. rewrite H1, H0.
      apply rtc_once. by apply ws_trail.
  - destruct (strip_parens_spaces u v) as [p1 [Hp | Hp]].
    + pose proof (Hp [sp] (one_space sp Hsp)) as H1.
      pose proof (Hp [sp'] (one_space sp' Hsp')) as H2.
      cbn [app] in H1, H2. by rewrite H1, H2.
    + pose proof (Hp [sp] (one_space sp Hsp)) as H1.
      pose proof (Hp [sp'] (one_space sp' Hsp')) as H2.
      cbn [app] in H1, H2. rewrite H1, H2.
      apply rtc_once. by apply ws_swap.
  - destruct (strip_parens_spaces u v) as [p1 [Hp | Hp]].
    + pose proof (Hp [sp; sp2] (two_spaces sp sp2 Hsp Hsp2)) as H1.
      pose proof (Hp [sp2] (one_space sp2 Hsp2)) as H2.
      cbn [app] in H1, H2. by rewrite H1, H2.
    + pose proof (Hp [sp; sp2] (two_spaces sp sp2 Hsp Hsp2)) as H1.
      pose proof (Hp [sp2] (one_space sp2 Hsp2)) as H2.
      cbn [app] in H1, H2. rewrite H1, H2.
      apply rtc_once. by apply ws_dup.
Qed.

Lemma ws_steps_strip_parens (x y : list ascii) :
  rtc ws_step x y → squeeze (strip_parens x) = squeeze (strip_parens y).
Proof.
  induction 1 as [|x y z Hstep _ IH]; [done |].
  rewrite <- IH. by apply ws_steps_squeeze, ws_step_strip_parens.
Qed.

(** Squeezing first does not change what is left after the removal and
    the squeeze. *)
Lemma squeeze_strip_parens_squeeze (x : list ascii) :
  squeeze (strip_parens (squeeze x)) = squeeze (strip_parens x).
Proof. symmetry. apply ws_steps_strip_parens, ws_steps_to_squeeze. Qed.

(** *** [strip] before the squeeze *)

Lemma squeeze_lstrip (s : list ascii) : squeeze (lstrip s) = squeeze s.
Proof.
  induction s as [|c t IH]; [done |]. cbn [lstrip].
  destruct (is_space c) eqn:Hc; [| done].
  by rewrite IH, squeeze_cons_space.
Qed.

Lemma rstrip_snoc (u : list ascii) (c : ascii) :
  rstrip (u ++ [c]) = if is_space c then rstrip u else u ++ [c].
Proof.
  unfold rstrip. rewrite rev_unit. cbn [lstrip].
  destruct (is_space c); [done |].
  cbn [rev]. by rewrite rev_involutive.
Qed.

Lemma squeeze_rstrip (s : list ascii) : squeeze (rstrip s) = squeeze s.
Proof.
  induction s as [|c u IH] using rev_ind; [done |].
  rewrite rstrip_snoc. destruct (is_space c) eqn:Hc; [| done].
  by rewrite IH, squeeze_snoc_space.
Qed.

Lemma squeeze_strip (s : list ascii) : squeeze (strip s) = squeeze s.
Proof. unfold strip. by rewrite squeeze_rstrip, squeeze_lstrip. Qed.

(* ===================================================================== *)
(** ** A closed form of the normalizer *)
(* ===================================================================== *)

Lemma is_space_upper_char (c : ascii) : is_space (upper_char c) = is_space c.
Proof. destruct c as [[] [] [] [] [] [] [] []]; reflexivity. Qed.

Lemma upper_app (a b : list ascii) : upper (a ++ b) = upper a ++ upper b.
Proof. apply map_app. Qed.

Lemma upper_fieldwise : fieldwise upper.
Proof.
  split_and!.
  - intros a sp b Hsp.
    assert (Hfix : upper_char sp = sp)
      by (destruct sp as [[] [] [] [] [] [] [] []]; vm_compute in Hsp |- *; congruence).
    unfold upper. rewrite map_app. cbn [map]. by rewrite Hfix.
  - intros a Ha. unfold space_free, upper in *. rewrite Forall_forall in *.
    intros c Hc. apply list_elem_of_In, in_map_iff in Hc as (x & <- & Hx).
    rewrite is_space_upper_char. apply Ha. by apply list_elem_of_In.
  - intros a. by destruct a.
Qed.

Lemma upper_squeeze (s : list ascii) : upper (squeeze s) = squeeze (upper s).
Proof. apply fieldwise_squeeze, upper_fieldwise. Qed.

Lemma clean_chars_normalize (s : list ascii) : clean_chars s = normalize s.
Proof. destruct s; [by vm_compute | done]. Qed.

(** The two [strip] calls of the normalizer change nothing in its result. *)
Lemma normalize_closed (s : list ascii) :
  normalize s = expand_abbrevs (squeeze (strip_parens (upper s))).
Proof.
  rewrite normalize_squeezed.
  rewrite <- (fieldwise_squeeze _ _ expand_abbrevs_fieldwise). f_equal.
  rewrite <- squeeze_strip_parens_squeeze, squeeze_strip.
  apply squeeze_strip_parens_squeeze.
Qed.

Lemma normalize_closed' (s : list ascii) :
  normalize s = squeeze (expand_abbrevs (strip_parens (upper s))).
Proof.
  rewrite normalize_closed. apply fieldwise_squeeze, expand_abbrevs_fieldwise.
Qed.

Lemma chars_text (l : list ascii) : chars (text l) = l.
Proof. apply list_ascii_of_string_of_list_ascii. Qed.

Lemma text_chars (s : string) : text (chars s) = s.
Proof. apply string_of_list_ascii_of_string. Qed.

Lemma chars_append (a b : string) : chars (a +:+ b) = chars a ++ chars b.
Proof.
  unfold chars. induction a as [|c a IH]; [done |].
  simpl. f_equal. exact IH.
Qed.

(* ===================================================================== *)
(** ** Statements about the normalizer *)
(* ===================================================================== *)

(** X12.  A normalized name is left as it is by every step of the
    normalizer: it is upper case, has no whitespace at its ends, has
    single spaces between its words, has no parenthetical and no
    abbreviation left to expand.  The names the normalizer returns
    unchanged are exactly those of that form. *)
Theorem normalized_names_are_in_normal_form (name : string) :
  normal_form (chars (clean_company_name name)) ∧
  (clean_company_name name = name ↔ normal_form (chars name)).
Proof.
  assert (Hnf : ∀ s, normal_form (normalize s)).
  { intros s. rewrite (normalize_squeezed s).
    set (y := re_sub re_parenthetical [] (strip (upper s))).
    set (z := expand_abbrevs y).
    assert (Hfixed : upper_fixed (squeeze z)).
    { apply upper_fixed_squeeze, upper_fixed_expand, upper_fixed_sub_at; [| constructor].
      apply upper_fixed_strip, upper_upper_fixed. }
    assert (Hclosed : unclosed (squeeze z) = true).
    { rewrite unclosed_parens, squeeze_parens. unfold z.
      rewrite expand_abbrevs_parens, <- unclosed_parens.
      apply strip_parens_unclosed. }
    unfold normal_form. split_and!.
    - by apply upper_of_fixed.
    - apply strip_squeeze.
    - apply squeeze_idem.
    - by apply strip_parens_stable.
    - rewrite (fieldwise_squeeze _ _ expand_abbrevs_fieldwise).
      unfold z at 1. by rewrite expand_abbrevs_idem. }
  assert (Hout : normal_form (chars (clean_company_name name))).
  { unfold clean_company_name. rewrite chars_text, clean_chars_normalize. apply Hnf. }
  split; [exact Hout |]. split.
  - intros Heq. by rewrite Heq in Hout.
  - intros (Hu & Hs & Hq & Hp & He). unfold clean_company_name.
    rewrite clean_chars_normalize. unfold normalize.
    rewrite Hu, Hs, Hp, He, Hq, Hs. apply text_chars.
Qed.

(** X13.  Two names that differ only in letter case and in whitespace
    (at the ends, or in how much and which whitespace separates their
    words) have the same normalized name. *)
Theorem clean_company_name_ignores_case_and_spacing (x y : string) :
  squeeze (upper (chars x)) = squeeze (upper (chars y)) →
  clean_company_name x = clean_company_name y.
Proof.
  intros Heq. unfold clean_company_name. f_equal.
  rewrite !clean_chars_normalize, !normalize_closed. f_equal.
  rewrite <- (squeeze_strip_parens_squeeze (upper (chars x))).
  rewrite <- (squeeze_strip_parens_squeeze (upper (chars y))).
  by rewrite Heq.
Qed.

Lemma clean_company_name_ignores_case_and_spacing_witness :
  squeeze (upper (chars "  acme   Corp ")) = squeeze (upper (chars "ACME corp")) ∧
  clean_company_name "  acme   Corp " = clean_company_name "ACME corp".
Proof.
  assert (Heq : squeeze (upper (chars "  acme   Corp ")) = squeeze (upper (chars "ACME corp")))
    by (vm_compute; reflexivity).
  split; [exact Heq |].
  exact (clean_company_name_ignores_case_and_spacing "  acme   Corp " "ACME corp" Heq).
Defined.

Lemma upper_char_open (c : ascii) : upper_char c = "("%char → c = "("%char.
Proof. destruct c as [[] [] [] [] [] [] [] []]; vm_compute; congruence. Qed.

Lemma upper_char_close (c : ascii) : upper_char c = ")"%char → c = ")"%char.
Proof. destruct c as [[] [] [] [] [] [] [] []]; vm_compute; congruence. Qed.

Lemma upper_no_open (s : list ascii) : "("%char ∉ s → "("%char ∉ upper s.
Proof.
  intros Hs Hin. unfold upper in Hin.
  apply list_elem_of_In, in_map_iff in Hin as (x & Hx%upper_char_open & Hin).
  subst x. by apply list_elem_of_In in Hin.
Qed.

Lemma upper_no_close (s : list ascii) : ")"%char ∉ s → ")"%char ∉ upper s.
Proof.
  intros Hs Hin. unfold upper in Hin.
  apply list_elem_of_In, in_map_iff in Hin as (x & Hx%upper_char_close & Hin).
  subst x. by apply list_elem_of_In in Hin.
Qed.

(** X14.  A parenthetical remark does not count: a name with a remark in
    parentheses after text without an opening parenthesis has the
    normalized name of the name without the remark. *)
Theorem parenthetical_does_not_count (before remark after : string) :
  "("%char ∉ chars before → ")"%char ∉ chars remark →
  clean_company_name (before +:+ "(" +:+ remark +:+ ")" +:+ after) =
  clean_company_name (before +:+ after).
Proof.
  intros Hb Hr. unfold clean_company_name. f_equal.
  rewrite !clean_chars_normalize, !normalize_closed. do 2 f_equal.
  rewrite !chars_append, !upper_app.
  rewrite (strip_parens_prefix (upper (chars before)) (upper (chars after)))
    by by apply upper_no_open.
  rewrite (strip_parens_prefix (upper (chars before))) by by apply upper_no_open.
  f_equal. change (upper (chars "(")) with (chars "(").
  change (upper (chars ")")) with (chars ")"). cbn [chars list_ascii_of_string app].
  rewrite strip_parens_cons. cbn [Ascii.eqb Bool.eqb].
  rewrite after_close_app, (after_close_absent _ (upper_no_close _ Hr)).
  cbn [after_close]. by rewrite Ascii.eqb_refl.
Qed.

Lemma parenthetical_does_not_count_witness :
  ("("%char ∉ chars "Acme ") ∧ (")"%char ∉ chars "formerly (Bolt") ∧
  clean_company_name ("Acme " +:+ "(" +:+ "formerly (Bolt" +:+ ")" +:+ " Inc") =
  clean_company_name ("Acme " +:+ " Inc").
Proof.
  assert (Hb : "("%char ∉ chars "Acme ").
  { intros Hin. apply mem_spec in Hin. vm_compute in Hin. discriminate. }
  assert (Hr : ")"%char ∉ chars "formerly (Bolt").
  { intros Hin. apply mem_spec in Hin. vm_compute in Hin. discriminate. }
  split_and!; [exact Hb | exact Hr |].
  exact (parenthetical_does_not_count "Acme " "formerly (Bolt" " Inc" Hb Hr).
Defined.

(** Replacing a whole word between whitespace by one with the same
    expansion. *)
Lemma normalize_same_expansion (u v f f' : list ascii) (sp1 sp2 : ascii) :
  is_space sp1 = true → is_space sp2 = true →
  "("%char ∉ f → ")"%char ∉ f → "("%char ∉ f' → ")"%char ∉ f' →
  expand_abbrevs f = expand_abbrevs f' →
  squeeze (expand_abbrevs (strip_parens (u ++ (sp1 :: f ++ [sp2]) ++ v))) =
  squeeze (expand_abbrevs (strip_parens (u ++ (sp1 :: f' ++ [sp2]) ++ v))).
Proof.
  intros Hsp1 Hsp2 Hf1 Hf2 Hf1' Hf2' Hexp.
  assert (Hopen : ∀ g, "("%char ∉ g → "("%char ∉ sp1 :: g ++ [sp2]).
  { intros g Hg [Heq | [Hin | Hin%list_elem_of_singleton]%elem_of_app]%elem_of_cons.
    - by apply (space_not_open sp1).
    - done.
    - by apply (space_not_open sp2). }
  assert (Hclose : ∀ g, ")"%char ∉ g → ")"%char ∉ sp1 :: g ++ [sp2]).
  { intros g Hg [Heq | [Hin | Hin%list_elem_of_singleton]%elem_of_app]%elem_of_cons.
    - by apply (space_not_close sp1).
    - done.
    - by apply (space_not_close sp2). }
  destruct (strip_parens_infix u v) as [p1 [Hp | Hp]].
  - rewrite !Hp; auto.
  - rewrite !Hp; auto.
    destruct expand_abbrevs_fieldwise as (Hsplit & _ & _).
    cbn [app]. rewrite <- !app_assoc. cbn [app].
    rewrite !(Hsplit p1 sp1) by done.
    rewrite !(Hsplit _ sp2) by done.
    by rewrite Hexp.
Qed.

(** X15.  The abbreviated and the spelled-out word give the same
    normalized name: [Corp] and [Corporation], [Co] and [Company],
    standing as words between spaces anywhere in a name. *)
Theorem abbreviation_and_full_word_agree (before after : string) :
  clean_company_name (before +:+ " Corp " +:+ after) =
    clean_company_name (before +:+ " Corporation " +:+ after) ∧
  clean_company_name (before +:+ " Co " +:+ after) =
    clean_company_name (before +:+ " Company " +:+ after).
Proof.
  unfold clean_company_name.
  rewrite !clean_chars_normalize, !normalize_closed'.
  rewrite !chars_append, !upper_app.
  assert (Hno : ∀ s c, mem c s = false → c ∉ s).
  { intros s c Hm Hin. apply mem_spec in Hin. congruence. }
  split; f_equal.
  - apply (normalize_same_expansion (upper (chars before)) (upper (chars after))
             (chars "CORP") (chars "CORPORATION") " " " ");
      try done; try (apply Hno; by vm_compute).
  - apply (normalize_same_expansion (upper (chars before)) (upper (chars after))
             (chars "CO") (chars "COMPANY") " " " ");
      try done; try (apply Hno; by vm_compute).
Qed.

(* ===================================================================== *)
(** ** Monetary values again *)
(* ===================================================================== *)

(** X16.  Where the dollar signs and commas stand in a value does not
    matter: two non-empty texts with the same characters apart from
    them parse to the same number. *)
Theorem parse_contract_value_ignores_currency_marks {F : Type} `{PyFloat F}
    (a b : string) :
  a ≠ ""%string → b ≠ ""%string →
  filter (fun c => c ≠ "$"%char ∧ c ≠ ","%char) (chars a) =
  filter (fun c => c ≠ "$"%char ∧ c ≠ ","%char) (chars b) →
  parse_contract_value (F:=F) a = parse_contract_value (F:=F) b.
Proof.
  intros Ha Hb Heq. unfold parse_contract_value.
  destruct a as [|c a]; [done |]. destruct b as [|d b]; [done |].
  cbn [chars list_ascii_of_string] in *.
  by rewrite !remove_currency_filter, Heq.
Qed.

Lemma parse_contract_value_ignores_currency_marks_witness :
  "$1,200.50"%string ≠ ""%string ∧ "1200.50$"%string ≠ ""%string ∧
  filter (fun c => c ≠ "$"%char ∧ c ≠ ","%char) (chars "$1,200.50") =
  filter (fun c => c ≠ "$"%char ∧ c ≠ ","%char) (chars "1200.50$") ∧
  parse_contract_value (F:=DecFloat.t) "$1,200.50" =
  parse_contract_value (F:=DecFloat.t) "1200.50$".
Proof.
  assert (Ha : "$1,200.50"%string ≠ ""%string) by discriminate.
  assert (Hb : "1200.50$"%string ≠ ""%string) by discriminate.
  assert (Heq : filter (fun c => c ≠ "$"%char ∧ c ≠ ","%char) (chars "$1,200.50") =
                filter (fun c => c ≠ "$"%char ∧ c ≠ ","%char) (chars "1200.50$"))
    by (vm_compute; reflexivity).
  split_and!; [exact Ha | exact Hb | exact Heq |].
  exact (parse_contract_value_ignores_currency_marks (F:=DecFloat.t)
           "$1,200.50" "1200.50$" Ha Hb Heq).
Defined.


(* ===================================================================== *)
(** ** The export and the SQL generation after a run *)
(* ===================================================================== *)

Lemma three_way_count {A : Type} (f : A → string) (a b c : string) (l : list A) :
  a ≠ b → a ≠ c → b ≠ c →
  Forall (fun x => f x = a ∨ f x = b ∨ f x = c) l →
  length (filter (fun x => f x = a) l) + length (filter (fun x => f x = b) l) +
  length (filter (fun x => f x = c) l) = length l.
Proof.
  intros Hab Hac Hbc. induction 1 as [|x l Hx _ IH]; [done |].
  rewrite !filter_cons. cbn [length]. rewrite <- IH.
  destruct Hx as [Hx | [Hx | Hx]]; rewrite Hx.
  - rewrite decide_True by done. rewrite !decide_False by done. cbn [length]. lia.
  - rewrite (decide_False (P := b = a)) by done. rewrite decide_True by done.
    rewrite decide_False by done. cbn [length]. lia.
  - rewrite (decide_False (P := c = a)) by done.
    rewrite (decide_False (P := c = b)) by done.
    rewrite decide_True by done. cbn [length]. lia.
Qed.

Section ExportFacts.
Context {F : Type} `{PyFloat F}.
Variable uuid4 : nat -> string.
Variable reformat_date : string -> string -> option string.

Local Abbreviation steps := (match_contract_rows uuid4 reformat_date).

Lemma determine_service_tier_values (v : F) :
  determine_service_tier v = "CORE"%string ∨
  determine_service_tier v = "ASSURE"%string ∨
  determine_service_tier v = "GUARDIAN"%string.
Proof.
  unfold determine_service_tier.
  destruct (float_ge_int v 250000); [auto |].
  destruct (float_ge_int v 100000); auto.
Qed.

(** X17.  After a run every customer is counted in exactly one service
    tier: the three counts of the summary add up to the number of
    customers. *)
Theorem tier_counts_add_up (customer_rows contract_rows : list row) :
  ∃ cs ks,
    run (F:=F) uuid4 reformat_date customer_rows contract_rows = Some (cs, ks) ∧
    tier_count "CORE" cs + tier_count "ASSURE" cs + tier_count "GUARDIAN" cs = size cs.
Proof.
  destruct (run_unfold uuid4 reformat_date customer_rows contract_rows) as (st & _ & Hrun).
  eexists _, _. split; [exact Hrun |].
  unfold tier_count. rewrite three_way_count; try done.
  - by rewrite length_fmap, length_map_to_list.
  - apply Forall_forall. intros c (kv & -> & Hin)%list_elem_of_fmap.
    destruct kv as [id c']. apply elem_of_map_to_list in Hin.
    rewrite lookup_fmap in Hin.
    destruct (st_customers st !! id) as [c0|]; [| done].
    injection Hin as <-. cbn [snd retier service_tier].
    apply determine_service_tier_values.
Qed.

(** The links between the customers and the contracts after the loop. *)
Lemma run_links (customer_rows contract_rows : list row) :
  ∃ cs ks,
    run (F:=F) uuid4 reformat_date customer_rows contract_rows = Some (cs, ks) ∧
    (∀ id c, cs !! id = Some c → contracts c = linked_to id ks) ∧
    (∀ k id, k ∈ ks → matched_customer_id k = Some id → is_Some (cs !! id)).
Proof.
  destruct (run_unfold uuid4 reformat_date customer_rows contract_rows) as (st & Hst & Hrun).
  eexists _, _. split; [exact Hrun |]. split.
  - intros id c. rewrite lookup_fmap.
    destruct (st_customers st !! id) as [c0|] eqn:Hc0; [| done].
    intros [= <-]. cbn [retier contracts].
    apply match_contract_rows_aggregates in Hst.
    + by destruct (Hst _ _ Hc0).
    + intros id' c' Hc'. cbn in Hc'.
      by destruct (loaded_customers_fresh customer_rows id' c' Hc') as [-> ->].
  - intros k id Hk Hid.
    destruct (match_contract_rows_contracts _ _ _ _ _ _ Hst k Hk)
      as [Hin | (n & r & _ & _ & ->)]; [by apply not_elem_of_nil in Hin |].
    cbn in Hid. apply match_customer_In in Hid as [s Hin].
    rewrite lookup_fmap, fmap_is_Some.
    apply (match_contract_rows_keys _ _ _ _ _ _ id Hst). cbn.
    by eapply index_values_loaded.
Qed.

Lemma truthy_id_Some (o : option string) (id : string) :
  truthy_id o = Some id → o = Some id.
Proof.
  destruct o as [s|]; [| done]. cbn. by destruct (str_empty s); [| intros [= ->]].
Qed.

Lemma sql_contract_rows_all (cs : customers_of F) (ks sel : list (contract F)) :
  (∀ id c, cs !! id = Some c → contracts c = linked_to id ks) →
  (∀ k id, k ∈ ks → matched_customer_id k = Some id → is_Some (cs !! id)) →
  sel ⊆ matched_contracts ks →
  sql_contract_rows cs sel = Some sel.
Proof.
  intros Hlinks Hkeys. induction sel as [|k sel IH]; [done |].
  intros Hsub. cbn [sql_contract_rows].
  assert (Hk : k ∈ matched_contracts ks) by (apply Hsub, list_elem_of_here).
  apply list_elem_of_filter in Hk as [[id Hid] Hk].
  pose proof (truthy_id_Some _ _ Hid) as Hm. rewrite Hm.
  destruct (Hkeys k id Hk Hm) as [c Hc]. rewrite Hc.
  rewrite IH by (intros x Hx; apply Hsub; by apply list_elem_of_further).
  rewrite bool_decide_eq_true_2; [done |].
  exists c. unfold customers_with_contracts. apply map_lookup_filter_Some.
  split; [done |]. cbn [snd]. unfold has_contracts.
  rewrite (Hlinks id c Hc).
  assert (Hin : k ∈ linked_to id ks) by (apply list_elem_of_filter; by split).
  by destruct (linked_to id ks); [apply not_elem_of_nil in Hin |].
Qed.

(** X18.  After a run the SQL generation reaches a customer for every
    matched contract, finds [db_id] on it, and so writes a row for
    every matched contract, in order; the customers it inserts are
    those some contract is matched to. *)
Theorem every_matched_contract_gets_a_row (customer_rows contract_rows : list row) :
  ∃ cs ks,
    run (F:=F) uuid4 reformat_date customer_rows contract_rows = Some (cs, ks) ∧
    sql_contract_rows cs (matched_contracts ks) = Some (matched_contracts ks) ∧
    ∀ id, is_Some (customers_with_contracts cs !! id) ↔
          is_Some (cs !! id) ∧
          ∃ k, k ∈ ks ∧ truthy_id (matched_customer_id k) = Some id.
Proof.
  destruct (run_links customer_rows contract_rows) as (cs & ks & Hrun & Hlinks & Hkeys).
  exists cs, ks. split_and!; [done | |].
  - by apply (sql_contract_rows_all cs ks).
  - intros id. unfold customers_with_contracts. split.
    + intros [c [Hc Hhas]%map_lookup_filter_Some]. split; [by exists c |].
      cbn [snd] in Hhas. unfold has_contracts in Hhas.
      rewrite (Hlinks id c Hc) in Hhas.
      destruct (linked_to id ks) as [|k l] eqn:Hl; [done |].
      assert (Hin : k ∈ linked_to id ks) by (rewrite Hl; apply list_elem_of_here).
      apply list_elem_of_filter in Hin as [Hid Hin]. by exists k.
    + intros [[c Hc] (k & Hk & Hid)]. exists c. apply map_lookup_filter_Some.
      split; [done |]. cbn [snd]. unfold has_contracts. rewrite (Hlinks id c Hc).
      assert (Hin : k ∈ linked_to id ks) by (apply list_elem_of_filter; by split).
      by destruct (linked_to id ks); [apply not_elem_of_nil in Hin |].
Qed.
End ExportFacts.
